(** * The broadcast manager of skeduler-broadcast

    A shallow embedding of [src/broadcast-manager.js]: the capture of the
    schedule table ([captureTableHTML]), the generation of broadcast codes
    ([generateCode]), the publication of a snapshot ([pushBroadcast]), the
    hook that republishes after a cloud push ([hookAutoBroadcast]), and the
    setting that turns the hook on, with its start at load ([init],
    [setAutoEnabled], [isAutoEnabled]).

    JavaScript strings are sequences of UTF-16 code units, the module's two
    variables and everything the functions reach through [window] and
    [document] are fields of one [world] record, and a function of the module
    is a state transformer that either returns or throws. *)

From Stdlib Require Import NArith String Ascii List Lia.
From stdpp Require Import base option list gmap.

#[local] Set Warnings "-register-all".

(** ** Strings *)

(** A JavaScript string, by its UTF-16 code units. *)
Abbreviation jsstring := (list N).

(** The string a literal of ASCII characters denotes. *)
Definition js (s : string) : jsstring :=
  List.map N_of_ascii (list_ascii_of_string s).

(** [ToBoolean] on a string: only the empty string is falsy. *)
Definition truthy (s : jsstring) : bool :=
  match s with
  | [] => false
  | _ :: _ => true
  end.

(** [a || b] where either side is a string or [undefined]. *)
Definition js_or (a b : option jsstring) : option jsstring :=
  match a with
  | Some s => if truthy s then a else b
  | None => b
  end.

(** [a || 'literal']. *)
Definition js_or_literal (a : option jsstring) (b : jsstring) : jsstring :=
  match a with
  | Some s => if truthy s then s else b
  | None => b
  end.

(** [s.charAt(i)]: the one-unit string at [i], or the empty string. *)
Definition charAt (s : jsstring) (i : N) : jsstring :=
  match s !! N.to_nat i with
  | Some c => [c]
  | None => []
  end.

(** A character class of a regular expression, as its ranges of code units. *)
Definition in_ranges (ranges : list (N * N)) (c : N) : bool :=
  existsb (fun r => (fst r <=? c)%N && (c <=? snd r)%N) ranges.

(** [s.replace(re, replacement)] for a global regular expression [re] that
    matches one code unit at a time and a replacement without [$]. *)
Definition replace_global (re : N -> bool) (replacement s : jsstring) : jsstring :=
  flat_map (fun c => if re c then replacement else [c]) s.

(** The ranges of [a-zA-Z0-9]. *)
Definition alnum : list (N * N) :=
  [ (97, 122) ; (65, 90) ; (48, 57) ]%N.

(** [/[^a-zA-Z0-9]/g]. *)
Definition non_alnum (c : N) : bool := negb (in_ranges alnum c).

(** [title.replace(/[^a-zA-Z0-9]/g, '_')], the file name of a title
    (line 176 of the source, inside [pushBroadcast]). *)
Definition deriveFileName (title : jsstring) : jsstring :=
  replace_global non_alnum (js "_") title.

(** ** The document *)

(** What an element carries itself: its tag name in lower case, the tokens of
    its [class] attribute, its inline style declarations and its other
    attributes. *)
Record element := {
  tagName : jsstring;
  classList : list jsstring;
  style : list (jsstring * jsstring);
  attributes : list (jsstring * jsstring)
}.

Inductive node :=
| Text (data : jsstring)
| Element (e : element) (childNodes : list node).

(** Induction on a tree, the hypothesis holding for every child. *)
Section node_induction.
Variable P : node -> Prop.
Hypothesis on_text : forall data, P (Text data).
Hypothesis on_element : forall e kids, Forall P kids -> P (Element e kids).

Fixpoint node_induction (n : node) : P n :=
  match n with
  | Text data => on_text data
  | Element e kids =>
      on_element e kids
        ((fix each (l : list node) : Forall P l :=
            match l with
            | [] => Forall_nil_2 P
            | k :: l' => Forall_cons_2 P k l' (node_induction k) (each l')
            end) kids)
  end.
End node_induction.

(** The selectors the module uses: [button], [.drag-cell], [[draggable]] and
    [col[data-key="v"]]; one descendant combinator ([thead th[...]]); a
    comma-separated list. *)
Inductive compound :=
| type_sel (t : jsstring)
| class_sel (c : jsstring)
| attr_sel (a : jsstring)
| type_attr_sel (t a v : jsstring).

Inductive complex :=
| compound_sel (c : compound)
| descendant_sel (ancestor c : compound).

Abbreviation selector := (list complex).

Definition getAttribute (a : jsstring) (e : element) : option jsstring :=
  snd <$> List.find (fun p => bool_decide (fst p = a)) (attributes e).

Definition matches_compound (c : compound) (e : element) : bool :=
  match c with
  | type_sel t => bool_decide (tagName e = t)
  | class_sel c => bool_decide (c ∈ classList e)
  | attr_sel a => bool_decide (is_Some (getAttribute a e))
  | type_attr_sel t a v =>
      bool_decide (tagName e = t) && bool_decide (getAttribute a e = Some v)
  end.

(** [ancestors] are the elements above [e], the nearest first. *)
Definition matches_complex (ancestors : list element) (x : complex) (e : element) : bool :=
  match x with
  | compound_sel c => matches_compound c e
  | descendant_sel a c => matches_compound c e && existsb (matches_compound a) ancestors
  end.

Definition matches (sel : selector) (ancestors : list element) (e : element) : bool :=
  existsb (fun x => matches_complex ancestors x e) sel.

(** The elements of the tree [n], itself included, that match [sel], in
    document order. *)
Fixpoint matching (sel : selector) (ancestors : list element) (n : node) : list node :=
  match n with
  | Text _ => []
  | Element e kids =>
      (if matches sel ancestors e then [n] else [])
        ++ flat_map (matching sel (e :: ancestors)) kids
  end.

(** [document.querySelector(sel)], the document given by its root element. *)
Definition document_querySelector (sel : selector) (root : node) : option node :=
  head (matching sel [] root).

(** [n.querySelectorAll(sel)] on a detached tree: the descendants of [n] that
    match, never [n] itself. *)
Definition querySelectorAll (sel : selector) (n : node) : list node :=
  match n with
  | Text _ => []
  | Element e kids => flat_map (matching sel [e]) kids
  end.

(** [n.querySelectorAll(sel).forEach(el => el.remove())] below an element
    whose ancestors are [ancestors]. *)
Fixpoint remove_matching (sel : selector) (ancestors : list element) (n : node) : node :=
  match n with
  | Text _ => n
  | Element e kids =>
      Element e
        (flat_map
           (fun k =>
              match k with
              | Text _ => [k]
              | Element e' _ =>
                  if matches sel (e :: ancestors) e' then []
                  else [remove_matching sel (e :: ancestors) k]
              end)
           kids)
  end.

Definition removeAll (sel : selector) (n : node) : node :=
  remove_matching sel [] n.

(** [f] on the element of a node that matches. *)
Definition touch (sel : selector) (f : element -> element) (ancestors : list element)
    (n : node) : node :=
  match n with
  | Text _ => n
  | Element e kids => if matches sel ancestors e then Element (f e) kids else n
  end.

(** [n.querySelectorAll(sel).forEach(el => f el)], for an [f] that changes
    the element alone (its style, its attributes). *)
Fixpoint touch_matching (sel : selector) (f : element -> element)
    (ancestors : list element) (n : node) : node :=
  match n with
  | Text _ => n
  | Element e kids =>
      Element e
        (List.map
           (fun k => touch sel f (e :: ancestors) (touch_matching sel f (e :: ancestors) k))
           kids)
  end.

Definition forAll (sel : selector) (f : element -> element) (n : node) : node :=
  touch_matching sel f [] n.

(** The first element of a list that [f] changes, changed. *)
Fixpoint first_of {A : Type} (f : A -> option A) (l : list A) : option (list A) :=
  match l with
  | [] => None
  | x :: l' =>
      match f x with
      | Some x' => Some (x' :: l')
      | None => cons x <$> first_of f l'
      end
  end.

(** The first element in document order, from [n] on, that matches [sel],
    changed by [f]; [None] when nothing matches. *)
Fixpoint touch_first (sel : selector) (f : element -> element)
    (ancestors : list element) (n : node) : option node :=
  match n with
  | Text _ => None
  | Element e kids =>
      if matches sel ancestors e then Some (Element (f e) kids)
      else Element e <$> first_of (touch_first sel f (e :: ancestors)) kids
  end.

(** [const x = n.querySelector(sel); if (x) f x]. *)
Definition forFirst (sel : selector) (f : element -> element) (n : node) : node :=
  match n with
  | Text _ => n
  | Element e kids =>
      match first_of (touch_first sel f [e]) kids with
      | Some kids' => Element e kids'
      | None => n
      end
  end.

(** [el.style[property] = value], for a [value] as the style serialises
    it. *)
Fixpoint set_declaration (property value : jsstring) (decls : list (jsstring * jsstring))
    : list (jsstring * jsstring) :=
  match decls with
  | [] => [(property, value)]
  | d :: decls' =>
      if bool_decide (fst d = property) then (property, value) :: decls'
      else d :: set_declaration property value decls'
  end.

Definition setStyle (property value : jsstring) (e : element) : element :=
  {| tagName := tagName e; classList := classList e;
     style := set_declaration property value (style e);
     attributes := attributes e |}.

(** [el.removeAttribute(a)]. *)
Definition removeAttribute (a : jsstring) (e : element) : element :=
  {| tagName := tagName e; classList := classList e; style := style e;
     attributes := List.filter (fun p => negb (bool_decide (fst p = a))) (attributes e) |}.

(** ** Records *)

(** [getCurrentUser()] yields [{ id }]. *)
Record user := { user_id : jsstring }.

(** A row of the [broadcasts] table. *)
Record broadcast := {
  b_id : N;
  b_code : jsstring;
  b_user_id : jsstring;
  b_file_name : jsstring;
  b_title : jsstring;
  b_auto_update : bool;
  b_updated_at : N
}.

(** The argument of [pushBroadcast]: [{ title?, autoUpdate? }]. *)
Record pushOptions := {
  opt_title : option jsstring;
  opt_autoUpdate : option bool
}.

(** What [pushBroadcast] returns. *)
Record pushResult := {
  code : jsstring;
  url : jsstring;
  title : jsstring
}.

(** One entry of [readState().cols]. *)
Record columnSpec := { key : jsstring; print : bool }.

Record meta := { meta_title : option jsstring }.

(** What [window.readState()] returns. *)
Record editorState := {
  cols : option (list columnSpec);
  projectMeta : option meta
}.

(** The captured document: the template literal of [captureTableHTML] with
    its two holes, the style sheet and the cloned table (whose [outerHTML]
    the literal embeds in [<div class="broadcast-schedule">]). *)
Record snapshot := {
  styles : jsstring;
  table : node
}.

(** ** Errors *)

Inductive storeError :=
| NoSingleRow
| AlreadyExists
| Unavailable (status : N).

(** What the module can throw: its own [new Error(message)], an error object
    of the store rethrown, the [SyntaxError] of [querySelector], and the
    [TypeError] of a property read on [null]. *)
Inductive exn :=
| Error (message : jsstring)
| Rethrown (e : storeError)
| SyntaxError
| TypeError.

Inductive completion (A : Type) :=
| Normal (a : A)
| Throw (e : exn).
Arguments Normal {A} a.
Arguments Throw {A} e.

(** ** The world *)

(** [SupabaseAPI.auth]. *)
Record authProvider := {
  isAuthenticated : bool;
  getCurrentUser : option user
}.

(** Modelled from the spec: the record store and the blob store of section 6,
    which the module reaches through [SupabaseAPI.client()] and which are not
    code of this repository. The [broadcasts] table is the list of its rows,
    the [schedule-files] bucket a finite map from paths to bodies; [outages]
    lists, for the requests to come, whether the request fails before it
    reaches the store ([Some status]) or goes through ([None]; so does every
    request once the list is used up). *)
Record supabase := {
  broadcasts : list broadcast;
  schedule_files : gmap jsstring snapshot;
  outages : list (option N)
}.

(** A request sent to the store. *)
Inductive request :=
| select_request (uid fileName : jsstring)
| remove_request (paths : list jsstring)
| upload_request (path : jsstring)
| update_request (id : N)
| insert_request (code : jsstring).

(** A value of [Math.random()]: the number
    [(mantissa mod 2^exponent) / 2^exponent], which is at least 0 and below 1;
    every double in that range is of this form. *)
Record unitDouble := { mantissa : N; exponent : N }.

Inductive logged :=
| log_text (s : jsstring)
| log_exn (e : exn).

Inductive consoleEntry :=
| console_log (args : list logged)
| console_error (args : list logged).

Record world := {
  (** [window.SupabaseAPI?.auth], [None] when [SupabaseAPI], [auth] or
      [isAuthenticated] is missing *)
  auth : option authProvider;
  (** what [SupabaseAPI.client()] talks to *)
  remote : supabase;
  (** the root element of [document] *)
  document : node;
  (** [window.readState?.()], [None] when the function is missing or returns
      [null] *)
  readState : option editorState;
  (** the values [Math.random()] returns, and how many were drawn *)
  random : nat -> unitDouble;
  drawn : nat;
  (** [new Date()], in milliseconds *)
  clock : N;
  (** the module's variables *)
  currentBroadcast : option broadcast;
  autoBroadcast : bool;
  (** what an observer sees: the console, the requests sent to the store, and
      (ghost) the arguments of the calls of [pushBroadcast] *)
  console : list consoleEntry;
  calls : list request;
  pushes : list pushOptions
}.

Definition with_remote (r : supabase) (w : world) : world :=
  {| auth := auth w; remote := r; document := document w; readState := readState w;
     random := random w; drawn := drawn w; clock := clock w;
     currentBroadcast := currentBroadcast w; autoBroadcast := autoBroadcast w;
     console := console w; calls := calls w; pushes := pushes w |}.

Definition with_drawn (n : nat) (w : world) : world :=
  {| auth := auth w; remote := remote w; document := document w; readState := readState w;
     random := random w; drawn := n; clock := clock w;
     currentBroadcast := currentBroadcast w; autoBroadcast := autoBroadcast w;
     console := console w; calls := calls w; pushes := pushes w |}.

Definition with_currentBroadcast (b : option broadcast) (w : world) : world :=
  {| auth := auth w; remote := remote w; document := document w; readState := readState w;
     random := random w; drawn := drawn w; clock := clock w;
     currentBroadcast := b; autoBroadcast := autoBroadcast w;
     console := console w; calls := calls w; pushes := pushes w |}.

Definition with_console (c : list consoleEntry) (w : world) : world :=
  {| auth := auth w; remote := remote w; document := document w; readState := readState w;
     random := random w; drawn := drawn w; clock := clock w;
     currentBroadcast := currentBroadcast w; autoBroadcast := autoBroadcast w;
     console := c; calls := calls w; pushes := pushes w |}.

Definition with_calls (c : list request) (w : world) : world :=
  {| auth := auth w; remote := remote w; document := document w; readState := readState w;
     random := random w; drawn := drawn w; clock := clock w;
     currentBroadcast := currentBroadcast w; autoBroadcast := autoBroadcast w;
     console := console w; calls := c; pushes := pushes w |}.

Definition with_pushes (p : list pushOptions) (w : world) : world :=
  {| auth := auth w; remote := remote w; document := document w; readState := readState w;
     random := random w; drawn := drawn w; clock := clock w;
     currentBroadcast := currentBroadcast w; autoBroadcast := autoBroadcast w;
     console := console w; calls := calls w; pushes := p |}.

(** ** Computations *)

(** A function of the module: from a world, a completion and the world it
    leaves. The asynchronous [pushBroadcast] is run to its end; what a
    rejected promise carries is the [Throw] of the run. *)
Definition M (A : Type) : Type := world -> completion A * world.

#[global] Instance M_ret : MRet M := fun A a w => (Normal a, w).

#[global] Instance M_bind : MBind M := fun A B f m w =>
  match m w with
  | (Normal a, w') => f a w'
  | (Throw e, w') => (Throw e, w')
  end.

Definition throw {A : Type} (e : exn) : M A := fun w => (Throw e, w).

(** [try { m } catch (e) { handler e }]. *)
Definition try_catch {A : Type} (m : M A) (handler : exn -> M A) : M A := fun w =>
  match m w with
  | (Normal a, w') => (Normal a, w')
  | (Throw e, w') => handler e w'
  end.

Definition gets {A : Type} (f : world -> A) : M A := fun w => (Normal (f w), w).

Definition modify (f : world -> world) : M unit := fun w => (Normal tt, f w).

Definition console_write (entry : consoleEntry) : M unit :=
  modify (fun w => with_console (console w ++ [entry]) w).

(** ** The store *)

Record response := {
  data : option broadcast;
  error : option storeError
}.

Definition sent (r : request) : M unit :=
  modify (fun w => with_calls (calls w ++ [r]) w).

(** Whether the request being sent fails on its way. *)
Definition outage : M (option storeError) := fun w =>
  match outages (remote w) with
  | [] => (Normal None, w)
  | o :: rest =>
      (Normal (Unavailable <$> o),
       with_remote {| broadcasts := broadcasts (remote w);
                      schedule_files := schedule_files (remote w);
                      outages := rest |} w)
  end.

Definition set_broadcasts (rows : list broadcast) : M unit :=
  modify (fun w => with_remote {| broadcasts := rows;
                                  schedule_files := schedule_files (remote w);
                                  outages := outages (remote w) |} w).

Definition set_schedule_files (files : gmap jsstring snapshot) : M unit :=
  modify (fun w => with_remote {| broadcasts := broadcasts (remote w);
                                  schedule_files := files;
                                  outages := outages (remote w) |} w).

(** The rows of a user and a file name. *)
Definition rows_of (uid fileName : jsstring) (table : list broadcast) : list broadcast :=
  List.filter (fun b => bool_decide (b_user_id b = uid)
                        && bool_decide (b_file_name b = fileName)) table.

(** Modelled from the spec: [find(ownerId, fileName)] of the record store,
    as the source asks for it,
    [from('broadcasts').select('*').eq('user_id', uid).eq('file_name', fileName).single()]:
    the row when exactly one matches, an error otherwise. *)
Definition select_single (uid fileName : jsstring) : M response :=
  sent (select_request uid fileName);;
  down ← outage;
  match down with
  | Some e => mret {| data := None; error := Some e |}
  | None =>
      rows ← gets (fun w => broadcasts (remote w));
      match rows_of uid fileName rows with
      | [b] => mret {| data := Some b; error := None |}
      | _ => mret {| data := None; error := Some NoSingleRow |}
      end
  end.

(** Modelled from the spec: [remove(path)] of the blob store, best effort;
    a request that does not get through throws. *)
Definition storage_remove (paths : list jsstring) : M unit :=
  sent (remove_request paths);;
  down ← outage;
  match down with
  | Some e => throw (Rethrown e)
  | None =>
      files ← gets (fun w => schedule_files (remote w));
      set_schedule_files (foldr delete files paths)
  end.

(** Modelled from the spec: [upload(path, body, { overwrite: false })] of the
    blob store; the result is the [error] of the response. *)
Definition storage_upload (path : jsstring) (body : snapshot) : M (option storeError) :=
  sent (upload_request path);;
  down ← outage;
  match down with
  | Some e => mret (Some e)
  | None =>
      files ← gets (fun w => schedule_files (remote w));
      match files !! path with
      | Some _ => mret (Some AlreadyExists)
      | None => set_schedule_files (<[path := body]> files);; mret None
      end
  end.

(** The rows with an id. *)
Definition rows_with (id : N) (table : list broadcast) : list broadcast :=
  List.filter (fun b => bool_decide (b_id b = id)) table.

Definition updated (title : jsstring) (auto_update : bool) (updated_at : N)
    (b : broadcast) : broadcast :=
  {| b_id := b_id b; b_code := b_code b; b_user_id := b_user_id b;
     b_file_name := b_file_name b; b_title := title;
     b_auto_update := auto_update; b_updated_at := updated_at |}.

(** Modelled from the spec: [update(id, fields)] of the record store, as the
    source asks for it, [update({...}).eq('id', id).select().single()]: the
    row with that id, with its title, flag and time replaced, when there is
    exactly one; otherwise nothing changes and the response is an error. *)
Definition update_single (id : N) (title : jsstring) (auto_update : bool)
    (updated_at : N) : M response :=
  sent (update_request id);;
  down ← outage;
  match down with
  | Some e => mret {| data := None; error := Some e |}
  | None =>
      rows ← gets (fun w => broadcasts (remote w));
      match rows_with id rows with
      | [b] =>
          let b' := updated title auto_update updated_at b in
          set_broadcasts
            (List.map (fun r => if bool_decide (b_id r = id) then b' else r) rows);;
          mret {| data := Some b'; error := None |}
      | _ => mret {| data := None; error := Some NoSingleRow |}
      end
  end.

(** An id no row of the table has. *)
Definition fresh_id (rows : list broadcast) : N :=
  (1 + foldr N.max 0 (b_id <$> rows))%N.

(** Modelled from the spec: [create(fields)] of the record store, as the
    source asks for it, [insert({...}).select().single()]: a new row with the
    given fields, an id and the time of the store. The store keeps one record
    for an owner and a file name (section 5 of the spec): it refuses a second
    one, and the response holds an error. *)
Definition insert_single (code uid fileName title : jsstring) (auto_update : bool)
    : M response :=
  sent (insert_request code);;
  down ← outage;
  match down with
  | Some e => mret {| data := None; error := Some e |}
  | None =>
      rows ← gets (fun w => broadcasts (remote w));
      match rows_of uid fileName rows with
      | [] =>
          now ← gets clock;
          let b := {| b_id := fresh_id rows; b_code := code; b_user_id := uid;
                      b_file_name := fileName; b_title := title;
                      b_auto_update := auto_update; b_updated_at := now |} in
          set_broadcasts (rows ++ [b]);;
          mret {| data := Some b; error := None |}
      | _ :: _ => mret {| data := None; error := Some AlreadyExists |}
      end
  end.

(** ** The module *)

Definition BROADCAST_VIEWER_URL : jsstring :=
  js "https://marcoajello.github.io/skeduler-broadcast/".

(** The alphabet of [generateCode]: no I, O, 0, 1. *)
Definition chars : jsstring := js "ABCDEFGHJKLMNPQRSTUVWXYZ23456789".

Definition Math_random : M unitDouble := fun w =>
  (Normal (random w (drawn w)), with_drawn (S (drawn w)) w).

(** [Math.floor(r * n)]; for [n] a power of two, as the 32 of [chars.length]
    is, the product of the doubles is exact. *)
Definition Math_floor_times (r : unitDouble) (n : N) : N :=
  ((mantissa r mod 2 ^ exponent r) * n / 2 ^ exponent r)%N.

(** The loop of [generateCode], with [n] rounds to go. *)
Fixpoint generateCode_loop (n : nat) (code : jsstring) : M jsstring :=
  match n with
  | O => mret code
  | S n' =>
      r ← Math_random;
      generateCode_loop n'
        (code ++ charAt chars (Math_floor_times r (N.of_nat (length chars))))
  end.

Definition generateCode : M jsstring := generateCode_loop 6 [].

(** The double quote, which a string literal here cannot hold. *)
Definition dquote : jsstring := [34%N].

(** The style sheet of the snapshot, a constant. *)
Definition captureStyles : jsstring :=
  js "
      .broadcast-schedule {
        font-family: 'Avenir', 'Century Gothic', -apple-system, sans-serif;
        font-size: 12px;
        background: #fff;
        color: #000;
      }
      
      .broadcast-schedule table {
        width: 100%;
        border-collapse: collapse;
        table-layout: fixed;
      }
      
      .broadcast-schedule th,
      .broadcast-schedule td {
        padding: 8px 6px;
        text-align: left;
        vertical-align: middle;
        border: 1px solid #ddd;
      }
      
      .broadcast-schedule thead th {
        background: #f5f5f5;
        font-weight: 600;
        text-transform: uppercase;
        font-size: 11px;
        letter-spacing: 0.5px;
      }
      
      .broadcast-schedule tbody tr:nth-child(even) {
        background: #fafafa;
      }
      
      .broadcast-schedule .row-complete {
        opacity: 0.5;
      }
      
      .broadcast-schedule .row-complete td {
        text-decoration: line-through;
        text-decoration-color: #e53935;
      }
      
      .broadcast-schedule .event-row,
      .broadcast-schedule tr[data-type=" ++ dquote ++ js "EVENT" ++ dquote ++ js "] {
        background: #e3f2fd !important;
      }
      
      .broadcast-schedule .calltime-row,
      .broadcast-schedule tr[data-type=" ++ dquote ++ js "CALLTIME" ++ dquote ++ js "] {
        background: #e8f5e9 !important;
        font-weight: 600;
      }
      
      .broadcast-schedule img {
        max-width: 100px;
        max-height: 60px;
        object-fit: contain;
      }
      
      /* Preserve inline styles from cells */
      .broadcast-schedule [style] {
        /* Allow inline styles to override */
      }
    ".

(** [window.readState?.()?.cols || []]. *)
Definition cols_of (state : option editorState) : list columnSpec :=
  match state with
  | Some st => default [] (cols st)
  | None => []
  end.

(** The keys [captureTableHTML] hides: those of the columns not printed,
    then the control columns. *)
Definition hiddenCols (state : option editorState) : list jsstring :=
  (key <$> List.filter (fun c => negb (print c)) (cols_of state))
    ++ [js "drag"; js "sharpie"; js "actions"].

(** The value of a hexadecimal digit. *)
Definition hex_digit (c : N) : option N :=
  if in_ranges [(48, 57)%N] c then Some (c - 48)%N
  else if in_ranges [(65, 70)%N] c then Some (c - 55)%N
  else if in_ranges [(97, 102)%N] c then Some (c - 87)%N
  else None.

(** What the CSS tokenizer reads of a text: a line break of any kind is a
    line feed, and NUL and a surrogate on its own are U+FFFD. *)
Fixpoint css_input (s : jsstring) : jsstring :=
  match s with
  | [] => []
  | c :: rest =>
      if bool_decide (c = 13%N) then
        match rest with
        | d :: _ => if bool_decide (d = 10%N) then css_input rest else 10%N :: css_input rest
        | [] => [10%N]
        end
      else if bool_decide (c = 12%N) then 10%N :: css_input rest
      else if bool_decide (c = 0%N) then 65533%N :: css_input rest
      else if in_ranges [(55296, 56319)%N] c then
        match rest with
        | d :: rest' =>
            if in_ranges [(56320, 57343)%N] d then c :: d :: css_input rest'
            else 65533%N :: css_input rest
        | [] => [65533%N]
        end
      else if in_ranges [(56320, 57343)%N] c then 65533%N :: css_input rest
      else c :: css_input rest
  end.

(** A code point in UTF-16. *)
Definition utf16 (cp : N) : jsstring :=
  if (cp <? 65536)%N then [cp]
  else [ (55296 + (cp - 65536) / 1024)%N; (56320 + (cp - 65536) mod 1024)%N ].

(** The code point a hexadecimal escape stands for: U+FFFD for zero, for a
    surrogate and for a number beyond U+10FFFF. *)
Definition escaped_code_point (v : N) : jsstring :=
  if bool_decide (v = 0%N) || in_ranges [(55296, 57343)%N] v || (1114111 <? v)%N
  then [65533%N]
  else utf16 v.

(** Where the tokenizer is in a string: in its text, after a backslash, or in
    the digits of a hexadecimal escape, with their value and their number (at
    most six). *)
Inductive stringState :=
| in_text
| after_backslash
| in_escape (value : N) (digits : nat).

(** Tab, line feed and space. *)
Definition css_whitespace (c : N) : bool := bool_decide (c ∈ [9; 10; 32]%N).

(** One code unit of the text of a string: a double quote ends the string
    and a line feed breaks it ([None] for both), a backslash starts an
    escape, anything else is of the value. *)
Definition text_step (value : jsstring) (c : N) : option (stringState * jsstring) :=
  if bool_decide (c = 34%N) || bool_decide (c = 10%N) then None
  else if bool_decide (c = 92%N) then Some (after_backslash, value)
  else Some (in_text, value ++ [c]).

(** One code unit of a string: after a backslash a line feed is skipped, a
    hexadecimal digit starts a number and anything else stands for itself;
    the number of an escape ends after six digits or at the first code unit
    that is no digit, which is skipped when it is white space. *)
Definition string_step (st : stringState) (value : jsstring) (c : N)
    : option (stringState * jsstring) :=
  match st with
  | in_text => text_step value c
  | after_backslash =>
      if bool_decide (c = 10%N) then Some (in_text, value)
      else
        match hex_digit c with
        | Some d => Some (in_escape d 1, value)
        | None => Some (in_text, value ++ [c])
        end
  | in_escape v n =>
      match hex_digit c with
      | Some d =>
          if (n <? 6)%nat then Some (in_escape (16 * v + d) (S n), value)
          else text_step (value ++ escaped_code_point v) c
      | None =>
          if css_whitespace c then Some (in_text, value ++ escaped_code_point v)
          else text_step (value ++ escaped_code_point v) c
      end
  end.

(** The value of the string token that the double quote of
    [[data-key="${key}"]] opens, for what the tokenizer reads of [key]; after
    the key come the double quote and the bracket of the template. In the
    text of the string, and after the number of an escape, that double quote
    ends the string and the bracket ends the selector. After a backslash the
    double quote is escaped: the string runs over the bracket to the end of
    the text, where the string and the selector are closed. [None]: a line
    feed breaks the string, and the selector is not valid; a double quote of
    the key ends the string before the key does, and the rest of the key is
    read as more of the selector, which is valid only if that rest closes
    the bracket and leads to another open string: the embedding reads no
    selector of that kind, and takes the text as not valid. *)
Fixpoint string_token (st : stringState) (value : jsstring) (s : jsstring)
    : option jsstring :=
  match s with
  | [] =>
      match st with
      | in_text => Some value
      | after_backslash => Some (value ++ [34; 93]%N)
      | in_escape v _ => Some (value ++ escaped_code_point v)
      end
  | c :: rest =>
      match string_step st value c with
      | Some (st', value') => string_token st' value' rest
      | None => None
      end
  end.

(** What [[data-key="${key}"]] compares the attribute with, when the text is
    a selector. *)
Definition attribute_value (key : jsstring) : option jsstring :=
  string_token in_text [] (css_input key).

(** The selector with one descendant combinator,
    [ancestor tag[data-key="value"]]. *)
Definition keyed (ancestor tag value : jsstring) : selector :=
  [descendant_sel (type_sel ancestor) (type_attr_sel tag (js "data-key") value)].

(** The selector that [`${ancestor} ${tag}[data-key="${key}"]`] is, [None]
    when [querySelector] throws a [SyntaxError] for it. *)
Definition parse_keyed (ancestor tag key : jsstring) : option selector :=
  keyed ancestor tag <$> attribute_value key.

(** The body of [hiddenCols.forEach]. The style of the [col] serialises the
    width it is given, ['0'], as [0px]. *)
Definition hide (key : jsstring) (clone : node) : completion node :=
  match parse_keyed (js "colgroup") (js "col") key with
  | None => Throw SyntaxError
  | Some col =>
      let clone := forFirst col (setStyle (js "width") (js "0px")) clone in
      match parse_keyed (js "thead") (js "th") key with
      | None => Throw SyntaxError
      | Some th =>
          let clone := forFirst th (setStyle (js "display") (js "none")) clone in
          match parse_keyed (js "tbody") (js "td") key with
          | None => Throw SyntaxError
          | Some td => Normal (forAll td (setStyle (js "display") (js "none")) clone)
          end
      end
  end.

Fixpoint forEach_hide (keys : list jsstring) (clone : node) : completion node :=
  match keys with
  | [] => Normal clone
  | k :: keys' =>
      match hide k clone with
      | Normal clone' => forEach_hide keys' clone'
      | Throw e => Throw e
      end
  end.

(** ['button, input, .drag-cell, .sharpie, .actions-cell']. *)
Definition interactive : selector :=
  [ compound_sel (type_sel (js "button"));
    compound_sel (type_sel (js "input"));
    compound_sel (class_sel (js "drag-cell"));
    compound_sel (class_sel (js "sharpie"));
    compound_sel (class_sel (js "actions-cell")) ].

(** ['[draggable]']. *)
Definition draggable : selector := [compound_sel (attr_sel (js "draggable"))].

(** The clone of the table, once the columns are hidden and the controls
    removed (lines 49 to 72). *)
Definition prepare (state : option editorState) (clone : node) : completion node :=
  match forEach_hide (hiddenCols state) clone with
  | Normal clone =>
      let clone := removeAll interactive clone in
      Normal (forAll draggable (removeAttribute (js "draggable")) clone)
  | Throw e => Throw e
  end.

(** [captureTableHTML()]: [None] is the [null] it returns without a table. *)
Definition captureTableHTML : M (option snapshot) :=
  doc ← gets document;
  match document_querySelector [compound_sel (class_sel (js "schedule"))] doc with
  | None =>
      console_write (console_error [log_text (js "[Broadcast] No schedule table found")]);;
      mret None
  | Some table =>
      (* cloneNode(true): the clone is a value of its own *)
      let clone := table in
      state ← gets readState;
      match prepare state clone with
      | Normal clone =>
          let styles := captureStyles in
          mret (Some {| styles := styles; table := clone |})
      | Throw e => throw e
      end
  end.

(** [state.projectMeta?.title], for the [state] of [window.readState?.() || {}]. *)
Definition projectMeta_title (state : option editorState) : option jsstring :=
  match state with
  | Some st =>
      match projectMeta st with
      | Some m => meta_title m
      | None => None
      end
  | None => None
  end.

(** [options.title || state.projectMeta?.title || 'Schedule'] (line 175). *)
Definition resolveTitle (options : pushOptions) (state : option editorState) : jsstring :=
  js_or_literal (js_or (opt_title options) (projectMeta_title state)) (js "Schedule").

(** [const { data, error } = ...; if (error) throw error; currentBroadcast = data]. *)
Definition keep (r : response) : M unit :=
  match error r with
  | Some e => throw (Rethrown e)
  | None => modify (with_currentBroadcast (data r))
  end.

(** Lines 162 to 167: the user of the call, or the error thrown without one. *)
Definition authenticate : M user :=
  api ← gets auth;
  if negb (from_option isAuthenticated false api) then
    throw (Error (js "Not authenticated"))
  else
    match from_option getCurrentUser None api with
    | None => throw (Error (js "No user"))
    | Some user => mret user
    end.

(** Lines 180 to 192, "Check for existing broadcast": the cached record, or
    the [data] of a lookup by user and file name (its [error] is not read). *)
Definition existing (user : user) (fileName : jsstring) : M (option broadcast) :=
  cached ← gets currentBroadcast;
  match cached with
  | Some b => mret (Some b)
  | None => r ← select_single (user_id user) fileName; mret (data r)
  end.

(** Line 195, [broadcast?.code || generateCode()]. *)
Definition code_of (broadcast : option broadcast) : M jsstring :=
  match broadcast with
  | Some b => if truthy (b_code b) then mret (b_code b) else generateCode
  | None => generateCode
  end.

(** [`${user.id}/${fileName}.html`]. *)
Definition htmlPath (user : user) (fileName : jsstring) : jsstring :=
  user_id user ++ js "/" ++ fileName ++ js ".html".

(** Lines 198 to 210, "Save HTML to storage": delete, then upload. *)
Definition save (path : jsstring) (html : snapshot) : M unit :=
  try_catch (storage_remove [path]) (fun _ => mret tt);;
  uploadError ← storage_upload path html;
  match uploadError with
  | Some e => throw (Rethrown e)
  | None => mret tt
  end.

(** Lines 213 to 244, "Create or update broadcast record". *)
Definition record (options : pushOptions) (broadcast : option broadcast)
    (code : jsstring) (user : user) (fileName title : jsstring) : M unit :=
  match broadcast with
  | Some b =>
      now ← gets clock;
      r ← update_single (b_id b) title
            (default (b_auto_update b) (opt_autoUpdate options)) now;
      keep r
  | None =>
      r ← insert_single code (user_id user) fileName title
            (default false (opt_autoUpdate options));
      keep r
  end.

(** Lines 246 to 252: the log line and the result, read off
    [currentBroadcast]. *)
Definition result (title : jsstring) : M pushResult :=
  current ← gets currentBroadcast;
  match current with
  | None => throw TypeError
  | Some current =>
      console_write
        (console_log [log_text (js "[Broadcast] Pushed successfully:");
                      log_text (b_code current)]);;
      mret {| code := b_code current;
              url := BROADCAST_VIEWER_URL ++ js "?c=" ++ b_code current;
              title := title |}
  end.

(** What [pushBroadcast] does for an authenticated user (from line 169 on). *)
Definition publish (options : pushOptions) (user : user) : M pushResult :=
  html ← captureTableHTML;
  match html with
  | None => throw (Error (js "Could not capture table"))
  | Some html =>
      state ← gets readState;
      let title := resolveTitle options state in
      let fileName := deriveFileName title in
      broadcast ← existing user fileName;
      code ← code_of broadcast;
      save (htmlPath user fileName) html;;
      record options broadcast code user fileName title;;
      result title
  end.

(** [pushBroadcast(options)]; its first step is ghost, the note of the call
    in [pushes]. *)
Definition pushBroadcast (options : pushOptions) : M pushResult :=
  modify (fun w => with_pushes (pushes w ++ [options]) w);;
  user ← authenticate;
  publish options user.

(** [promise.catch(handler)], the promise run to its end. *)
Definition promise_catch {A : Type} (promise : M A) (handler : exn -> M unit) : M unit :=
  fun w =>
    match promise w with
    | (Normal _, w') => (Normal tt, w')
    | (Throw e, w') => handler e w'
    end.

(** [hookAutoBroadcast()], called after a successful cloud push. *)
Definition hookAutoBroadcast : M unit :=
  enabled ← gets autoBroadcast;
  if enabled : bool then
    console_write (console_log [log_text (js "[Broadcast] Auto-broadcasting...")]);;
    promise_catch
      (pushBroadcast {| opt_title := None; opt_autoUpdate := Some true |})
      (fun err =>
         console_write
           (console_error [log_text (js "[Broadcast] Auto-broadcast failed:"); log_exn err]))
  else mret tt.

(** ** The page around the module *)

(** The functions of the module that read and write the setting: they reach
    [localStorage] and the state of the document besides the world. The
    dialog ([showBroadcastDialog]) is not embedded, but for the handler of
    its check box. *)

Definition with_autoBroadcast (flag : bool) (w : world) : world :=
  {| auth := auth w; remote := remote w; document := document w; readState := readState w;
     random := random w; drawn := drawn w; clock := clock w;
     currentBroadcast := currentBroadcast w; autoBroadcast := flag;
     console := console w; calls := calls w; pushes := pushes w |}.

(** What the document keeps for [DOMContentLoaded]: the module registers its
    [init]. *)
Inductive listener := init_listener.

(** The world and what the rest of the module reaches: the settings of
    [localStorage] (a storage that can be read and written),
    [document.readyState], the listeners of [DOMContentLoaded], and whether
    [window.BroadcastManager] is set. *)
Record browser := {
  window : world;
  localStorage : gmap jsstring jsstring;
  readyState : jsstring;
  listeners : list listener;
  BroadcastManager : bool
}.

Definition with_window (w : world) (b : browser) : browser :=
  {| window := w; localStorage := localStorage b; readyState := readyState b;
     listeners := listeners b; BroadcastManager := BroadcastManager b |}.

Definition with_localStorage (s : gmap jsstring jsstring) (b : browser) : browser :=
  {| window := window b; localStorage := s; readyState := readyState b;
     listeners := listeners b; BroadcastManager := BroadcastManager b |}.

Definition with_readyState (s : jsstring) (b : browser) : browser :=
  {| window := window b; localStorage := localStorage b; readyState := s;
     listeners := listeners b; BroadcastManager := BroadcastManager b |}.

Definition with_listeners (l : list listener) (b : browser) : browser :=
  {| window := window b; localStorage := localStorage b; readyState := readyState b;
     listeners := l; BroadcastManager := BroadcastManager b |}.

Definition with_BroadcastManager (x : bool) (b : browser) : browser :=
  {| window := window b; localStorage := localStorage b; readyState := readyState b;
     listeners := listeners b; BroadcastManager := x |}.

(** A computation in the page. *)
Definition Page (A : Type) : Type := browser -> completion A * browser.

#[global] Instance Page_ret : MRet Page := fun A a b => (Normal a, b).

#[global] Instance Page_bind : MBind Page := fun A C f m b =>
  match m b with
  | (Normal a, b') => f a b'
  | (Throw e, b') => (Throw e, b')
  end.

(** A function of the module, run in the page. *)
Definition lift {A : Type} (m : M A) : Page A := fun b =>
  let (c, w) := m (window b) in (c, with_window w b).

Definition page_gets {A : Type} (f : browser -> A) : Page A := fun b => (Normal (f b), b).

Definition page_modify (f : browser -> browser) : Page unit := fun b => (Normal tt, f b).

Definition localStorage_getItem (k : jsstring) : Page (option jsstring) :=
  page_gets (fun b => localStorage b !! k).

Definition localStorage_setItem (k v : jsstring) : Page unit :=
  page_modify (fun b => with_localStorage (<[k := v]> (localStorage b)) b).

(** [String(v)] of a boolean, which is what [setItem] stores of one and what
    the console prints of one. *)
Definition ToString (v : bool) : jsstring := if v then js "true" else js "false".

(** [init()] (lines 465 to 470). *)
Definition init : Page unit :=
  stored ← localStorage_getItem (js "broadcastAutoUpdate");
  let flag := bool_decide (stored = Some (js "true")) in
  lift (modify (with_autoBroadcast flag));;
  lift (console_write
          (console_log [log_text (js "[Broadcast] Manager initialized, auto-update:");
                        log_text (ToString flag)])).

(** [isAutoEnabled: () => autoBroadcast]. *)
Definition isAutoEnabled : Page bool := lift (gets autoBroadcast).

(** [setAutoEnabled: (val) => { ... }] (lines 498 to 501), for a boolean
    [val]. *)
Definition setAutoEnabled (val : bool) : Page unit :=
  lift (modify (with_autoBroadcast val));;
  localStorage_setItem (js "broadcastAutoUpdate") (ToString val).

(** The [onchange] of the check box of the dialog (lines 436 to 439), given
    [e.target.checked]. *)
Definition broadcastAutoUpdate_onchange (checked : bool) : Page unit :=
  lift (modify (with_autoBroadcast checked));;
  flag ← lift (gets autoBroadcast);
  localStorage_setItem (js "broadcastAutoUpdate") (ToString flag).

(** The body of the module, run when the script is loaded: the two variables
    (lines 13 and 14), [init] now or when the document is parsed (lines 486
    to 490), and the export (line 493). *)
Definition load : Page unit :=
  lift (modify (with_currentBroadcast None));;
  lift (modify (with_autoBroadcast false));;
  state ← page_gets readyState;
  (if bool_decide (state = js "loading") then
     page_modify (fun b => with_listeners (listeners b ++ [init_listener]) b)
   else init);;
  page_modify (with_BroadcastManager true).

Definition handleEvent (l : listener) : Page unit :=
  match l with
  | init_listener => init
  end.

(** What the browser does once the document is parsed: the document is no
    longer loading, and the listeners of [DOMContentLoaded] run in the order
    they were added. *)
Definition DOMContentLoaded : Page unit :=
  page_modify (fun b =>
    foldl (fun b l => (handleEvent l b).2) (with_readyState (js "interactive") b)
      (listeners b)).

(** ** The vocabulary of the specification *)

(** The spec's names (section 7) for what [pushBroadcast] rejects with. The
    source has no error classes: an [AuthError] is one of the two errors of
    lines 163 and 167, a [CaptureError] the error of line 171, a [StoreError]
    an error object of the store. *)
Inductive failure := AuthError | CaptureError | StoreError | OtherError.

Definition failure_of (e : exn) : failure :=
  match e with
  | Error m =>
      if bool_decide (m = js "Not authenticated") || bool_decide (m = js "No user")
      then AuthError
      else if bool_decide (m = js "Could not capture table") then CaptureError
      else OtherError
  | Rethrown _ => StoreError
  | SyntaxError | TypeError => OtherError
  end.

(** The authenticated identity of a world, if it has one. *)
Definition identity (w : world) : option user :=
  match auth w with
  | Some api => if isAuthenticated api then getCurrentUser api else None
  | None => None
  end.

(** The rows of the [broadcasts] table. *)
Definition rows (w : world) : list broadcast := broadcasts (remote w).

(** The invariant of section 3: at most one record per owner and file name. *)
Definition one_per_file (table : list broadcast) : Prop :=
  forall uid fileName, (length (rows_of uid fileName table) <= 1)%nat.

(** The code units of [A-Za-z0-9]. *)
Definition alphanumeric (c : N) : Prop :=
  (65 <= c <= 90 \/ 97 <= c <= 122 \/ 48 <= c <= 57)%N.

(** The control columns, hidden whatever the configuration says. *)
Definition control_columns : list jsstring := [js "drag"; js "sharpie"; js "actions"].

(** The stored bodies of the [schedule-files] bucket. *)
Definition files (w : world) : gmap jsstring snapshot := schedule_files (remote w).

(** The request about to be sent does not reach the store. *)
Definition down (w : world) : Prop :=
  exists status rest, outages (remote w) = Some status :: rest.

(** What [existing] finds, and the requests it sends for it: the cached
    record without a request, otherwise the one row of the user and file name
    if the lookup gets through and there is exactly one. *)
Inductive lookup (w : world) (u : user) (f : jsstring)
    : list request -> option broadcast -> Prop :=
| lookup_cached b :
    currentBroadcast w = Some b ->
    lookup w u f [] (Some b)
| lookup_found b :
    currentBroadcast w = None ->
    ~ down w ->
    rows_of (user_id u) f (rows w) = [b] ->
    lookup w u f [select_request (user_id u) f] (Some b)
| lookup_missed :
    currentBroadcast w = None ->
    down w \/ (forall b, rows_of (user_id u) f (rows w) <> [b]) ->
    lookup w u f [select_request (user_id u) f] None.

(** What [record] writes for the record found: the new record, the table
    after, and the request sent. *)
Inductive saved (o : pushOptions) (u : user) (f t : jsstring) (w : world)
    : option broadcast -> broadcast -> list broadcast -> request -> Prop :=
| saved_update b b0 :
    rows_with (b_id b) (rows w) = [b0] ->
    let d := updated t (default (b_auto_update b) (opt_autoUpdate o)) (clock w) b0 in
    saved o u f t w (Some b) d
      ((fun r => if bool_decide (b_id r = b_id b) then d else r) <$> rows w)
      (update_request (b_id b))
| saved_insert generated :
    let d := {| b_id := fresh_id (rows w); b_code := generated;
                b_user_id := user_id u; b_file_name := f; b_title := t;
                b_auto_update := default false (opt_autoUpdate o);
                b_updated_at := clock w |} in
    saved o u f t w None d (rows w ++ [d]) (insert_request generated).

(** What a run of [pushBroadcast] that returns [r] has done. *)
Inductive published (o : pushOptions) (w : world) (r : pushResult) (w' : world) : Prop :=
| published_intro u html asked found d request :
    identity w = Some u ->
    (captureTableHTML w).1 = Normal (Some html) ->
    title r = resolveTitle o (readState w) ->
    let f := deriveFileName (title r) in
    lookup w u f asked found ->
    saved o u f (title r) w found d (rows w') request ->
    calls w'
    = calls w ++ asked
        ++ [remove_request [htmlPath u f]; upload_request (htmlPath u f); request] ->
    files w' = <[htmlPath u f := html]> (files w) ->
    currentBroadcast w' = Some d ->
    code r = b_code d ->
    url r = BROADCAST_VIEWER_URL ++ js "?c=" ++ b_code d ->
    published o w r w'.

(** [m] takes every world to one that [R] relates to it, whether it returns
    or throws. *)
Definition respects {A : Type} (R : relation world) (m : M A) : Prop :=
  forall w, R w (m w).2.

(** The worlds that agree on an observation. *)
Definition same {B : Type} (f : world -> B) : relation world :=
  fun w w' => f w' = f w.

(** What the module never changes: the page, the editor, the user, the
    clock and the auto-broadcast flag. *)
Definition surroundings (w : world) :=
  (auth w, document w, readState w, clock w, autoBroadcast w).

(** The state of the publication: the store, the cached record and the
    requests sent. *)
Definition publication (w : world) :=
  (rows w, files w, currentBroadcast w, calls w).

(** The matches of a selector below a node whose ancestors are given. *)
Definition below (sel : selector) (ancestors : list element) (n : node) : list node :=
  match n with
  | Text _ => []
  | Element e kids => flat_map (matching sel (e :: ancestors)) kids
  end.

(** A selector without a combinator. *)
Definition shallow (sel : selector) : Prop :=
  Forall (fun x => exists c, x = compound_sel c) sel.

(** The elements of a tree, in document order. *)
Fixpoint elements (n : node) : list element :=
  match n with
  | Text _ => []
  | Element e kids => e :: flat_map elements kids
  end.

(** The elements below the root of a tree. *)
Definition descendants (n : node) : list element :=
  match n with
  | Text _ => []
  | Element _ kids => flat_map elements kids
  end.

(** What [f] makes of an element, touched when it matches. *)
Definition touched (sel : selector) (f : element -> element) (e : element) : element :=
  if matches sel [] e then f e else e.

(** [el.style[property]], if the element declares it. *)
Definition getStyle (property : jsstring) (e : element) : option jsstring :=
  snd <$> List.find (fun d => bool_decide (fst d = property)) (style e).

(** A property of the element at the root of a node. *)
Definition at_root (P : element -> Prop) (n : node) : Prop :=
  match n with
  | Text _ => True
  | Element e _ => P e
  end.

(** A list with some of its members dropped and the others related. *)
Inductive thinned {A B : Type} (P : A -> B -> Prop) : list A -> list B -> Prop :=
| thinned_nil : thinned P [] []
| thinned_drop x l l' : thinned P l l' -> thinned P (x :: l) l'
| thinned_keep x y l l' : P x y -> thinned P l l' -> thinned P (x :: l) (y :: l').

(** A tree that comes from another: subtrees dropped, the elements that stay
    related by [R], the text as it was. *)
Inductive derived (R : element -> element -> Prop) : node -> node -> Prop :=
| derived_text data : derived R (Text data) (Text data)
| derived_element e e' kids kids' :
    R e e' -> thinned (derived R) kids kids' ->
    derived R (Element e kids) (Element e' kids').

(** The [display: none] of an element. *)
Definition display_none (e : element) : Prop :=
  getStyle (js "display") e = Some (js "none").

(** The [width: 0px] of an element. *)
Definition no_width (e : element) : Prop :=
  getStyle (js "width") e = Some (js "0px").

(** What the capture keeps of an element, given the keys whose columns are
    hidden: the tag, the classes and every attribute but [draggable]; every
    style declaration but those of [display] and [width]; a [display: none]
    and a [width: 0px]; and the whole inline style unless the [data-key] of
    the element is a hidden key. *)
Definition kept (hidden : jsstring -> Prop) (e e' : element) : Prop :=
  tagName e' = tagName e
  /\ classList e' = classList e
  /\ (forall a, a <> js "draggable" -> getAttribute a e' = getAttribute a e)
  /\ (forall p, p <> js "display" -> p <> js "width" -> getStyle p e' = getStyle p e)
  /\ (display_none e -> display_none e')
  /\ (no_width e -> no_width e')
  /\ ((forall k, getAttribute (js "data-key") e = Some k -> ~ hidden k) ->
      style e' = style e).

(** Whether the surrogates of a string come in pairs. *)
Fixpoint paired (s : jsstring) : bool :=
  match s with
  | [] => true
  | c :: rest =>
      if in_ranges [(55296, 56319)%N] c then
        match rest with
        | d :: rest' => in_ranges [(56320, 57343)%N] d && paired rest'
        | [] => false
        end
      else negb (in_ranges [(56320, 57343)%N] c) && paired rest
  end.

(** A key that a selector can hold between double quotes as it is: it has no
    double quote, backslash, line break or NUL, and no surrogate on its
    own. *)
Definition plain (key : jsstring) : bool :=
  forallb (fun c => negb (bool_decide (c ∈ [0; 10; 12; 13; 34; 92]%N))) key
  && paired key.

(** What [hide] does to the clone for a key whose selectors compare the
    attribute with [value]: the first [col] gets no width, the first header
    cell and every body cell are not displayed. *)
Definition conceal (value : jsstring) (clone : node) : node :=
  forAll (keyed (js "tbody") (js "td") value) (setStyle (js "display") (js "none"))
    (forFirst (keyed (js "thead") (js "th") value) (setStyle (js "display") (js "none"))
       (forFirst (keyed (js "colgroup") (js "col") value) (setStyle (js "width") (js "0px"))
          clone)).

(** The clone once [hide] has returned for every key of a list, given the
    values of the keys. *)
Definition conceal_all (values : list jsstring) (clone : node) : node :=
  fold_left (fun clone value => conceal value clone) values clone.

(** The keys whose columns the specification suppresses: those of the
    built-in exclusion set, and the key of every column of the configuration
    whose [print] flag is false. *)
Definition suppressed (state : option editorState) (k : jsstring) : Prop :=
  k ∈ control_columns
  \/ exists st cs c,
       state = Some st /\ cols st = Some cs /\ c ∈ cs /\ key c = k /\ print c = false.

(** A column configuration that is missing ([readState] is, or what it
    returns, or its [cols]) or empty. *)
Definition unconfigured (state : option editorState) : Prop :=
  state = None
  \/ (exists m, state = Some {| cols := None; projectMeta := m |})
  \/ (exists m, state = Some {| cols := Some []; projectMeta := m |}).

(** A control: a button, an input, a drag marker, the annotation tool or the
    actions of a row. *)
Definition control (e : element) : bool :=
  bool_decide (tagName e ∈ [js "button"; js "input"])
  || existsb (fun c => bool_decide (c ∈ [js "drag-cell"; js "sharpie"; js "actions-cell"]))
       (classList e).

(** The elements of a tree that are no controls and in none, in document
    order. *)
Fixpoint uncontrolled (n : node) : list element :=
  match n with
  | Text _ => []
  | Element e kids => if control e then [] else e :: flat_map uncontrolled kids
  end.

(** The root of a tree, and the elements below it that are no controls and
    in none. *)
Definition outside_controls (n : node) : list element :=
  match n with
  | Text _ => []
  | Element e kids => e :: flat_map uncontrolled kids
  end.

(** The elements of a tree in document order, each with the elements above
    it, the nearest first. *)
Fixpoint placed (ancestors : list element) (n : node) : list (list element * element) :=
  match n with
  | Text _ => []
  | Element e kids => (ancestors, e) :: flat_map (placed (e :: ancestors)) kids
  end.

(** A cell of a column: an element [tag] with the key of the column as its
    [data-key], somewhere in an element [section] ([col] in [colgroup], [th]
    in [thead], [td] in [tbody]). *)
Definition is_cell (section tag key : jsstring) (p : list element * element) : bool :=
  bool_decide (tagName p.2 = tag)
  && bool_decide (getAttribute (js "data-key") p.2 = Some key)
  && existsb (fun a => bool_decide (tagName a = section)) p.1.

(** The cells of a column in a tree. *)
Definition cells (section tag key : jsstring) (n : node) : list element :=
  snd <$> List.filter (is_cell section tag key) (placed [] n).

(** The id and the code of a row. *)
Definition id_code (b : broadcast) : N * jsstring := (b_id b, b_code b).

(** The ids and codes of the table before are those of its first rows
    after. *)
Definition codes_kept : relation world :=
  fun w w' => (id_code <$> rows w) `prefix_of` (id_code <$> rows w').

(** The lookup of a publication: by user and file name, and none when a
    record is cached. *)
Definition lookup_requests (w : world) (u : user) (f : jsstring) : list request :=
  match currentBroadcast w with
  | Some _ => []
  | None => [select_request (user_id u) f]
  end.

(** A write of a record: an update or an insert. *)
Definition is_write (r : request) : bool :=
  match r with
  | update_request _ | insert_request _ => true
  | select_request _ _ | remove_request _ | upload_request _ => false
  end.

(** How many random numbers the code for a record found takes: none when
    the record has a code, six for a code to generate. *)
Definition draws (found : option broadcast) : nat :=
  match found with
  | Some b => if truthy (b_code b) then 0 else 6
  | None => 6
  end.

(** The outages left for the requests that follow the lookup of a
    publication: the lookup, sent unless a record is cached, takes the
    first. *)
Definition outages_after_lookup (w : world) : list (option N) :=
  match currentBroadcast w with
  | Some _ => outages (remote w)
  | None => tail (outages (remote w))
  end.


(** A tree that is another but for its elements, which [R] relates one by
    one: the same shape and the same text. *)
Inductive restyled (R : element -> element -> Prop) : node -> node -> Prop :=
| restyled_text data : restyled R (Text data) (Text data)
| restyled_element e e' kids kids' :
    R e e' -> Forall2 (restyled R) kids kids' ->
    restyled R (Element e kids) (Element e' kids').

(** A run of [pushBroadcast] that throws: where it stopped. *)
Inductive rejected (o : pushOptions) (w : world) (e : exn) (w' : world) : Prop :=
| rejected_identity :
    identity w = None -> failure_of e = AuthError ->
    calls w' = calls w -> remote w' = remote w -> console w' = console w ->
    rejected o w e w'
| rejected_capture u :
    identity w = Some u ->
    (captureTableHTML w).1 = Normal None -> failure_of e = CaptureError ->
    calls w' = calls w -> remote w' = remote w ->
    rejected o w e w'
| rejected_selector u :
    identity w = Some u ->
    (captureTableHTML w).1 = Throw SyntaxError -> e = SyntaxError ->
    calls w' = calls w -> remote w' = remote w -> console w' = console w ->
    rejected o w e w'
| rejected_upload u html asked found se :
    identity w = Some u ->
    (captureTableHTML w).1 = Normal (Some html) ->
    let f := deriveFileName (resolveTitle o (readState w)) in
    lookup w u f asked found ->
    e = Rethrown se ->
    calls w' = calls w ++ asked ++ [remove_request [htmlPath u f]; upload_request (htmlPath u f)] ->
    console w' = console w ->
    rejected o w e w'
| rejected_write u html asked found se request :
    identity w = Some u ->
    (captureTableHTML w).1 = Normal (Some html) ->
    let f := deriveFileName (resolveTitle o (readState w)) in
    lookup w u f asked found ->
    e = Rethrown se ->
    match found with
    | Some b => request = update_request (b_id b)
    | None => exists c, request = insert_request c
    end ->
    calls w'
    = calls w ++ asked
        ++ [remove_request [htmlPath u f]; upload_request (htmlPath u f); request] ->
    files w' = <[htmlPath u f := html]> (files w) ->
    console w' = console w ->
    rejected o w e w'.

(** ** A studio: worlds to run the module in *)

(** What a normal completion returned. *)
Definition returned {A : Type} (c : completion A) : option A :=
  match c with
  | Normal a => Some a
  | Throw _ => None
  end.

(** What an abrupt completion threw. *)
Definition thrown {A : Type} (c : completion A) : option exn :=
  match c with
  | Normal _ => None
  | Throw e => Some e
  end.

(** An element without style, from its tag, classes and attributes. *)
Definition el (tag : string) (classes : list string) (attrs : list (string * string))
    : element :=
  {| tagName := js tag; classList := js <$> classes; style := [];
     attributes := (fun p => (js (fst p), js (snd p))) <$> attrs |}.

Definition an_element (tag : string) (classes : list string)
    (attrs : list (string * string)) (kids : list node) : node :=
  Element (el tag classes attrs) kids.

(** A schedule of one row: a drag handle, a name and a button; the table
    itself and its row can be dragged. *)
Definition schedule_table : node :=
  an_element "table" ["schedule"%string] [("draggable", "true")%string]
    [ an_element "colgroup" [] []
        [ an_element "col" [] [("data-key", "drag")%string] [];
          an_element "col" [] [("data-key", "name")%string] [];
          an_element "col" [] [("data-key", "notes")%string] [] ];
      an_element "thead" [] []
        [ an_element "tr" [] []
            [ an_element "th" [] [("data-key", "drag")%string] [];
              an_element "th" [] [("data-key", "name")%string] [Text (js "Name")];
              an_element "th" [] [("data-key", "notes")%string] [Text (js "Notes")] ] ];
      an_element "tbody" [] []
        [ an_element "tr" [] [("draggable", "true")%string]
            [ an_element "td" ["drag-cell"%string] [("data-key", "drag")%string] [];
              an_element "td" [] [("data-key", "name")%string]
                [ Text (js "Load in");
                  an_element "button" [] [] [Text (js "x")] ];
              an_element "td" [] [("data-key", "notes")%string]
                [ an_element "input" [] [("value", "dock B")%string] [] ] ] ] ].

Definition page (body : list node) : node :=
  an_element "html" [] [] [an_element "body" [] [] body].

(** The editor: the notes are not printed, the project is "Q1 Launch!". *)
Definition editor : editorState :=
  {| cols := Some [ {| key := js "name"; print := true |};
                    {| key := js "notes"; print := false |} ];
     projectMeta := Some {| meta_title := Some (js "Q1 Launch!") |} |}.

Definition signed_in : authProvider :=
  {| isAuthenticated := true; getCurrentUser := Some {| user_id := js "u1" |} |}.

(** A world from what varies in the examples; its random numbers come round
    every six draws, its store is empty and never down. *)
Definition a_world (who : option authProvider) (doc : node) (state : option editorState)
    (flag : bool) : world :=
  {| auth := who;
     remote := {| broadcasts := []; schedule_files := ∅; outages := [] |};
     document := doc;
     readState := state;
     random := fun n => {| mantissa := N.of_nat (37 * (n mod 6) + 5); exponent := 8 |};
     drawn := 0;
     clock := 1000;
     currentBroadcast := None;
     autoBroadcast := flag;
     console := [];
     calls := [];
     pushes := [] |}.

Definition studio : world := a_world (Some signed_in) (page [schedule_table]) (Some editor) true.

(** The studio where [Math.random()] returns [r] at every draw. *)
Definition drawing (r : unitDouble) : world :=
  {| auth := auth studio; remote := remote studio; document := document studio;
     readState := readState studio; random := fun _ => r; drawn := 0;
     clock := clock studio; currentBroadcast := None; autoBroadcast := true;
     console := []; calls := []; pushes := [] |}.

(** A schedule with two header rows. *)
Definition two_headers_table : node :=
  an_element "table" ["schedule"%string] []
    [ an_element "colgroup" [] []
        [ an_element "col" [] [("data-key", "name")%string] [];
          an_element "col" [] [("data-key", "notes")%string] [] ];
      an_element "thead" [] []
        [ an_element "tr" [] []
            [ an_element "th" [] [("data-key", "name")%string] [Text (js "Name")];
              an_element "th" [] [("data-key", "notes")%string] [Text (js "Notes")] ];
          an_element "tr" [] []
            [ an_element "th" [] [("data-key", "name")%string] [Text (js "Who")];
              an_element "th" [] [("data-key", "notes")%string] [Text (js "Remarks")] ] ];
      an_element "tbody" [] []
        [ an_element "tr" [] []
            [ an_element "td" [] [("data-key", "name")%string] [Text (js "Load in")];
              an_element "td" [] [("data-key", "notes")%string] [Text (js "dock B")] ] ] ].

(** The studio with that schedule. *)
Definition rehearsal : world :=
  a_world (Some signed_in) (page [two_headers_table]) (Some editor) true.

(** A schedule with a column whose key holds a backslash, and a column whose
    key is an [a] and the code unit 11. *)
Definition escaped_table : node :=
  an_element "table" ["schedule"%string] []
    [ an_element "tbody" [] []
        [ an_element "tr" [] []
            [ an_element "td" [] [("data-key", "a\b")%string] [Text (js "one")];
              Element {| tagName := js "td"; classList := []; style := [];
                         attributes := [(js "data-key", [97; 11]%N)] |}
                [Text (js "two")] ] ] ].

(** The studio with that schedule, where the column with the backslash is
    not printed. *)
Definition escaped : world :=
  a_world (Some signed_in) (page [escaped_table])
    (Some {| cols := Some [ {| key := js "a\b"; print := false |};
                            {| key := [97; 11]%N; print := true |} ];
             projectMeta := None |})
    true.


(** The page reloaded: the module's variable is back to [null]. *)
Definition reloaded (w : world) : world := with_currentBroadcast None w.

Definition untitled : pushOptions := {| opt_title := None; opt_autoUpdate := None |}.

Definition titled (t : string) : pushOptions :=
  {| opt_title := Some (js t); opt_autoUpdate := None |}.

(** The world where the requests to come fail as [os] says. *)
Definition with_outages (os : list (option N)) (w : world) : world :=
  with_remote {| broadcasts := broadcasts (remote w);
                 schedule_files := schedule_files (remote w);
                 outages := os |} w.

(** The table emptied behind the module's back. *)
Definition emptied (w : world) : world :=
  with_remote {| broadcasts := [];
                 schedule_files := schedule_files (remote w);
                 outages := outages (remote w) |} w.

(** A new page in the same browser: the document in the state given, no
    listener, no export; the settings stay. *)
Definition navigated (state : jsstring) (b : browser) : browser :=
  {| window := window b; localStorage := localStorage b; readyState := state;
     listeners := []; BroadcastManager := false |}.

(** The world at another time. *)
Definition with_clock (t : N) (w : world) : world :=
  {| auth := auth w; remote := remote w; document := document w; readState := readState w;
     random := random w; drawn := drawn w; clock := t;
     currentBroadcast := currentBroadcast w; autoBroadcast := autoBroadcast w;
     console := console w; calls := calls w; pushes := pushes w |}.

(** A record with another time of update, and nothing else changed. *)
Definition touched_at (t : N) (b : broadcast) : broadcast :=
  updated (b_title b) (b_auto_update b) t b.

(** * Properties *)

(** ** File names *)

Lemma in_ranges_alnum c : in_ranges alnum c = true <-> alphanumeric c.
Proof.
  unfold in_ranges, alnum, alphanumeric; simpl.
  rewrite !orb_true_iff, !andb_true_iff, !N.leb_le. intuition lia.
Qed.

Lemma non_alnum_true c : ~ alphanumeric c -> non_alnum c = true.
Proof.
  intros H. unfold non_alnum. apply negb_true_iff.
  destruct (in_ranges alnum c) eqn:E; [|reflexivity].
  apply in_ranges_alnum in E. contradiction.
Qed.

Lemma non_alnum_false c : alphanumeric c -> non_alnum c = false.
Proof.
  intros H. unfold non_alnum. apply negb_false_iff. now apply in_ranges_alnum.
Qed.

(** One code unit of the title gives one code unit of the file name. *)
Lemma deriveFileName_cons c title :
  deriveFileName (c :: title)
  = (if non_alnum c then 95%N else c) :: deriveFileName title.
Proof.
  unfold deriveFileName, replace_global; simpl. now destruct (non_alnum c).
Qed.

Lemma deriveFileName_lookup title : forall i c,
  title !! i = Some c ->
  deriveFileName title !! i = Some (if non_alnum c then 95%N else c).
Proof.
  induction title as [|d title IH]; intros i c H; [discriminate|].
  rewrite deriveFileName_cons. destruct i as [|i]; simpl in *.
  - now inversion H.
  - now apply IH.
Qed.

Lemma deriveFileName_length title : length (deriveFileName title) = length title.
Proof.
  induction title as [|c title IH]; [reflexivity|].
  rewrite deriveFileName_cons; simpl. now rewrite IH.
Qed.

(** ** Running a computation *)

Lemma bind_run {A B : Type} (m : M A) (f : A -> M B) w :
  (m ≫= f) w
  = match m w with
    | (Normal a, w') => f a w'
    | (Throw e, w') => (Throw e, w')
    end.
Proof. reflexivity. Qed.

(** A sequence that returns has returned at every step. *)
Lemma bind_Normal {A B : Type} (m : M A) (f : A -> M B) w b w' :
  (m ≫= f) w = (Normal b, w') ->
  exists a w1, m w = (Normal a, w1) /\ f a w1 = (Normal b, w').
Proof.
  rewrite bind_run. destruct (m w) as [[a|e] w1]; [eauto | discriminate].
Qed.

(** ** Frames: what a computation leaves as it is *)

#[global] Instance same_preorder {B : Type} (f : world -> B) : PreOrder (same f).
Proof.
  split; [intros w; reflexivity|].
  intros w1 w2 w3 H12 H23. unfold same in *. congruence.
Qed.

Section frames.
Context (R : relation world) `{!PreOrder R}.

Lemma respects_ret {A : Type} (a : A) : respects R (mret a).
Proof. intros w. reflexivity. Qed.

Lemma respects_throw {A : Type} e : respects R (@throw A e).
Proof. intros w. reflexivity. Qed.

Lemma respects_gets {A : Type} (f : world -> A) : respects R (gets f).
Proof. intros w. reflexivity. Qed.

Lemma respects_modify (g : world -> world) :
  (forall w, R w (g w)) -> respects R (modify g).
Proof. intros H w. apply H. Qed.

Lemma respects_bind {A B : Type} (m : M A) (f : A -> M B) :
  respects R m -> (forall a, respects R (f a)) -> respects R (m ≫= f).
Proof.
  intros Hm Hf w. rewrite bind_run. specialize (Hm w).
  destruct (m w) as [[a|e] w1]; simpl in *; [|assumption].
  transitivity w1; [assumption | apply Hf].
Qed.

Lemma respects_try_catch {A : Type} (m : M A) (h : exn -> M A) :
  respects R m -> (forall e, respects R (h e)) -> respects R (try_catch m h).
Proof.
  intros Hm Hh w. unfold try_catch. specialize (Hm w).
  destruct (m w) as [[a|e] w1]; simpl in *; [assumption|].
  transitivity w1; [assumption | apply Hh].
Qed.

Lemma respects_promise_catch {A : Type} (m : M A) (h : exn -> M unit) :
  respects R m -> (forall e, respects R (h e)) -> respects R (promise_catch m h).
Proof.
  intros Hm Hh w. unfold promise_catch. specialize (Hm w).
  destruct (m w) as [[a|e] w1]; simpl in *; [assumption|].
  transitivity w1; [assumption | apply Hh].
Qed.
End frames.

Section store_frames.
Context (R : relation world) `{!PreOrder R}.

Lemma respects_outage :
  (forall w rest,
     R w (with_remote {| broadcasts := broadcasts (remote w);
                         schedule_files := schedule_files (remote w);
                         outages := rest |} w)) ->
  respects R outage.
Proof.
  intros H w. unfold outage. destruct (outages (remote w)); [reflexivity | apply H].
Qed.

Lemma respects_Math_random :
  (forall w n, R w (with_drawn n w)) -> respects R Math_random.
Proof. intros H w. apply H. Qed.

Lemma respects_generateCode_loop n :
  (forall w k, R w (with_drawn k w)) ->
  forall code, respects R (generateCode_loop n code).
Proof.
  intros H. induction n as [|n IH]; intros code; simpl.
  - apply respects_ret; assumption.
  - apply respects_bind; [assumption | | intros r; apply IH].
    now apply respects_Math_random.
Qed.
End store_frames.

(** The steps a frame is proved along: the structure of the computation, a
    case for every [match], and a side condition on each change of the world
    that [tac] settles; [frames] holds the frames of the steps proved on
    their own. *)
Create HintDb frames.

Ltac frame_with tac :=
  repeat first
    [ solve [auto with frames]
    | apply respects_generateCode_loop; [typeclasses eauto | intros ? ?; solve [tac]]
    | apply respects_outage; [typeclasses eauto | intros ? ?; solve [tac]]
    | apply respects_ret; solve [typeclasses eauto]
    | apply respects_throw; solve [typeclasses eauto]
    | apply respects_gets; solve [typeclasses eauto]
    | apply respects_modify; intros ?; solve [tac]
    | apply respects_bind; [typeclasses eauto | | intros ?]
    | apply respects_try_catch; [typeclasses eauto | | intros ?]
    | apply respects_promise_catch; [typeclasses eauto | | intros ?]
    | case_match ].

Ltac frame := frame_with ltac:(reflexivity).

(** Unfolding the monad and the steps that only read or write the world. *)
Ltac run :=
  cbv [mbind mret M_bind M_ret sent outage modify gets throw try_catch keep
       set_broadcasts set_schedule_files console_write] in *;
  simpl in *.

Create HintDb module.
#[local] Hint Unfold select_single storage_remove storage_upload update_single insert_single
  sent set_broadcasts set_schedule_files console_write keep
  authenticate existing code_of save record result publish pushBroadcast
  captureTableHTML generateCode : module.

Lemma surroundings_pushBroadcast o : respects (same surroundings) (pushBroadcast o).
Proof. repeat autounfold with module. frame. Qed.

Lemma pushes_publish o u : respects (same pushes) (publish o u).
Proof. repeat autounfold with module. frame. Qed.

(** ** The steps of [pushBroadcast] *)

Lemma not_down_nil w : outages (remote w) = [] -> ~ down w.
Proof. intros H (s & r & E). congruence. Qed.

Lemma not_down_cons w rest : outages (remote w) = None :: rest -> ~ down w.
Proof. intros H (s & r & E). congruence. Qed.

Lemma existing_run u f w :
  exists found asked w',
    existing u f w = (Normal found, w') /\
    lookup w u f asked found /\
    calls w' = calls w ++ asked /\
    rows w' = rows w /\ files w' = files w /\
    currentBroadcast w' = currentBroadcast w.
Proof.
  unfold existing, select_single. run.
  destruct (currentBroadcast w) as [b|] eqn:Hc.
  - exists (Some b), [], w. rewrite app_nil_r. repeat split; auto. now constructor.
  - destruct (outages (remote w)) as [|[status|] rest] eqn:Ho; simpl.
    + destruct (rows_of (user_id u) f (broadcasts (remote w))) as [|b [|b' l]] eqn:Hr;
        eexists _, _, _; (split; [reflexivity|]); simpl; repeat split; auto.
      * apply lookup_missed; auto. right. intros b. unfold rows. congruence.
      * apply lookup_found; auto. now apply not_down_nil.
      * apply lookup_missed; auto. right. intros b0. unfold rows. congruence.
    + eexists _, _, _; (split; [reflexivity|]); simpl; repeat split; auto.
      apply lookup_missed; auto. left. now exists status, rest.
    + destruct (rows_of (user_id u) f (broadcasts (remote w))) as [|b [|b' l]] eqn:Hr;
        eexists _, _, _; (split; [reflexivity|]); simpl; repeat split; auto.
      * apply lookup_missed; auto. right. intros b. unfold rows. congruence.
      * apply lookup_found; auto. now apply (not_down_cons w rest).
      * apply lookup_missed; auto. right. intros b0. unfold rows. congruence.
Qed.

Lemma code_of_returns found w :
  exists generated w', code_of found w = (Normal generated, w').
Proof.
  assert (G : forall n code w, exists generated w',
             generateCode_loop n code w = (Normal generated, w')).
  { induction n as [|n IH]; intros code w0; simpl.
    - now exists code, w0.
    - rewrite bind_run. unfold Math_random. apply IH. }
  unfold code_of, generateCode. destruct found as [b|]; [|apply G].
  destruct (truthy (b_code b)); [now exists (b_code b), w | apply G].
Qed.

Lemma code_of_frame found : respects (same (fun w => (publication w, surroundings w))) (code_of found).
Proof. unfold code_of, generateCode. frame. Qed.

Lemma save_Normal path html w w' :
  save path html w = (Normal tt, w') ->
  calls w' = calls w ++ [remove_request [path]; upload_request path] /\
  rows w' = rows w /\
  files w' = <[path := html]> (files w) /\
  currentBroadcast w' = currentBroadcast w.
Proof.
  unfold save, storage_remove, storage_upload. run. unfold files, rows.
  destruct (outages (remote w)) as [|[status|] [|[status'|] rest]] eqn:Ho; simpl;
    repeat (case_match; simpl in * ); intros; simplify_eq; simpl;
    rewrite <- ?app_assoc; simpl; repeat split; auto;
    try (rewrite insert_delete_eq; reflexivity).
Qed.

Lemma record_Normal o found generated u f t w w' :
  record o found generated u f t w = (Normal tt, w') ->
  exists d request,
    saved o u f t w found d (rows w') request /\
    (found = None -> b_code d = generated) /\
    calls w' = calls w ++ [request] /\
    files w' = files w /\
    currentBroadcast w' = Some d.
Proof.
  unfold record, update_single, insert_single. run. unfold files, rows.
  destruct found as [b|].
  - destruct (outages (remote w)) as [|[status|] rest] eqn:Ho; simpl;
      try discriminate;
      destruct (rows_with (b_id b) (broadcasts (remote w))) as [|b0 [|b1 l]] eqn:Hr;
      simpl; try discriminate; intros; simplify_eq; simpl;
      eexists _, _; (split; [now apply (saved_update o u f t w b b0)|]);
      repeat split; auto; discriminate.
  - destruct (outages (remote w)) as [|[status|] rest] eqn:Ho; simpl;
      try discriminate;
      destruct (rows_of (user_id u) f (broadcasts (remote w))) as [|b0 l] eqn:Hr;
      simpl; try discriminate; intros; simplify_eq; simpl;
      eexists _, _; (split; [apply (saved_insert o u f t w generated)|]);
      repeat split; auto.
Qed.

Lemma result_Normal t w r w' :
  result t w = (Normal r, w') ->
  exists d,
    currentBroadcast w = Some d /\
    r = {| code := b_code d; url := BROADCAST_VIEWER_URL ++ js "?c=" ++ b_code d;
           title := t |} /\
    publication w' = publication w.
Proof.
  unfold result. run. destruct (currentBroadcast w) as [d|] eqn:Hc; [|discriminate].
  intros; simplify_eq. exists d. repeat split; auto.
Qed.

Lemma captureTableHTML_frame :
  respects
    (same (fun w => (remote w, currentBroadcast w, calls w, surroundings w, pushes w, drawn w)))
    captureTableHTML.
Proof. unfold captureTableHTML, console_write. frame. Qed.

Lemma existing_surroundings u f : respects (same surroundings) (existing u f).
Proof. unfold existing, select_single, sent. frame. Qed.

Lemma save_surroundings path html : respects (same surroundings) (save path html).
Proof.
  unfold save, storage_remove, storage_upload, sent, set_schedule_files. frame.
Qed.

Lemma lookup_agree w0 w u f asked found :
  currentBroadcast w0 = currentBroadcast w ->
  remote w0 = remote w ->
  lookup w0 u f asked found -> lookup w u f asked found.
Proof.
  intros Hc Hr H.
  destruct H; [apply lookup_cached | apply lookup_found | apply lookup_missed];
    unfold rows, down in *; rewrite <- ?Hc, <- ?Hr; assumption.
Qed.

Lemma saved_agree o u f t w0 w found d table request :
  rows w0 = rows w -> clock w0 = clock w ->
  saved o u f t w0 found d table request -> saved o u f t w found d table request.
Proof.
  intros Hr Hc H. destruct H as [b b0 H d|generated d]; subst d; rewrite Hr, Hc.
  - apply saved_update. now rewrite <- Hr.
  - apply saved_insert.
Qed.

Lemma authenticate_run w :
  match identity w with
  | Some u => authenticate w = (Normal u, w)
  | None => exists e, authenticate w = (Throw e, w) /\ failure_of e = AuthError
  end.
Proof.
  unfold identity, authenticate. run.
  destruct (auth w) as [[[] [u|]]|]; simpl; eauto.
Qed.

Lemma publish_Normal o u w r w' :
  identity w = Some u ->
  publish o u w = (Normal r, w') -> published o w r w'.
Proof.
  intros Hu H. unfold publish in H.
  apply bind_Normal in H as (html & w1 & Hcap & H).
  pose proof (captureTableHTML_frame w) as F1. rewrite Hcap in F1.
  destruct html as [html|]; [|discriminate].
  apply bind_Normal in H as (state & w1' & Hst & H).
  unfold gets in Hst. injection Hst as <- <-.
  set (t := resolveTitle o (readState w1)) in *.
  set (f := deriveFileName t) in *.
  destruct (existing_run u f w1)
    as (found & asked & w2 & Hex & Hlook & Hc2 & Hr2 & Hf2 & Hcb2).
  pose proof (existing_surroundings u f w1) as F2. rewrite Hex in F2.
  apply bind_Normal in H as (found' & w2' & Hex' & H).
  rewrite Hex in Hex'. injection Hex' as <- <-.
  apply bind_Normal in H as (generated & w3 & Hcode & H).
  pose proof (code_of_frame found w2) as F3. rewrite Hcode in F3.
  apply bind_Normal in H as ([] & w4 & Hsave & H).
  pose proof (save_surroundings (htmlPath u f) html w3) as F4. rewrite Hsave in F4.
  apply save_Normal in Hsave as (Hc4 & Hr4 & Hf4 & Hcb4).
  apply bind_Normal in H as ([] & w5 & Hrec & H).
  apply record_Normal in Hrec as (d & request & Hsaved & _ & Hc5 & Hf5 & Hcb5).
  apply result_Normal in H as (d' & Hd & -> & F6).
  unfold same, surroundings, publication in *; simpl in *.
  injection F1 as R1 C1 K1 A1 D1 S1 T1 B1 P1 N1.
  injection F2 as A2 D2 S2 T2 B2.
  injection F3 as R3 L3 C3 K3 A3 D3 S3 T3 B3.
  injection F4 as A4 D4 S4 T4 B4.
  injection F6 as R6 L6 C6 K6.
  assert (d' = d) as -> by congruence.
  assert (Et : t = resolveTitle o (readState w)) by (subst t; now rewrite S1).
  assert (Rw : rows w1 = rows w) by (unfold rows; now rewrite R1).
  apply (published_intro o w _ w' u html asked found d request); simpl; auto.
  - now rewrite Hcap.
  - fold f. apply (lookup_agree w1); auto.
  - fold f. rewrite R6. apply (saved_agree o u f t w4); [congruence..|assumption].
  - fold f. rewrite K6, Hc5, Hc4, K3, Hc2, K1, <- !app_assoc. reflexivity.
  - fold f. rewrite L6, Hf5, Hf4, L3, Hf2. unfold files. now rewrite R1.
  - congruence.
Qed.

Lemma captureTableHTML_pushes p w :
  (captureTableHTML (with_pushes p w)).1 = (captureTableHTML w).1.
Proof.
  unfold captureTableHTML, console_write. run.
  destruct (document_querySelector _ (document w)) as [n|]; [|reflexivity].
  change (readState (with_pushes p w)) with (readState w).
  now destruct (prepare (readState w) n).
Qed.

Lemma pushBroadcast_Normal o w r w' :
  pushBroadcast o w = (Normal r, w') ->
  published o w r w' /\ pushes w' = pushes w ++ [o].
Proof.
  unfold pushBroadcast. intros H.
  apply bind_Normal in H as ([] & w0 & Hg & H).
  unfold modify in Hg. injection Hg as Hg.
  apply bind_Normal in H as (u & w1 & Ha & H).
  pose proof (authenticate_run w0) as A.
  destruct (identity w0) as [u'|] eqn:Hu.
  - rewrite Ha in A. injection A as Eu Ew. subst u' w1.
    pose proof (pushes_publish o u w0) as P.
    rewrite H in P. unfold same in P; simpl in P. split; [|now rewrite P, <- Hg].
    apply publish_Normal in H; [|assumption].
    destruct H as [u' html asked found d request H1 H2 H3 f H4 H5 H6 H7 H8 H9 H10].
    subst w0.
    apply (published_intro o w r w' u' html asked found d request); auto.
    + now rewrite <- captureTableHTML_pushes with (p := pushes w ++ [o]).
    + fold f. revert H4. now apply lookup_agree.
    + fold f. revert H5. now apply saved_agree.
  - destruct A as (e & A & _). congruence.
Qed.

(** ** The table under a publication *)

Lemma rows_with_elem id table b :
  b ∈ rows_with id table <-> b ∈ table /\ b_id b = id.
Proof.
  unfold rows_with. rewrite !list_elem_of_In, filter_In, bool_decide_eq_true.
  reflexivity.
Qed.

Lemma rows_of_elem uid f table b :
  b ∈ rows_of uid f table <-> b ∈ table /\ b_user_id b = uid /\ b_file_name b = f.
Proof.
  unfold rows_of.
  rewrite !list_elem_of_In, filter_In, andb_true_iff, !bool_decide_eq_true.
  reflexivity.
Qed.

(** The one row with an id is any row of the table that has it. *)
Lemma rows_with_only id table b0 b :
  rows_with id table = [b0] -> b ∈ table -> b_id b = id -> b = b0.
Proof.
  intros H Hb Hid.
  assert (E : b ∈ rows_with id table) by now apply rows_with_elem.
  rewrite H in E. now apply list_elem_of_singleton in E.
Qed.

(** The record written is a row of the table after. *)
Lemma saved_elem o u f t w found d table request :
  saved o u f t w found d table request -> d ∈ table.
Proof.
  intros [b b0 H d'|generated d'].
  - apply list_elem_of_fmap. exists b0. 
    assert (E : b0 ∈ rows_with (b_id b) (rows w)) by (rewrite H; apply list_elem_of_here).
    apply rows_with_elem in E as [E1 E2].
    rewrite bool_decide_eq_true_2 by assumption. auto.
  - apply elem_of_app. right. apply list_elem_of_here.
Qed.

(** Saving keeps the id and the code of every row, in place; a new row comes
    last. *)
Lemma saved_codes o u f t w found d table request :
  saved o u f t w found d table request ->
  id_code <$> table
  = (id_code <$> rows w) ++ match found with Some _ => [] | None => [id_code d] end.
Proof.
  intros [b b0 H d'|generated d'].
  - rewrite app_nil_r, <- list_fmap_compose. apply list_fmap_ext.
    intros i x Hx. simpl. case_bool_decide as E; [|reflexivity].
    apply list_elem_of_lookup_2 in Hx.
    now rewrite (rows_with_only _ _ _ _ H Hx E).
  - now rewrite fmap_app.
Qed.

(** When the record found is a row of the table, it is the row updated. *)
Lemma saved_found o u f t w b d table request :
  saved o u f t w (Some b) d table request ->
  b ∈ rows w ->
  d = updated t (default (b_auto_update b) (opt_autoUpdate o)) (clock w) b /\
  request = update_request (b_id b) /\
  length table = length (rows w).
Proof.
  intros H Hb. inversion H as [b' b0 Hw d' | ]; subst.
  pose proof (rows_with_only _ _ _ _ Hw Hb eq_refl) as E. subst d' b0.
  repeat split. apply length_fmap.
Qed.

Lemma saved_missing o u f t w d table request :
  saved o u f t w None d table request ->
  table = rows w ++ [d] /\ (b_id d ∉ b_id <$> rows w) /\
  b_user_id d = user_id u /\ b_file_name d = f /\ b_title d = t /\
  request = insert_request (b_code d).
Proof.
  intros H. inversion H as [| generated d']; subst. repeat split; auto.
  simpl. unfold fresh_id. intros Hin.
  assert (G : forall l : list N, forall x, x ∈ l -> (x <= foldr N.max 0 l)%N).
  { induction l as [|y l IH]; intros x Hx; [now apply not_elem_of_nil in Hx|].
    simpl. apply elem_of_cons in Hx as [->|Hx]; [lia|]. specialize (IH x Hx). lia. }
  apply G in Hin. lia.
Qed.

(** ** What a publication leaves *)

(** The record of a publication is cached, is a row of the table, and gives
    the result its code. *)
Lemma published_record o w r w' :
  published o w r w' ->
  exists d, currentBroadcast w' = Some d /\ code r = b_code d /\ d ∈ rows w'.
Proof.
  intros [u html asked found d request _ _ _ f _ Hs _ _ Hc Hr _].
  exists d. repeat split; auto. revert Hs. apply saved_elem.
Qed.


(** A publication that starts without a cached record leaves the record of
    the user and the file name of its title. *)
Lemma published_uncached o w r w' :
  published o w r w' ->
  currentBroadcast w = None ->
  exists u d,
    identity w = Some u /\ currentBroadcast w' = Some d /\
    b_user_id d = user_id u /\ b_file_name d = deriveFileName (title r).
Proof.
  intros [u html asked found d request Hu _ _ f Hl Hs _ _ Hc _ _] Hcache.
  exists u, d. repeat split; auto.
  - inversion Hl as [b Hb | b Hb Hdown Hrows | Hb]; subst; try congruence.
    + assert (E : b ∈ rows_of (user_id u) f (rows w))
        by (rewrite Hrows; apply list_elem_of_here).
      apply rows_of_elem in E as (E & E1 & E2).
      apply saved_found in Hs as (-> & _); auto.
    + now apply saved_missing in Hs as (_ & _ & ? & _).
  - inversion Hl as [b Hb | b Hb Hdown Hrows | Hb]; subst; try congruence.
    + assert (E : b ∈ rows_of (user_id u) f (rows w))
        by (rewrite Hrows; apply list_elem_of_here).
      apply rows_of_elem in E as (E & E1 & E2).
      apply saved_found in Hs as (-> & _); auto.
    + now apply saved_missing in Hs as (_ & _ & _ & ? & _).
Qed.

(** Without a cached record, a lookup that gets through to a table with one
    row for the user and the file name finds it, and the publication updates
    it. *)
Lemma published_found o w r w' u d :
  published o w r w' ->
  currentBroadcast w = None -> ~ down w ->
  identity w = Some u ->
  d ∈ rows w -> b_user_id d = user_id u -> b_file_name d = deriveFileName (title r) ->
  (length (rows_of (user_id u) (deriveFileName (title r)) (rows w)) <= 1)%nat ->
  code r = b_code d /\
  calls w'
  = calls w ++ [select_request (user_id u) (deriveFileName (title r));
                remove_request [htmlPath u (deriveFileName (title r))];
                upload_request (htmlPath u (deriveFileName (title r)));
                update_request (b_id d)] /\
  id_code <$> rows w' = id_code <$> rows w.
Proof.
  intros [u' html asked found d' request Hu _ _ f Hl Hs Hcalls _ Hc Hr _]
    Hcache Hdown Hid Hd Hdu Hdf Hone.
  assert (u' = u) as -> by congruence.
  assert (E : d ∈ rows_of (user_id u) f (rows w)) by now apply rows_of_elem.
  assert (Hrows : rows_of (user_id u) f (rows w) = [d]).
  { fold f in Hone. destruct (rows_of (user_id u) f (rows w)) as [|x [|y l]];
      [now apply not_elem_of_nil in E | | simpl in Hone; lia].
    apply list_elem_of_singleton in E. now subst. }
  inversion Hl as [b Hb | b Hb _ Hrows' | Hb [Hdn|Hno]]; subst;
    [congruence | | contradiction | now destruct (Hno d)].
  assert (b = d) as -> by congruence.
  pose proof (saved_codes _ _ _ _ _ _ _ _ _ Hs) as Hcodes.
  apply saved_found in Hs as (-> & -> & _); [|assumption].
  repeat split; auto. now rewrite app_nil_r in Hcodes.
Qed.


(** ** Codes are kept *)

#[global] Instance codes_kept_preorder : PreOrder codes_kept.
Proof.
  split.
  - intros w. unfold codes_kept. reflexivity.
  - intros w1 w2 w3. unfold codes_kept. intros. etransitivity; eassumption.
Qed.

Lemma updated_codes id t a n table b0 :
  rows_with id table = [b0] ->
  id_code <$> ((fun r => if bool_decide (b_id r = id) then updated t a n b0 else r) <$> table)
  = id_code <$> table.
Proof.
  intros H. rewrite <- list_fmap_compose. apply list_fmap_ext.
  intros i x Hx. simpl. case_bool_decide as E; [|reflexivity].
  apply list_elem_of_lookup_2 in Hx.
  now rewrite (rows_with_only _ _ _ _ H Hx E).
Qed.

Lemma update_single_codes id t a n : respects codes_kept (update_single id t a n).
Proof.
  intros w. unfold update_single. run. unfold codes_kept, rows.
  destruct (outages (remote w)) as [|[status|] rest]; simpl; try reflexivity;
    destruct (rows_with id (broadcasts (remote w))) as [|b0 [|b1 l]] eqn:Hr;
    simpl; try reflexivity; now rewrite updated_codes.
Qed.

Lemma insert_single_codes c uid f t a : respects codes_kept (insert_single c uid f t a).
Proof.
  intros w. unfold insert_single. run. unfold codes_kept, rows.
  destruct (outages (remote w)) as [|[status|] rest]; simpl; try reflexivity;
    destruct (rows_of uid f (broadcasts (remote w))); simpl; try reflexivity;
    rewrite fmap_app; now apply prefix_app_r.
Qed.

#[local] Hint Resolve update_single_codes insert_single_codes : frames.


(** ** Publishing again *)


(** A table of one row has at most one row per user and file name. *)
Lemma one_per_file_singleton b : one_per_file [b].
Proof.
  intros uid f. unfold rows_of. simpl.
  destruct (bool_decide (b_user_id b = uid) && bool_decide (b_file_name b = f));
    simpl; lia.
Qed.



(** ** Publishing under another title *)




(** ** Rejections before any request *)

Lemma identity_None w :
  identity w = None <->
  from_option isAuthenticated false (auth w) = false
  \/ from_option getCurrentUser None (auth w) = None.
Proof.
  unfold identity. destruct (auth w) as [[[] [u|]]|]; simpl; intuition discriminate.
Qed.

(** What a run of [pushBroadcast] is once the call is noted. *)
Lemma pushBroadcast_run o w :
  pushBroadcast o w
  = (authenticate ≫= publish o) (with_pushes (pushes w ++ [o]) w).
Proof. reflexivity. Qed.

(** C3: without an authenticated identity, that is when [isAuthenticated()]
    is false or missing or [getCurrentUser()] gives no user, [pushBroadcast]
    rejects with an [AuthError] and has sent no request: the requests sent
    and the store, table and files, are as they were. *)
Theorem pushBroadcast_unauthenticated o w :
  from_option isAuthenticated false (auth w) = false
  \/ from_option getCurrentUser None (auth w) = None ->
  exists e w',
    pushBroadcast o w = (Throw e, w')
    /\ failure_of e = AuthError
    /\ calls w' = calls w
    /\ remote w' = remote w.
Proof.
  intros H. apply identity_None in H.
  pose proof (authenticate_run (with_pushes (pushes w ++ [o]) w)) as A.
  change (identity (with_pushes (pushes w ++ [o]) w)) with (identity w) in A.
  rewrite H in A. destruct A as (e & A & He).
  exists e, (with_pushes (pushes w ++ [o]) w).
  rewrite pushBroadcast_run, bind_run, A. auto.
Qed.

(** A world where nobody is signed in. *)
Lemma pushBroadcast_unauthenticated_witness :
  let w := a_world None (page [schedule_table]) (Some editor) false in
  (from_option isAuthenticated false (auth w) = false
   \/ from_option getCurrentUser None (auth w) = None)
  /\ exists e w',
       pushBroadcast untitled w = (Throw e, w')
       /\ failure_of e = AuthError
       /\ calls w' = calls w
       /\ remote w' = remote w.
Proof.
  cbv zeta. split; [left; reflexivity|].
  apply pushBroadcast_unauthenticated. left; reflexivity.
Defined.

(** [captureTableHTML] without a table logs an error and returns [null]. *)
Lemma captureTableHTML_no_table w :
  document_querySelector [compound_sel (class_sel (js "schedule"))] (document w) = None ->
  captureTableHTML w
  = (Normal None,
     with_console
       (console w ++ [console_error [log_text (js "[Broadcast] No schedule table found")]])
       w).
Proof. intros H. unfold captureTableHTML. run. now rewrite H. Qed.

(** C4: when the document has no [.schedule] table, [captureTableHTML]
    returns [null] and [pushBroadcast], called by an authenticated user (the
    check of the identity comes first, C3), rejects with a [CaptureError]. It
    has sent no request: the requests sent and the store are as they were. *)
Theorem pushBroadcast_no_table o w u :
  identity w = Some u ->
  document_querySelector [compound_sel (class_sel (js "schedule"))] (document w) = None ->
  (captureTableHTML w).1 = Normal None
  /\ exists e w',
       pushBroadcast o w = (Throw e, w')
       /\ failure_of e = CaptureError
       /\ calls w' = calls w
       /\ remote w' = remote w.
Proof.
  intros Hu Hdoc. split; [now rewrite captureTableHTML_no_table|].
  set (w0 := with_pushes (pushes w ++ [o]) w).
  pose proof (authenticate_run w0) as A.
  change (identity w0) with (identity w) in A. rewrite Hu in A.
  exists (Error (js "Could not capture table")).
  eexists. rewrite pushBroadcast_run, bind_run. fold w0. rewrite A.
  unfold publish. rewrite bind_run, captureTableHTML_no_table by exact Hdoc.
  split; [reflexivity|]. repeat split.
Qed.

(** The studio with an empty page. *)
Lemma pushBroadcast_no_table_witness :
  let w := a_world (Some signed_in) (page []) (Some editor) false in
  (identity w = Some {| user_id := js "u1" |}
   /\ document_querySelector [compound_sel (class_sel (js "schedule"))] (document w) = None)
  /\ (captureTableHTML w).1 = Normal None
  /\ exists e w',
       pushBroadcast untitled w = (Throw e, w')
       /\ failure_of e = CaptureError
       /\ calls w' = calls w
       /\ remote w' = remote w.
Proof.
  cbv zeta.
  assert (H1 : identity (a_world (Some signed_in) (page []) (Some editor) false)
               = Some {| user_id := js "u1" |}) by reflexivity.
  assert (H2 : document_querySelector [compound_sel (class_sel (js "schedule"))]
                 (document (a_world (Some signed_in) (page []) (Some editor) false)) = None)
    by reflexivity.
  split; [auto|]. exact (pushBroadcast_no_table untitled _ _ H1 H2).
Defined.

(** ** The hook *)

(** Every run of [pushBroadcast] notes its call, once. *)
Lemma pushBroadcast_pushes o w : pushes (pushBroadcast o w).2 = pushes w ++ [o].
Proof.
  rewrite pushBroadcast_run.
  assert (F : respects (same pushes) (authenticate ≫= publish o)).
  { pose proof pushes_publish. unfold authenticate. frame. }
  apply F.
Qed.

(** C9: [hookAutoBroadcast] never throws. With the flag on it calls
    [pushBroadcast] exactly once, with [{ autoUpdate: true }] and no title,
    and when that call rejects, with any error, the error is written to the
    console and the hook returns all the same. With the flag off it calls
    nothing and leaves the world as it is. *)
Theorem hookAutoBroadcast_spec w :
  exists w',
    hookAutoBroadcast w = (Normal tt, w')
    /\ if autoBroadcast w then
         let auto := {| opt_title := None; opt_autoUpdate := Some true |} in
         let w0 := with_console
                     (console w ++ [console_log [log_text (js "[Broadcast] Auto-broadcasting...")]])
                     w in
         pushes w' = pushes w ++ [auto]
         /\ match pushBroadcast auto w0 with
            | (Normal _, w1) => w' = w1
            | (Throw err, w1) =>
                w' = with_console
                       (console w1
                          ++ [console_error [log_text (js "[Broadcast] Auto-broadcast failed:");
                                             log_exn err]])
                       w1
            end
       else w' = w.
Proof.
  unfold hookAutoBroadcast. run. destruct (autoBroadcast w) eqn:Hflag.
  - set (auto := {| opt_title := None; opt_autoUpdate := Some true |}).
    set (w0 := with_console _ w).
    unfold promise_catch.
    pose proof (pushBroadcast_pushes auto w0) as P.
    destruct (pushBroadcast auto w0) as [[r|err] w1]; simpl in *;
      eexists; (split; [reflexivity|]); split; auto.
  - now exists w.
Qed.

(** ** Codes *)

(** The alphabet has 32 characters, all different, none of them I, O, 0
    or 1. *)
Lemma chars_32 : length chars = 32%nat.
Proof. reflexivity. Qed.

Lemma chars_NoDup : NoDup chars.
Proof. apply (bool_decide_unpack _). vm_compute. exact I. Qed.

Lemma chars_unambiguous : Forall (fun c => c ∉ js "IO01") chars.
Proof. apply (bool_decide_unpack _). vm_compute. exact I. Qed.

(** [Math.floor(Math.random() * n)] is an index below [n]. *)
Lemma Math_floor_times_lt r n : (0 < n)%N -> (Math_floor_times r n < n)%N.
Proof.
  intros Hn. unfold Math_floor_times.
  assert (Hp : (0 < 2 ^ exponent r)%N) by (apply N.neq_0_lt_0, N.pow_nonzero; lia).
  apply N.Div0.div_lt_upper_bound.
  pose proof (N.mod_upper_bound (mantissa r) (2 ^ exponent r)).
  nia.
Qed.

(** A round of the loop appends one character of the alphabet. *)
Lemma charAt_random r :
  exists c, charAt chars (Math_floor_times r (N.of_nat (length chars))) = [c] /\ c ∈ chars.
Proof.
  unfold charAt.
  pose proof (Math_floor_times_lt r (N.of_nat (length chars))) as H.
  rewrite chars_32 in *. specialize (H ltac:(lia)).
  destruct (chars !! N.to_nat (Math_floor_times r (N.of_nat 32))) as [c|] eqn:E.
  - exists c. split; [reflexivity|]. now apply list_elem_of_lookup_2 in E.
  - apply lookup_ge_None in E. rewrite chars_32 in E. lia.
Qed.

Lemma generateCode_loop_S n code :
  generateCode_loop (S n) code
  = (Math_random ≫= fun r =>
       generateCode_loop n
         (code ++ charAt chars (Math_floor_times r (N.of_nat (length chars))))).
Proof. reflexivity. Qed.

Lemma generateCode_loop_run n : forall code w,
  exists suffix,
    generateCode_loop n code w = (Normal (code ++ suffix), with_drawn (drawn w + n) w)
    /\ length suffix = n
    /\ Forall (fun c => c ∈ chars) suffix.
Proof.
  induction n as [|n IH]; intros code w.
  - exists []. rewrite app_nil_r, Nat.add_0_r. repeat split; [|constructor].
    destruct w; reflexivity.
  - rewrite generateCode_loop_S, bind_run. unfold Math_random.
    destruct (charAt_random (random w (drawn w))) as (c & -> & Hc).
    destruct (IH (code ++ [c]) (with_drawn (S (drawn w)) w)) as (suffix & -> & Hl & Hs).
    exists (c :: suffix). rewrite <- app_assoc. simpl.
    replace (S (drawn w + n)) with (drawn w + S n)%nat by lia.
    repeat split; auto.
Qed.

(** With the same number at every draw, the code is one character six
    times. *)
Lemma generateCode_loop_constant r c n : forall code w,
  (forall k, random w k = r) ->
  charAt chars (Math_floor_times r (N.of_nat (length chars))) = [c] ->
  (generateCode_loop n code w).1 = Normal (code ++ replicate n c).
Proof.
  induction n as [|n IH]; intros code w Hr Hc.
  - simpl. now rewrite app_nil_r.
  - rewrite generateCode_loop_S, bind_run. unfold Math_random.
    rewrite Hr, Hc, IH; auto. now rewrite <- app_assoc.
Qed.

(** Every character of the alphabet is drawn by some number. *)
Lemma chars_drawn c :
  c ∈ chars ->
  exists r, charAt chars (Math_floor_times r (N.of_nat (length chars))) = [c].
Proof.
  intros H. apply list_elem_of_lookup in H as [i Hi].
  assert (Hlt : (i < 32)%nat) by (apply lookup_lt_Some in Hi; now rewrite chars_32 in Hi).
  exists {| mantissa := 8 * N.of_nat i; exponent := 8 |}.
  unfold charAt, Math_floor_times; simpl mantissa; simpl exponent. rewrite chars_32.
  replace (N.to_nat _) with i; [now rewrite Hi|].
  change (2 ^ 8)%N with 256%N. change (N.of_nat 32) with 32%N.
  rewrite N.mod_small by lia.
  replace (8 * N.of_nat i * 32)%N with (N.of_nat i * 256)%N by lia.
  rewrite N.div_mul by lia. lia.
Qed.

(** C6, as the code has it: [generateCode] returns, having drawn six random
    numbers, a code of exactly 6 characters, each a character of the alphabet
    [chars] and none of them I, O, 0 or 1. The alphabet has 32 characters,
    all different, and each of them occurs in some generated code. *)
Theorem generateCode_spec :
  (forall w,
     exists code,
       generateCode w = (Normal code, with_drawn (drawn w + 6) w)
       /\ length code = 6%nat
       /\ Forall (fun c => c ∈ chars /\ c ∉ js "IO01") code)
  /\ length chars = 32%nat
  /\ NoDup chars
  /\ (forall c, c ∈ chars ->
        exists w code, (generateCode w).1 = Normal code /\ c ∈ code).
Proof.
  split_and!.
  - intros w. destruct (generateCode_loop_run 6 [] w) as (code & H & Hl & Hc).
    exists code. split_and!; auto.
    pose proof chars_unambiguous as U. rewrite Forall_forall in *.
    intros c Hin. split; [now apply Hc | apply U, Hc, Hin].
  - apply chars_32.
  - apply chars_NoDup.
  - intros c Hc. destruct (chars_drawn c Hc) as [r Hr].
    exists (drawing r), (replicate 6 c). split.
    + now apply (generateCode_loop_constant r c 6 [] (drawing r)).
    + simpl. apply list_elem_of_here.
Qed.

(** C6 as the spec states it fails on the size of the alphabet: it has 32
    characters, and no 33 different characters all occur in generated
    codes. *)
Lemma alphabet_not_33 :
  length chars = 32%nat
  /\ ~ exists alphabet : jsstring,
         length alphabet = 33%nat /\ NoDup alphabet
         /\ forall c, c ∈ alphabet ->
              exists w code, (generateCode w).1 = Normal code /\ c ∈ code.
Proof.
  split; [apply chars_32|]. intros (alphabet & Hlen & Hnd & Hall).
  assert (Hsub : alphabet ⊆+ chars).
  { apply NoDup_submseteq; [assumption|]. intros c Hc.
    destruct (Hall c Hc) as (w & code & Hrun & Hin).
    destruct (generateCode_loop_run 6 [] w) as (code' & Hrun' & _ & Hchars).
    unfold generateCode in Hrun. rewrite Hrun' in Hrun. simpl in Hrun.
    injection Hrun as <-. rewrite Forall_forall in Hchars. now apply Hchars. }
  apply submseteq_length in Hsub. rewrite Hlen, chars_32 in Hsub. lia.
Qed.

(** ** Titles and file names *)

(** A publication uploads to the path of its user and of the file name of
    its title. *)
Lemma published_upload o w r w' :
  published o w r w' ->
  title r = resolveTitle o (readState w)
  /\ exists u,
       identity w = Some u
       /\ upload_request (htmlPath u (deriveFileName (title r))) ∈ calls w'.
Proof.
  intros [u html asked found d request Hu _ Ht f _ _ Hcalls _ _ _ _].
  split; [assumption|]. exists u. split; [assumption|].
  rewrite Hcalls, !elem_of_app. right; right.
  apply elem_of_cons; right. apply list_elem_of_here.
Qed.

(** C5: the file name of a title has the length of the title; it keeps every
    code unit of [A-Za-z0-9] where it is and has an underscore (code unit 95)
    in the place of every other one; the title "Q1 Launch!" gives
    "Q1_Launch_". It is a function of the title alone: a publish that returns
    has uploaded to the path made of the user and the file name of the title
    it returns. *)
Theorem deriveFileName_spec :
  (forall title, length (deriveFileName title) = length title)
  /\ (forall title i c,
        title !! i = Some c -> alphanumeric c -> deriveFileName title !! i = Some c)
  /\ (forall title i c,
        title !! i = Some c -> ~ alphanumeric c ->
        deriveFileName title !! i = Some 95%N)
  /\ js "_" = [95%N]
  /\ deriveFileName (js "Q1 Launch!") = js "Q1_Launch_"
  /\ (forall o w r w',
        pushBroadcast o w = (Normal r, w') ->
        exists u,
          identity w = Some u
          /\ upload_request (htmlPath u (deriveFileName (title r))) ∈ calls w').
Proof.
  split_and!.
  - apply deriveFileName_length.
  - intros title i c Hi Hc.
    rewrite (deriveFileName_lookup title i c Hi). now rewrite non_alnum_false.
  - intros title i c Hi Hc.
    rewrite (deriveFileName_lookup title i c Hi). now rewrite non_alnum_true.
  - reflexivity.
  - reflexivity.
  - intros o w r w' H. apply pushBroadcast_Normal in H as [P _].
    now apply published_upload in P as [_ P].
Qed.

(** C10: an empty [options.title] is read as no title. The title resolved is
    the one resolved without [options.title]: the [title] of the
    [projectMeta] of the state when the state has one that is not empty, and
    "Schedule" otherwise (no state, no [projectMeta], no [title] in it, or an
    empty one); it is never empty. A publish with the empty title that
    returns, returns that title and has uploaded under its file name: in the
    studio, whose project is "Q1 Launch!", under [u1/Q1_Launch_.html]. *)
Theorem resolveTitle_empty auto state :
  let empty := {| opt_title := Some (js ""); opt_autoUpdate := auto |} in
  let absent := {| opt_title := None; opt_autoUpdate := auto |} in
  resolveTitle empty state = resolveTitle absent state
  /\ resolveTitle empty state
     = match projectMeta_title state with
       | Some (c :: t) => c :: t
       | Some [] | None => js "Schedule"
       end
  /\ resolveTitle empty state <> js ""
  /\ (forall w r w',
        pushBroadcast empty w = (Normal r, w') ->
        title r = resolveTitle absent (readState w)
        /\ exists u,
             identity w = Some u
             /\ upload_request (htmlPath u (deriveFileName (title r))) ∈ calls w')
  /\ (forall cs c t,
        resolveTitle empty
          (Some {| cols := cs; projectMeta := Some {| meta_title := Some (c :: t) |} |})
        = c :: t)
  /\ (forall cs,
        resolveTitle empty
          (Some {| cols := cs; projectMeta := Some {| meta_title := Some (js "") |} |})
        = js "Schedule"
        /\ resolveTitle empty
             (Some {| cols := cs; projectMeta := Some {| meta_title := None |} |})
           = js "Schedule"
        /\ resolveTitle empty (Some {| cols := cs; projectMeta := None |}) = js "Schedule")
  /\ resolveTitle empty None = js "Schedule"
  /\ (fun r => (title r, code r)) <$> returned (pushBroadcast empty studio).1
     = Some (js "Q1 Launch!", js "AFKQVZ")
  /\ calls (pushBroadcast empty studio).2
     = [ select_request (js "u1") (js "Q1_Launch_");
         remove_request [js "u1/Q1_Launch_.html"];
         upload_request (js "u1/Q1_Launch_.html");
         insert_request (js "AFKQVZ") ].
Proof.
  cbv zeta. split_and!; try reflexivity.
  - unfold resolveTitle; simpl. now destruct (projectMeta_title state) as [[|c t]|].
  - unfold resolveTitle; simpl. now destruct (projectMeta_title state) as [[|c t]|].
  - intros w r w' H. apply pushBroadcast_Normal in H as [P _].
    now apply published_upload in P.
  - intros cs. split_and!; reflexivity.
Qed.

(** ** The clone without its controls *)

Lemma querySelectorAll_below sel n : querySelectorAll sel n = below sel [] n.
Proof. now destruct n. Qed.

Lemma matching_Element sel ancestors e kids :
  matching sel ancestors (Element e kids)
  = (if matches sel ancestors e then [Element e kids] else [])
      ++ below sel ancestors (Element e kids).
Proof. reflexivity. Qed.

Lemma flat_map_nil {A B : Type} (f : A -> list B) (l : list A) :
  Forall (fun x => f x = []) l -> flat_map f l = [].
Proof. induction 1 as [|x l Hx _ IH]; simpl; [reflexivity | now rewrite Hx, IH]. Qed.

Lemma flat_map_nil_inv {A B : Type} (f : A -> list B) (l : list A) :
  flat_map f l = [] -> Forall (fun x => f x = []) l.
Proof.
  induction l as [|x l IH]; simpl; intros H; [constructor|].
  apply app_eq_nil in H as [Hx Hl]. constructor; auto.
Qed.

Lemma flat_map_twice {A B C : Type} (f : B -> list C) (g : A -> list B) (l : list A) :
  flat_map f (flat_map g l) = flat_map (fun x => flat_map f (g x)) l.
Proof.
  induction l as [|x l IH]; simpl; [reflexivity|]. now rewrite flat_map_app, IH.
Qed.

(** Without a combinator, the ancestors do not matter. *)
Lemma matches_shallow sel a a' e : shallow sel -> matches sel a e = matches sel a' e.
Proof.
  unfold matches. induction 1 as [|x sel [c ->] _ IH]; simpl; [reflexivity|].
  now rewrite IH.
Qed.

(** Nothing below a node matches once the matches are removed. *)
Lemma below_remove_matching sel n : forall ancestors,
  below sel ancestors (remove_matching sel ancestors n) = [].
Proof.
  induction n as [data|e kids IH] using node_induction; intros ancestors;
    [reflexivity|].
  simpl. rewrite flat_map_twice. apply flat_map_nil. rewrite Forall_forall in *. intros k Hk.
  destruct k as [data|e' kids']; [reflexivity|].
  destruct (matches sel (e :: ancestors) e') eqn:Hm; [reflexivity|].
  specialize (IH _ Hk (e :: ancestors)). simpl in *. rewrite app_nil_r, Hm.
  exact IH.
Qed.

(** A node matches nothing, itself included. *)
Lemma matching_nil sel ancestors e kids :
  matching sel ancestors (Element e kids) = [] <->
  matches sel ancestors e = false /\ below sel ancestors (Element e kids) = [].
Proof.
  rewrite matching_Element. destruct (matches sel ancestors e); simpl.
  - split; [discriminate | intros [? _]; discriminate].
  - tauto.
Qed.

Lemma flat_map_ext_Forall {A B : Type} (f g : A -> list B) (l : list A) :
  Forall (fun x => f x = g x) l -> flat_map f l = flat_map g l.
Proof. induction 1 as [|x l Hx _ IH]; simpl; [reflexivity | now rewrite Hx, IH]. Qed.

Lemma matching_shallow sel n :
  shallow sel -> forall a a', matching sel a n = matching sel a' n.
Proof.
  intros Hsel. induction n as [data|e kids IH] using node_induction; intros a a';
    [reflexivity|].
  simpl. rewrite (matches_shallow sel a a' e Hsel). f_equal.
  apply flat_map_ext_Forall. eapply Forall_impl; [exact IH|]. intros k Hk. apply Hk.
Qed.

Lemma below_shallow sel n :
  shallow sel -> forall a a', below sel a n = below sel a' n.
Proof.
  intros Hsel a a'. destruct n as [data|e kids]; [reflexivity|]. simpl.
  apply flat_map_ext_Forall, Forall_forall. intros k _. now apply matching_shallow.
Qed.

(** For a selector without a combinator, nothing in a tree matches when no
    element of it does. *)
Lemma matching_nil_elements sel n :
  shallow sel -> forall a,
  matching sel a n = [] <-> Forall (fun e => matches sel [] e = false) (elements n).
Proof.
  intros Hsel. induction n as [data|e kids IH] using node_induction; intros a.
  - simpl. split; [constructor | reflexivity].
  - rewrite matching_nil. simpl. rewrite Forall_cons, Forall_flat_map.
    rewrite (matches_shallow sel a [] e Hsel).
    split; intros [Hm Hk]; (split; [assumption|]).
    + apply flat_map_nil_inv in Hk. rewrite Forall_forall in *.
      intros k Hin. now apply (IH k Hin (e :: a)), Hk.
    + apply flat_map_nil. rewrite Forall_forall in *.
      intros k Hin. now apply (IH k Hin (e :: a)), Hk.
Qed.

Lemma below_nil_descendants sel n :
  shallow sel -> forall a,
  below sel a n = [] <-> Forall (fun e => matches sel [] e = false) (descendants n).
Proof.
  intros Hsel a. destruct n as [data|e kids]; simpl.
  - split; [constructor | reflexivity].
  - rewrite Forall_flat_map. split; intros H.
    + apply flat_map_nil_inv in H. eapply Forall_impl; [exact H|].
      intros k Hk. now apply (matching_nil_elements sel k Hsel (e :: a)).
    + apply flat_map_nil. eapply Forall_impl; [exact H|].
      intros k Hk. now apply (matching_nil_elements sel k Hsel (e :: a)).
Qed.

Section touching.
Context (sel : selector) (Hsel : shallow sel) (f : element -> element).

(** Touching the matches of a selector without a combinator touches every
    element on its own. *)
Lemma elements_touch_matching n : forall a,
  elements (touch sel f a (touch_matching sel f a n)) = touched sel f <$> elements n
  /\ descendants (touch_matching sel f a n) = touched sel f <$> descendants n.
Proof.
  induction n as [data|e kids IH] using node_induction; intros a; [now split|].
  assert (D : descendants (touch_matching sel f a (Element e kids))
              = touched sel f <$> descendants (Element e kids)).
  { simpl. rewrite flat_map_concat_map, map_map, <- flat_map_concat_map.
    induction IH as [|k kids Hk _ IHk]; simpl; [reflexivity|].
    rewrite fmap_app, IHk. f_equal. apply Hk. }
  split; [|exact D].
  change (touch_matching sel f a (Element e kids))
    with (Element e (List.map (fun k => touch sel f (e :: a)
                                          (touch_matching sel f (e :: a) k)) kids)) in *.
  cbn [touch]. rewrite (matches_shallow sel a [] e Hsel).
  cbn [elements fmap list_fmap]. unfold touched at 1. cbn [descendants] in D.
  destruct (matches sel [] e); cbn [elements]; now rewrite D.
Qed.
End touching.

Lemma getAttribute_removeAttribute a e : getAttribute a (removeAttribute a e) = None.
Proof.
  unfold getAttribute, removeAttribute; simpl.
  induction (attributes e) as [|p l IH]; simpl; [reflexivity|].
  destruct (bool_decide (p.1 = a)) eqn:E; simpl; [exact IH|]. now rewrite E.
Qed.

Lemma interactive_shallow : shallow interactive.
Proof. repeat constructor; eauto. Qed.

Lemma draggable_shallow : shallow draggable.
Proof. repeat constructor; eauto. Qed.

(** The three selectors of a key are of one value, or none is a selector. *)
Lemma hide_value k clone :
  hide k clone
  = match attribute_value k with
    | Some v => Normal (conceal v clone)
    | None => Throw SyntaxError
    end.
Proof. unfold hide, parse_keyed, conceal. now destruct (attribute_value k). Qed.

(** What [prepare] returns: the clone with its columns hidden, then without
    its controls, then without its [draggable] attributes. *)
Lemma prepare_Normal state clone c :
  prepare state clone = Normal c ->
  exists hidden,
    forEach_hide (hiddenCols state) clone = Normal hidden
    /\ c = forAll draggable (removeAttribute (js "draggable"))
             (removeAll interactive hidden).
Proof.
  unfold prepare. destruct (forEach_hide (hiddenCols state) clone) as [hidden|e];
    [|discriminate].
  intros [= <-]. now exists hidden.
Qed.

(** Removing an attribute leaves the tag and the classes, so what
    [interactive] matches. *)
Lemma interactive_removeAttribute a e :
  matches interactive [] (removeAttribute a e) = matches interactive [] e.
Proof. reflexivity. Qed.

Lemma draggable_removeAttribute e :
  matches draggable [] (touched draggable (removeAttribute (js "draggable")) e) = false.
Proof.
  unfold touched. destruct (matches draggable [] e) eqn:E; [|exact E].
  unfold matches, draggable; simpl. rewrite getAttribute_removeAttribute.
  reflexivity.
Qed.

Lemma prepared_without_controls state clone c :
  prepare state clone = Normal c ->
  querySelectorAll interactive c = [] /\ querySelectorAll draggable c = [].
Proof.
  intros H. apply prepare_Normal in H as (hidden & _ & ->).
  rewrite !querySelectorAll_below. unfold forAll.
  rewrite (below_nil_descendants interactive _ interactive_shallow),
          (below_nil_descendants draggable _ draggable_shallow).
  destruct (elements_touch_matching draggable draggable_shallow
              (removeAttribute (js "draggable")) (removeAll interactive hidden) [])
    as [_ ->].
  pose proof (below_remove_matching interactive hidden []) as B.
  apply (below_nil_descendants interactive _ interactive_shallow) in B.
  rewrite Forall_forall in B.
  split; apply Forall_fmap, Forall_forall; intros e He.
  - unfold compose, touched.
    destruct (matches draggable [] e); rewrite ?interactive_removeAttribute;
      now apply B.
  - apply draggable_removeAttribute.
Qed.

(** ** What the capture keeps *)

Lemma thinned_mono {A B : Type} (P Q : A -> B -> Prop) l l' :
  thinned P l l' -> (forall x y, x ∈ l -> P x y -> Q x y) -> thinned Q l l'.
Proof.
  induction 1 as [|x l l' _ IH|x y l l' Hxy _ IH]; intros H.
  - apply thinned_nil.
  - apply thinned_drop, IH. intros; apply H; [now apply elem_of_cons; right | assumption].
  - apply thinned_keep.
    + apply H; [apply list_elem_of_here | assumption].
    + apply IH. intros; apply H; [now apply elem_of_cons; right | assumption].
Qed.

Lemma thinned_all {A B : Type} (P : A -> B -> Prop) (f : A -> B) l :
  Forall (fun x => P x (f x)) l -> thinned P l (f <$> l).
Proof.
  induction 1 as [|x l Hx _ IH]; simpl; [apply thinned_nil | now apply thinned_keep].
Qed.

Lemma thinned_compose {A B C : Type} (P : A -> B -> Prop) (Q : B -> C -> Prop) l1 l2 :
  thinned P l1 l2 -> forall l3, thinned Q l2 l3 ->
  thinned (fun x z => exists y, P x y /\ Q y z) l1 l3.
Proof.
  induction 1 as [|x l l' _ IH|x y l l' Hxy _ IH]; intros l3 H3.
  - inversion H3. apply thinned_nil.
  - apply thinned_drop, IH, H3.
  - inversion H3 as [|? ? ? H3'|? z ? l3' Hyz H3']; subst.
    + apply thinned_drop, IH, H3'.
    + apply thinned_keep; [eauto | apply IH, H3'].
Qed.

(** The members of the thinned list come from members of the list. *)
Lemma thinned_elem {A B : Type} (P : A -> B -> Prop) l l' y :
  thinned P l l' -> y ∈ l' -> exists x, x ∈ l /\ P x y.
Proof.
  induction 1 as [|x l l' _ IH|x z l l' Hxz _ IH]; intros Hy.
  - now apply not_elem_of_nil in Hy.
  - destruct (IH Hy) as (x' & ? & ?). exists x'. split; [now apply elem_of_cons; right|auto].
  - apply elem_of_cons in Hy as [->|Hy].
    + exists x. split; [apply list_elem_of_here | assumption].
    + destruct (IH Hy) as (x' & ? & ?). exists x'. split; [now apply elem_of_cons; right|auto].
Qed.

Section derivations.
Context (R : element -> element -> Prop) `{!PreOrder R}.

Lemma derived_refl n : derived R n n.
Proof.
  induction n as [data|e kids IH] using node_induction; constructor; [reflexivity|].
  rewrite <- (list_fmap_id kids) at 2. now apply thinned_all.
Qed.

Lemma derived_trans n1 : forall n2 n3, derived R n1 n2 -> derived R n2 n3 -> derived R n1 n3.
Proof.
  induction n1 as [data|e kids IH] using node_induction; intros n2 n3 H12 H23.
  - inversion H12; subst. inversion H23; subst. constructor.
  - inversion H12 as [|? e2 ? kids2 He12 Hk12]; subst.
    inversion H23 as [|? e3 ? kids3 He23 Hk23]; subst.
    constructor; [etransitivity; eassumption|].
    apply (thinned_mono _ _ _ _ (thinned_compose _ _ _ _ Hk12 _ Hk23)).
    intros k k3 Hk (k2 & H1 & H2). rewrite Forall_forall in IH. now apply (IH k Hk k2).
Qed.

#[global] Instance derived_preorder : PreOrder (derived R).
Proof. split; [exact derived_refl | intros n1 n2 n3; apply derived_trans]. Qed.

(** Removing the matches of a selector. *)
Lemma derived_remove_matching sel n : forall a, derived R n (remove_matching sel a n).
Proof.
  induction n as [data|e kids IH] using node_induction; intros a; simpl;
    constructor; [reflexivity|].
  induction IH as [|k kids Hk _ IHk]; simpl; [apply thinned_nil|].
  destruct k as [data|e' kids'].
  - apply thinned_keep; [constructor | exact IHk].
  - destruct (matches sel (e :: a) e').
    + apply thinned_drop, IHk.
    + apply thinned_keep; [apply Hk | exact IHk].
Qed.

Section touch.
Context (sel : selector) (f : element -> element).
Context (Hf : forall a e, matches sel a e = true -> R e (f e)).

Lemma derived_touch a n n' : derived R n n' -> derived R n (touch sel f a n').
Proof.
  intros H. destruct H as [data|e e' kids kids' He Hk]; simpl; [constructor|].
  destruct (matches sel a e') eqn:Hm; constructor; auto.
  etransitivity; [exact He | now apply (Hf a)].
Qed.

Lemma derived_touch_matching n : forall a, derived R n (touch_matching sel f a n).
Proof.
  induction n as [data|e kids IH] using node_induction; intros a; simpl;
    constructor; [reflexivity|].
  apply (thinned_all _ (fun k => touch sel f (e :: a) (touch_matching sel f (e :: a) k))).
  eapply Forall_impl; [exact IH|]. intros k Hk. apply derived_touch, Hk.
Qed.

Lemma derived_first_of kids kids' (g : node -> option node) :
  Forall (fun k => forall k', g k = Some k' -> derived R k k') kids ->
  first_of g kids = Some kids' -> thinned (derived R) kids kids'.
Proof.
  intros H. revert kids'. induction H as [|k kids Hk _ IH]; intros kids' E; simpl in E;
    [discriminate|].
  destruct (g k) as [k'|] eqn:Ek.
  - injection E as <-. apply thinned_keep; [now apply Hk|].
    rewrite <- (list_fmap_id kids) at 2. apply thinned_all, Forall_forall.
    intros; apply derived_refl.
  - destruct (first_of g kids) as [rest|]; [|discriminate].
    injection E as <-. apply thinned_keep; [apply derived_refl | now apply IH].
Qed.

Lemma derived_touch_first n : forall a n', touch_first sel f a n = Some n' -> derived R n n'.
Proof.
  induction n as [data|e kids IH] using node_induction; intros a n' E; simpl in E;
    [discriminate|].
  destruct (matches sel a e) eqn:Hm.
  - injection E as <-. constructor; [now apply (Hf a)|].
    rewrite <- (list_fmap_id kids) at 2. apply thinned_all, Forall_forall.
    intros; apply derived_refl.
  - destruct (first_of _ kids) as [kids'|] eqn:Ek; [|discriminate].
    injection E as <-. constructor; [reflexivity|].
    apply (derived_first_of _ _ _ (Forall_impl _ _ _ IH (fun k Hk => Hk (e :: a))) Ek).
Qed.

Lemma derived_forAll n : derived R n (forAll sel f n).
Proof. apply derived_touch_matching. Qed.

Lemma derived_forFirst n : derived R n (forFirst sel f n).
Proof.
  destruct n as [data|e kids]; simpl; [constructor|].
  destruct (first_of _ kids) as [kids'|] eqn:Ek; [|apply derived_refl].
  constructor; [reflexivity|].
  refine (derived_first_of _ _ _ _ Ek). apply Forall_forall.
  intros k _ k'. apply derived_touch_first.
Qed.
End touch.
End derivations.

(** ** Hidden cells *)

Section seen.
Context (R : element -> element -> Prop) `{!PreOrder R} (sel : selector).
(** [R] relates elements that [sel] cannot tell apart. *)
Context (Hsel : forall a a' e e',
           Forall2 R a a' -> R e e' -> matches sel a' e' = matches sel a e).
Context (Q : element -> Prop) (HQ : forall e e', R e e' -> Q e -> Q e').

(** What holds at the matches of a tree holds at those of a tree derived
    from it. *)
Lemma matching_derived n : forall n' a a',
  derived R n n' -> Forall2 R a a' ->
  Forall (at_root Q) (matching sel a n) -> Forall (at_root Q) (matching sel a' n').
Proof.
  induction n as [data|e kids IH] using node_induction; intros n' a a' Hd Ha Hq;
    inversion Hd as [|? e' ? kids' He Hk]; subst; [constructor|].
  rewrite matching_Element in *. apply Forall_app in Hq as [Hq1 Hq2].
  apply Forall_app. split.
  - rewrite (Hsel a a' e e' Ha He). destruct (matches sel a e); [|constructor].
    rewrite Forall_singleton in *. exact (HQ e e' He Hq1).
  - simpl in *. apply Forall_flat_map, Forall_forall. intros k' Hk'.
    destruct (thinned_elem _ _ _ _ Hk Hk') as (k & Hin & Hkk').
    rewrite Forall_forall in IH. apply (IH k Hin k' (e :: a) (e' :: a') Hkk').
    + now constructor.
    + rewrite Forall_flat_map, Forall_forall in Hq2. now apply Hq2.
Qed.

Lemma below_derived n n' a a' :
  derived R n n' -> Forall2 R a a' ->
  Forall (at_root Q) (below sel a n) -> Forall (at_root Q) (below sel a' n').
Proof.
  intros Hd Ha Hq. inversion Hd as [|e e' kids kids' He Hk]; subst; [constructor|].
  simpl in *. apply Forall_flat_map, Forall_forall. intros k' Hk'.
  destruct (thinned_elem _ _ _ _ Hk Hk') as (k & Hin & Hkk').
  apply (matching_derived k k' (e :: a) (e' :: a') Hkk'); [now constructor|].
  rewrite Forall_flat_map, Forall_forall in Hq. now apply Hq.
Qed.

(** Touching the matches of [sel] with an [f] that gives [Q] leaves [Q] at
    every match. *)
Lemma matching_touched (f : element -> element) :
  (forall a e, matches sel a e = true -> R e (f e)) ->
  (forall e, Q (f e)) ->
  forall n a a',
    Forall2 R a a' ->
    Forall (at_root Q) (matching sel a' (touch sel f a (touch_matching sel f a n))).
Proof.
  intros Hf Hq. induction n as [data|e kids IH] using node_induction; intros a a' Ha;
    [constructor|].
  change (touch_matching sel f a (Element e kids))
    with (Element e (List.map (fun k => touch sel f (e :: a)
                                          (touch_matching sel f (e :: a) k)) kids)).
  cbn [touch].
  assert (G : forall e', R e e' ->
            Forall (at_root Q)
              (flat_map (matching sel (e' :: a'))
                 (List.map (fun k => touch sel f (e :: a)
                                       (touch_matching sel f (e :: a) k)) kids))).
  { intros e' He. rewrite flat_map_concat_map, map_map, <- flat_map_concat_map.
    apply Forall_flat_map. eapply Forall_impl; [exact IH|]. intros k Hk.
    apply Hk. now constructor. }
  destruct (matches sel a e) eqn:Hm; rewrite matching_Element; apply Forall_app; split.
  - destruct (matches sel a' (f e)); constructor; [apply Hq | constructor].
  - apply G. now apply (Hf a).
  - rewrite (Hsel a a' e e Ha) by reflexivity. rewrite Hm. constructor.
  - apply G. reflexivity.
Qed.

Lemma below_forAll (f : element -> element) n :
  (forall a e, matches sel a e = true -> R e (f e)) ->
  (forall e, Q (f e)) ->
  Forall (at_root Q) (below sel [] (forAll sel f n)).
Proof.
  intros Hf Hq. destruct n as [data|e kids]; [constructor|]. unfold forAll. simpl.
  rewrite flat_map_concat_map, map_map, <- flat_map_concat_map.
  apply Forall_flat_map, Forall_forall. intros k _.
  apply matching_touched; auto. constructor; [reflexivity|constructor].
Qed.
End seen.

Lemma find_set_declaration p v l :
  List.find (fun d => bool_decide (d.1 = p)) (set_declaration p v l) = Some (p, v).
Proof.
  induction l as [|d l IH]; simpl.
  - now rewrite bool_decide_eq_true_2.
  - destruct (bool_decide (d.1 = p)) eqn:E; simpl.
    + now rewrite bool_decide_eq_true_2.
    + now rewrite E.
Qed.

Lemma find_set_declaration_ne q p v l :
  q <> p ->
  List.find (fun d => bool_decide (d.1 = q)) (set_declaration p v l)
  = List.find (fun d => bool_decide (d.1 = q)) l.
Proof.
  intros Hqp. induction l as [|d l IH]; simpl.
  - now rewrite bool_decide_eq_false_2 by congruence.
  - destruct (bool_decide (d.1 = p)) eqn:E; simpl.
    + apply bool_decide_eq_true in E.
      now rewrite !bool_decide_eq_false_2 by congruence.
    + destruct (bool_decide (d.1 = q)); [reflexivity | exact IH].
Qed.

Lemma getStyle_setStyle q p v e :
  getStyle q (setStyle p v e) = if bool_decide (q = p) then Some v else getStyle q e.
Proof.
  unfold getStyle, setStyle; simpl. case_bool_decide as E.
  - subst. now rewrite find_set_declaration.
  - now rewrite find_set_declaration_ne.
Qed.

Lemma getAttribute_removeAttribute_ne a b e :
  a <> b -> getAttribute a (removeAttribute b e) = getAttribute a e.
Proof.
  intros Hab. unfold getAttribute, removeAttribute; simpl.
  induction (attributes e) as [|p l IH]; simpl; [reflexivity|].
  destruct (bool_decide (p.1 = b)) eqn:Eb; simpl.
  - apply bool_decide_eq_true in Eb.
    rewrite (bool_decide_eq_false_2 (p.1 = a)) by congruence. exact IH.
  - destruct (bool_decide (p.1 = a)); [reflexivity | exact IH].
Qed.

(** In a configuration where no key comes twice, the column of a key is the
    only one. *)
Lemma key_unique (l : list columnSpec) c c' :
  NoDup (key <$> l) -> c ∈ l -> c' ∈ l -> key c' = key c -> c' = c.
Proof.
  induction l as [|x l IH]; intros Hnd Hc Hc' Hk; [now apply not_elem_of_nil in Hc|].
  simpl in Hnd. apply NoDup_cons in Hnd as [Hx Hnd].
  apply elem_of_cons in Hc as [->|Hc], Hc' as [->|Hc']; auto.
  - destruct Hx. rewrite <- Hk. now apply list_elem_of_fmap_2.
  - destruct Hx. rewrite Hk. now apply list_elem_of_fmap_2.
Qed.

(** * More of the module *)

(** ** What a publish returns, and what it sends *)

Lemma bind_Throw {A B : Type} (m : M A) (f : A -> M B) w e w' :
  (m ≫= f) w = (Throw e, w') ->
  m w = (Throw e, w')
  \/ exists a w1, m w = (Normal a, w1) /\ f a w1 = (Throw e, w').
Proof.
  rewrite bind_run. destruct (m w) as [[a|e0] w1]; [eauto|].
  intros H. left. now simplify_eq.
Qed.

Lemma save_Throw path html w e w' :
  save path html w = (Throw e, w') ->
  (exists se, e = Rethrown se) /\
  calls w' = calls w ++ [remove_request [path]; upload_request path] /\
  rows w' = rows w /\
  currentBroadcast w' = currentBroadcast w /\
  console w' = console w.
Proof.
  unfold save, storage_remove, storage_upload. run. unfold files, rows.
  destruct (outages (remote w)) as [|[status|] [|[status'|] rest]] eqn:Ho; simpl;
    repeat (case_match; simpl in * ); intros; simplify_eq; simpl;
    rewrite <- ?app_assoc; simpl; repeat split; eauto.
Qed.

Lemma record_Throw o found generated u f t w e w' :
  record o found generated u f t w = (Throw e, w') ->
  (exists se, e = Rethrown se) /\
  calls w'
  = calls w ++ [match found with
                | Some b => update_request (b_id b)
                | None => insert_request generated
                end] /\
  rows w' = rows w /\
  files w' = files w /\
  currentBroadcast w' = currentBroadcast w /\
  console w' = console w.
Proof.
  unfold record, update_single, insert_single. run. unfold files, rows.
  destruct found as [b|].
  - destruct (outages (remote w)) as [|[status|] rest] eqn:Ho; simpl;
      try discriminate;
      destruct (rows_with (b_id b) (broadcasts (remote w))) as [|b0 [|b1 l]] eqn:Hr;
      simpl; try discriminate; intros; simplify_eq; simpl; repeat split; eauto.
  - destruct (outages (remote w)) as [|[status|] rest] eqn:Ho; simpl;
      try discriminate;
      destruct (rows_of (user_id u) f (broadcasts (remote w))) as [|b0 l] eqn:Hr;
      simpl; try discriminate; intros; simplify_eq; simpl; repeat split; eauto.
Qed.

Lemma result_Throw t w e w' :
  result t w = (Throw e, w') -> currentBroadcast w = None.
Proof.
  unfold result. run. destruct (currentBroadcast w); [discriminate | reflexivity].
Qed.

Lemma forEach_hide_Throw keys : forall clone e,
  forEach_hide keys clone = Throw e -> e = SyntaxError.
Proof.
  induction keys as [|k keys IH]; intros clone e; simpl; [discriminate|].
  rewrite hide_value. destruct (attribute_value k); [apply IH | congruence].
Qed.

(** What a run of [captureTableHTML] leaves: the world as it was, but for the
    line on the console when there is no table. *)
Lemma captureTableHTML_run w :
  match captureTableHTML w with
  | (Normal (Some html), w') => w' = w
  | (Normal None, w') =>
      document_querySelector [compound_sel (class_sel (js "schedule"))] (document w) = None
      /\ w' = with_console
                (console w ++ [console_error [log_text (js "[Broadcast] No schedule table found")]])
                w
  | (Throw e, w') => e = SyntaxError /\ w' = w
  end.
Proof.
  unfold captureTableHTML. run.
  destruct (document_querySelector _ (document w)) as [n|] eqn:Hq; [|auto].
  unfold prepare. destruct (forEach_hide (hiddenCols (readState w)) n) eqn:Hh; simpl; auto.
  split; [|reflexivity]. now apply forEach_hide_Throw in Hh.
Qed.

Lemma existing_console u f : respects (same console) (existing u f).
Proof. unfold existing, select_single, sent. frame. Qed.

Lemma code_of_console found : respects (same console) (code_of found).
Proof. unfold code_of, generateCode. frame. Qed.

Lemma publish_Throw o u w e w' :
  identity w = Some u ->
  publish o u w = (Throw e, w') ->
  rejected o w e w' /\ rows w' = rows w /\ currentBroadcast w' = currentBroadcast w.
Proof.
  intros Hu H. unfold publish in H.
  pose proof (captureTableHTML_run w) as Hcap.
  apply bind_Throw in H as [H | (html & w1 & Hc & H)].
  { rewrite H in Hcap. destruct Hcap as [-> ->]. split; [|auto].
    apply (rejected_selector o w _ w u); auto. now rewrite H. }
  rewrite Hc in Hcap. destruct html as [html|].
  2:{ destruct Hcap as [Hq ->]. unfold throw in H. injection H as <- <-.
      split; [|auto]. apply (rejected_capture o w _ _ u); auto. now rewrite Hc. }
  subst w1.
  apply bind_Throw in H as [H | (state & w1 & Hst & H)]; [discriminate|].
  unfold gets in Hst. injection Hst as <- <-.
  set (t := resolveTitle o (readState w)) in *.
  set (f := deriveFileName t) in *.
  destruct (existing_run u f w)
    as (found & asked & w2 & Hex & Hlook & Hc2 & Hr2 & Hf2 & Hcb2).
  pose proof (existing_console u f w) as K2. rewrite Hex in K2.
  apply bind_Throw in H as [H | (found' & w2' & Hex' & H)]; [congruence|].
  rewrite Hex in Hex'. injection Hex' as <- <-.
  destruct (code_of_returns found w2) as (generated & w3 & Hcode).
  pose proof (code_of_frame found w2) as F3. rewrite Hcode in F3.
  pose proof (code_of_console found w2) as K3. rewrite Hcode in K3.
  apply bind_Throw in H as [H | (generated' & w3' & Hcode' & H)]; [congruence|].
  rewrite Hcode in Hcode'. injection Hcode' as <- <-.
  unfold same, publication, surroundings in *; simpl in *.
  injection F3 as R3 L3 C3 Q3 _ _ _ _ _.
  apply bind_Throw in H as [H | ([] & w4 & Hsave & H)].
  { apply save_Throw in H as ((se & ->) & Hcalls & Hrows & Hcache & Hcons).
    split; [|split; congruence].
    apply (rejected_upload o w _ w' u html asked found se); auto.
    - now rewrite Hc.
    - rewrite Hcalls, Q3, Hc2, <- app_assoc. reflexivity.
    - congruence. }
  apply save_Normal in Hsave as Hs. destruct Hs as (Hc4 & Hr4 & Hf4 & Hcb4).
  assert (K4 : console w4 = console w3).
  { assert (F : respects (same console) (save (htmlPath u f) html)).
    { unfold save, storage_remove, storage_upload, sent, set_schedule_files. frame. }
    specialize (F w3). now rewrite Hsave in F. }
  apply bind_Throw in H as [H | ([] & w5 & Hrec & H)].
  { apply record_Throw in H as ((se & ->) & Hcalls & Hrows & Hfiles & Hcache & Hcons).
    split; [|split; congruence].
    apply (rejected_write o w _ w' u html asked found se
             (match found with
              | Some b => update_request (b_id b)
              | None => insert_request generated
              end)); auto.
    - now rewrite Hc.
    - destruct found; eauto.
    - rewrite Hcalls, Hc4, Q3, Hc2, <- !app_assoc. reflexivity.
    - rewrite Hfiles, Hf4, L3, Hf2. reflexivity.
    - congruence. }
  apply record_Normal in Hrec as (d & request & _ & _ & _ & _ & Hd).
  apply result_Throw in H. congruence.
Qed.

Lemma pushBroadcast_Throw o w e w' :
  pushBroadcast o w = (Throw e, w') ->
  rejected o w e w' /\ rows w' = rows w /\ currentBroadcast w' = currentBroadcast w.
Proof.
  rewrite pushBroadcast_run. set (w0 := with_pushes (pushes w ++ [o]) w). intros H.
  pose proof (authenticate_run w0) as A.
  change (identity w0) with (identity w) in A.
  apply bind_Throw in H as [H | (u & w1 & Ha & H)].
  - destruct (identity w) as [u|] eqn:Hu; [congruence|].
    destruct A as (e' & A & He). rewrite A in H. injection H as <- <-.
    split; [|auto]. now apply rejected_identity.
  - destruct (identity w) as [u'|] eqn:Hu; [|destruct A as (e' & A & _); congruence].
    rewrite A in Ha. injection Ha as <- <-.
    apply publish_Throw in H as (R & Hr & Hc); [|exact Hu].
    split; [|auto].
    assert (Ecap : (captureTableHTML w0).1 = (captureTableHTML w).1)
      by apply captureTableHTML_pushes.
    destruct R as [Hi ? ? ? ?|v ? ? ? ? ?|v ? ? ? ? ? ?|v html asked found se ? ? f Hl ? ? ?
                  |v html asked found se request ? ? f Hl ? ? ? ? ?].
    + change (identity w0) with (identity w) in Hi. congruence.
    + apply (rejected_capture o w e w' v); auto. now rewrite <- Ecap.
    + apply (rejected_selector o w e w' v); auto. now rewrite <- Ecap.
    + apply (rejected_upload o w e w' v html asked found se); auto.
      * now rewrite <- Ecap.
      * revert Hl. now apply lookup_agree.
    + apply (rejected_write o w e w' v html asked found se request); auto.
      * now rewrite <- Ecap.
      * revert Hl. now apply lookup_agree.
Qed.

Lemma save_console path html : respects (same console) (save path html).
Proof. unfold save, storage_remove, storage_upload, sent, set_schedule_files. frame. Qed.

Lemma record_console o found generated u f t :
  respects (same console) (record o found generated u f t).
Proof. unfold record, update_single, insert_single, keep, sent, set_broadcasts. frame. Qed.

(** A run of [pushBroadcast] that returns has written one line to the
    console, the last thing it does. *)
Lemma pushBroadcast_console o w r w' :
  pushBroadcast o w = (Normal r, w') ->
  console w'
  = console w ++ [console_log [log_text (js "[Broadcast] Pushed successfully:");
                               log_text (code r)]].
Proof.
  rewrite pushBroadcast_run. set (w0 := with_pushes (pushes w ++ [o]) w). intros H.
  change (console w) with (console w0).
  apply bind_Normal in H as (u & w1 & Ha & H).
  assert (w1 = w0) as ->.
  { pose proof (authenticate_run w0) as A. destruct (identity w0).
    - congruence.
    - destruct A as (e & A & _). congruence. }
  unfold publish in H.
  apply bind_Normal in H as (html & w1 & Hcap & H).
  pose proof (captureTableHTML_run w0) as C. rewrite Hcap in C.
  destruct html as [html|]; [subst w1|discriminate].
  apply bind_Normal in H as (state & w1 & Hst & H).
  unfold gets in Hst. injection Hst as <- <-.
  apply bind_Normal in H as (found & w2 & Hex & H).
  match type of Hex with existing ?a ?b _ = _ => pose proof (existing_console a b w0) as K2 end.
  rewrite Hex in K2.
  apply bind_Normal in H as (generated & w3 & Hcode & H).
  pose proof (code_of_console found w2) as K3. rewrite Hcode in K3.
  apply bind_Normal in H as ([] & w4 & Hsave & H).
  match type of Hsave with save ?p ?h _ = _ => pose proof (save_console p h w3) as K4 end.
  rewrite Hsave in K4.
  apply bind_Normal in H as ([] & w5 & Hrec & H).
  match type of Hrec with
  | record ?a ?b ?c ?d ?e ?f _ = _ => pose proof (record_console a b c d e f w4) as K5
  end.
  rewrite Hrec in K5.
  unfold same in *; simpl in *.
  unfold result in H. run. destruct (currentBroadcast w5) as [d|]; [|discriminate].
  injection H as <- <-. simpl. congruence.
Qed.

(** The record a publication writes has the title of the publication. *)
Lemma saved_title o u f t w found d table request :
  saved o u f t w found d table request -> b_title d = t.
Proof. now intros [b b0 H d'|generated d']. Qed.

(** X1: what a publish that returns gives back. The URL is the viewer's
    address followed by [?c=] and the code returned; the title is the one
    resolved from the options and the editor; the code and the title are
    those of the record the run leaves in [currentBroadcast], which is a row
    of the table; and the run has written one line to the console, its last
    step, with the code. *)
Theorem pushBroadcast_result o w r w' :
  pushBroadcast o w = (Normal r, w') ->
  url r = BROADCAST_VIEWER_URL ++ js "?c=" ++ code r
  /\ title r = resolveTitle o (readState w)
  /\ (exists d,
        currentBroadcast w' = Some d /\ d ∈ rows w'
        /\ b_code d = code r /\ b_title d = title r)
  /\ console w'
     = console w ++ [console_log [log_text (js "[Broadcast] Pushed successfully:");
                                  log_text (code r)]].
Proof.
  intros H. pose proof (pushBroadcast_console _ _ _ _ H) as K.
  apply pushBroadcast_Normal in H as [P _].
  destruct P as [u html asked found d request Hu _ Ht f _ Hs _ _ Hc Hr Hurl].
  split_and!; auto; [congruence|].
  exists d. split_and!; auto.
  - revert Hs. apply saved_elem.
  - revert Hs. apply saved_title.
Qed.

(** The first publish of the studio. *)
Lemma pushBroadcast_result_witness :
  let r := {| code := js "AFKQVZ";
              url := js "https://marcoajello.github.io/skeduler-broadcast/?c=AFKQVZ";
              title := js "Q1 Launch!" |} in
  let w' := (pushBroadcast untitled studio).2 in
  pushBroadcast untitled studio = (Normal r, w')
  /\ url r = BROADCAST_VIEWER_URL ++ js "?c=" ++ code r
  /\ title r = resolveTitle untitled (readState studio)
  /\ (exists d,
        currentBroadcast w' = Some d /\ d ∈ rows w'
        /\ b_code d = code r /\ b_title d = title r)
  /\ console w'
     = console studio ++ [console_log [log_text (js "[Broadcast] Pushed successfully:");
                                       log_text (code r)]].
Proof.
  cbv zeta.
  assert (H : pushBroadcast untitled studio
              = (Normal {| code := js "AFKQVZ";
                           url := js "https://marcoajello.github.io/skeduler-broadcast/?c=AFKQVZ";
                           title := js "Q1 Launch!" |},
                 (pushBroadcast untitled studio).2)) by (vm_compute; reflexivity).
  split; [exact H|]. exact (pushBroadcast_result _ _ _ _ H).
Defined.

(** X2: the requests of a run of [pushBroadcast]. A run that returns has
    sent, in this order: the lookup by user and file name, unless a record is
    cached; the delete and the upload of the path of the snapshot; and one
    write of the record, the update of the cached record when there is one.
    A run that throws has sent nothing; or the lookup, the delete and the
    upload; or these and the write. So a record is never written before the
    snapshot is uploaded, and no run writes twice. *)
Theorem pushBroadcast_requests o w :
  let f := deriveFileName (resolveTitle o (readState w)) in
  (forall r w',
     pushBroadcast o w = (Normal r, w') ->
     exists u write,
       identity w = Some u
       /\ calls w'
          = calls w ++ lookup_requests w u f
              ++ [remove_request [htmlPath u f]; upload_request (htmlPath u f); write]
       /\ is_write write = true
       /\ (forall b, currentBroadcast w = Some b -> write = update_request (b_id b)))
  /\ (forall e w',
        pushBroadcast o w = (Throw e, w') ->
        calls w' = calls w
        \/ exists u,
             identity w = Some u
             /\ (calls w'
                 = calls w ++ lookup_requests w u f
                     ++ [remove_request [htmlPath u f]; upload_request (htmlPath u f)]
                 \/ exists write,
                      calls w'
                      = calls w ++ lookup_requests w u f
                          ++ [remove_request [htmlPath u f]; upload_request (htmlPath u f);
                              write]
                      /\ is_write write = true
                      /\ (forall b, currentBroadcast w = Some b ->
                                    write = update_request (b_id b)))).
Proof.
  intros f.
  assert (A : forall u asked found,
            lookup w u f asked found ->
            asked = lookup_requests w u f
            /\ forall b, currentBroadcast w = Some b -> found = Some b).
  { intros u asked found [b Hb|b Hb Hd Hr|Hb Hd]; unfold lookup_requests; rewrite Hb;
      (split; [reflexivity|]); congruence. }
  split.
  - intros r w' H. apply pushBroadcast_Normal in H as [P _].
    destruct P as [u html asked found d request Hu _ Ht f' Hl Hs Hcalls _ _ _ _].
    subst f'. rewrite Ht in *. fold f in Hl, Hs, Hcalls.
    destruct (A _ _ _ Hl) as [-> Hcached].
    exists u, request. split_and!; auto.
    + destruct Hs; reflexivity.
    + intros b Hb. specialize (Hcached b Hb). subst found.
      inversion Hs; subst. reflexivity.
  - intros e w' H. apply pushBroadcast_Throw in H as [R _].
    destruct R as [? ? Hc ? ?|v ? ? ? Hc ?|v ? ? ? Hc ? ?|v html asked found se ? ? f' Hl ? Hc ?
                  |v html asked found se request ? ? f' Hl ? Hq Hc ? ?]; auto.
    + right. exists v. split; [assumption|]. left. subst f'. fold f in Hl, Hc.
      now destruct (A _ _ _ Hl) as [-> _].
    + right. exists v. split; [assumption|]. right. subst f'. fold f in Hl, Hc.
      destruct (A _ _ _ Hl) as [-> Hcached]. exists request. split_and!; auto.
      * destruct found; [now subst | destruct Hq as [c ->]; reflexivity].
      * intros b Hb. specialize (Hcached b Hb). subst found. exact Hq.
Qed.

(** ** The steps of a publication, forwards *)

Lemma generateCode_loop_stream n : forall code w1 w2,
  random w1 = random w2 -> drawn w1 = drawn w2 ->
  (generateCode_loop n code w1).1 = (generateCode_loop n code w2).1.
Proof.
  induction n as [|n IH]; intros code w1 w2 Hr Hd; [reflexivity|].
  rewrite !generateCode_loop_S, !bind_run. unfold Math_random. rewrite Hr, Hd.
  apply IH; simpl; congruence.
Qed.

Lemma existing_stream u f :
  respects (same (fun w => (random w, drawn w, clock w, console w))) (existing u f).
Proof. unfold existing, select_single, sent. frame. Qed.

Lemma existing_outages u f w :
  outages (remote (existing u f w).2) = outages_after_lookup w.
Proof.
  unfold existing, select_single, outages_after_lookup. run.
  destruct (currentBroadcast w); [reflexivity|].
  destruct (outages (remote w)) as [|[s|] rest] eqn:Ho; simpl; [|reflexivity|];
    destruct (rows_of _ _ _) as [|? [|? ?]]; simpl; auto.
Qed.

Lemma code_of_remote found :
  respects (same (fun w => (remote w, clock w, console w))) (code_of found).
Proof. unfold code_of, generateCode. frame. Qed.

(** A code is generated, from six numbers, unless the record found has
    one. *)
Lemma code_of_drawn found w : drawn (code_of found w).2 = (drawn w + draws found)%nat.
Proof.
  assert (G : drawn (generateCode w).2 = (drawn w + 6)%nat).
  { unfold generateCode. destruct (generateCode_loop_run 6 [] w) as (c & -> & _).
    reflexivity. }
  unfold code_of, draws. destruct found as [b|]; [|exact G].
  destruct (truthy (b_code b)); [|exact G]. simpl. lia.
Qed.

(** A publication up to its requests to the bucket: the user, the snapshot,
    the record found and the code for a new record. *)
Lemma pushBroadcast_steps o w u html :
  identity w = Some u ->
  (captureTableHTML w).1 = Normal (Some html) ->
  let t := resolveTitle o (readState w) in
  let f := deriveFileName t in
  exists asked found generated w3,
    lookup w u f asked found
    /\ (found = None -> (generateCode w).1 = Normal generated)
    /\ pushBroadcast o w
       = (save (htmlPath u f) html ≫= fun _ =>
          record o found generated u f t ≫= fun _ => result t) w3
    /\ calls w3 = calls w ++ asked
    /\ rows w3 = rows w /\ files w3 = files w
    /\ currentBroadcast w3 = currentBroadcast w
    /\ outages (remote w3) = outages_after_lookup w
    /\ clock w3 = clock w /\ console w3 = console w
    /\ drawn w3 = (drawn w + draws found)%nat.
Proof.
  intros Hu Hcap t f.
  rewrite pushBroadcast_run. set (w0 := with_pushes (pushes w ++ [o]) w).
  pose proof (authenticate_run w0) as A.
  change (identity w0) with (identity w) in A. rewrite Hu in A.
  rewrite bind_run, A. unfold publish. rewrite bind_run.
  pose proof (captureTableHTML_run w0) as C.
  pose proof (captureTableHTML_pushes (pushes w ++ [o]) w) as E. fold w0 in E.
  rewrite Hcap in E.
  destruct (captureTableHTML w0) as [[[html'|]|e] w1]; simpl in E; try discriminate.
  injection E as ->. subst w1.
  rewrite bind_run. unfold gets at 1.
  change (readState w0) with (readState w). fold t f.
  destruct (existing_run u f w0)
    as (found & asked & w2 & Hex & Hlook & Hc2 & Hr2 & Hf2 & Hcb2).
  pose proof (existing_stream u f w0) as S2.
  pose proof (existing_outages u f w0) as O2.
  rewrite Hex in S2, O2. simpl in O2.
  rewrite bind_run, Hex.
  destruct (code_of_returns found w2) as (generated & w3 & Hcode).
  pose proof (code_of_frame found w2) as F3.
  pose proof (code_of_remote found w2) as R3.
  rewrite Hcode in F3, R3.
  rewrite bind_run, Hcode.
  unfold same, publication, surroundings in *; simpl in *.
  injection F3 as Q3 L3 C3 K3 _ _ _ _ _.
  injection R3 as M3 T3 N3. injection S2 as Sr Sd St Sc.
  assert (G : found = None -> (generateCode w).1 = Normal generated).
  { intros ->. unfold code_of in Hcode.
    transitivity (generateCode w2).1; [|now rewrite Hcode].
    apply (generateCode_loop_stream 6 [] w w2); simpl in *; congruence. }
  assert (O : outages (remote w3) = outages_after_lookup w) by (rewrite M3; exact O2).
  assert (L : lookup w u f asked found) by (revert Hlook; now apply lookup_agree).
  change (rows w0) with (rows w) in Hr2. change (files w0) with (files w) in Hf2.
  assert (D : drawn w3 = (drawn w + draws found)%nat).
  { pose proof (code_of_drawn found w2) as D. rewrite Hcode in D. simpl in D.
    rewrite D, Sd. reflexivity. }
  exists asked, found, generated, w3. split_and!; auto; congruence.
Qed.

Lemma app_changed {A : Type} (l x : list A) : x <> [] -> l ++ x <> l.
Proof.
  intros Hx H. apply Hx. apply (app_inv_head l). now rewrite app_nil_r.
Qed.

(** X3: a run of [pushBroadcast] that throws leaves the cached record and
    the table as they were. It rejects for the identity exactly when the
    world has none, for the capture exactly when there is an identity and
    [captureTableHTML] returns [null], and with an error of the store exactly
    when it has sent requests; for any other error the store is untouched.
    It never throws the [TypeError] of reading [currentBroadcast.code]. *)
Theorem pushBroadcast_rejected o w e w' :
  pushBroadcast o w = (Throw e, w') ->
  currentBroadcast w' = currentBroadcast w
  /\ rows w' = rows w
  /\ (failure_of e = AuthError <-> identity w = None)
  /\ (failure_of e = CaptureError
      <-> is_Some (identity w) /\ (captureTableHTML w).1 = Normal None)
  /\ (failure_of e = StoreError <-> calls w' <> calls w)
  /\ (failure_of e <> StoreError -> remote w' = remote w)
  /\ e <> TypeError.
Proof.
  intros H. apply pushBroadcast_Throw in H as (R & Hr & Hc).
  split; [assumption|]. split; [assumption|].
  assert (N : forall (l : list request) q1 q2 qs, l ++ q1 :: q2 :: qs <> []).
  { intros [|? ?] ? ? ? ?; discriminate. }
  split_and!.
  - destruct R; subst; simpl in *; split; congruence.
  - destruct R; subst; simpl in *;
      (split; [intros ?; try congruence; split; eauto | intros [[? ?] ?]; congruence]).
  - destruct R as [? ? Hcalls ? ?|? ? ? ? Hcalls ?|? ? ? ? Hcalls ? ?
                  |? ? ? ? ? ? ? ? ? ? Hcalls ?|? ? ? ? ? ? ? ? ? ? ? ? Hcalls ? ?];
      subst; simpl in *; rewrite Hcalls;
      (split; [intros ?; try congruence; now apply app_changed
              |intros ?; try reflexivity; congruence]).
  - destruct R; subst; simpl in *; intros ?; congruence.
  - destruct R; subst; simpl in *; intros ?; subst; simpl in *; congruence.
Qed.

(** The studio when the third request, the upload, does not get through. *)
Lemma pushBroadcast_rejected_witness :
  let w := with_outages [None; None; Some 503%N] studio in
  let e := Rethrown (Unavailable 503) in
  let w' := (pushBroadcast untitled w).2 in
  pushBroadcast untitled w = (Throw e, w')
  /\ currentBroadcast w' = currentBroadcast w
  /\ rows w' = rows w
  /\ (failure_of e = AuthError <-> identity w = None)
  /\ (failure_of e = CaptureError
      <-> is_Some (identity w) /\ (captureTableHTML w).1 = Normal None)
  /\ (failure_of e = StoreError <-> calls w' <> calls w)
  /\ (failure_of e <> StoreError -> remote w' = remote w)
  /\ e <> TypeError.
Proof.
  cbv zeta.
  assert (H : pushBroadcast untitled (with_outages [None; None; Some 503%N] studio)
              = (Throw (Rethrown (Unavailable 503)),
                 (pushBroadcast untitled (with_outages [None; None; Some 503%N] studio)).2))
    by (vm_compute; reflexivity).
  split; [exact H|]. exact (pushBroadcast_rejected _ _ _ _ H).
Defined.

(** ** Requests that fail *)

Lemma save_upload_down path html w s rest :
  outages (remote w) = None :: Some s :: rest ->
  exists w',
    save path html w = (Throw (Rethrown (Unavailable s)), w')
    /\ files w' = delete path (files w)
    /\ rows w' = rows w
    /\ currentBroadcast w' = currentBroadcast w
    /\ calls w' = calls w ++ [remove_request [path]; upload_request path].
Proof.
  intros Ho. unfold save, storage_remove, storage_upload. run. unfold files, rows.
  rewrite Ho. simpl. eexists. split; [reflexivity|]. simpl.
  rewrite <- app_assoc. auto.
Qed.

Lemma save_remove_down path html w s :
  outages (remote w) = [Some s] ->
  files w !! path = None ->
  exists w',
    save path html w = (Normal tt, w')
    /\ files w' = <[path := html]> (files w)
    /\ rows w' = rows w
    /\ currentBroadcast w' = currentBroadcast w
    /\ calls w' = calls w ++ [remove_request [path]; upload_request path].
Proof.
  intros Ho Hf. unfold save, storage_remove, storage_upload. run. unfold files, rows in *.
  rewrite Ho. simpl. rewrite Hf. simpl. eexists. split; [reflexivity|]. simpl.
  rewrite <- app_assoc. auto.
Qed.

Lemma save_remove_down_exists path html w s old :
  outages (remote w) = [Some s] ->
  files w !! path = Some old ->
  exists w',
    save path html w = (Throw (Rethrown AlreadyExists), w')
    /\ files w' = files w
    /\ rows w' = rows w
    /\ currentBroadcast w' = currentBroadcast w
    /\ calls w' = calls w ++ [remove_request [path]; upload_request path].
Proof.
  intros Ho Hf. unfold save, storage_remove, storage_upload. run. unfold files, rows in *.
  rewrite Ho. simpl. rewrite Hf. simpl. eexists. split; [reflexivity|]. simpl.
  rewrite <- app_assoc. auto.
Qed.

(** The write of the record and the result, whether they return or throw:
    one request, and the bucket as it was. *)
Lemma record_result_run o found generated u f t w :
  let c := (record o found generated u f t ≫= fun _ => result t) w in
  calls c.2
  = calls w ++ [match found with
                | Some b => update_request (b_id b)
                | None => insert_request generated
                end]
  /\ files c.2 = files w.
Proof.
  cbv zeta. rewrite bind_run.
  destruct (record o found generated u f t w) as [[[]|e] w5] eqn:Hrec.
  - apply record_Normal in Hrec as (d & request & Hs & Hg & Hcalls & Hfiles & Hd).
    assert (Hq : request = match found with
                           | Some b => update_request (b_id b)
                           | None => insert_request generated
                           end).
    { destruct found as [b|].
      - now inversion Hs.
      - apply saved_missing in Hs as (_ & _ & _ & _ & _ & ->). now rewrite Hg. }
    unfold result. run. rewrite Hd. simpl. unfold files in *. simpl.
    now rewrite Hcalls, Hfiles, Hq.
  - apply record_Throw in Hrec as (_ & Hcalls & _ & Hfiles & _). simpl. auto.
Qed.

(** X4: the delete and the upload are two requests. When the delete gets
    through and the upload does not, [pushBroadcast] rejects with the error
    of the upload, the record is not written, and the snapshot that was
    stored under the path is gone. *)
Theorem pushBroadcast_upload_fails o w u html s rest :
  identity w = Some u ->
  (captureTableHTML w).1 = Normal (Some html) ->
  outages_after_lookup w = None :: Some s :: rest ->
  let path := htmlPath u (deriveFileName (resolveTitle o (readState w))) in
  exists w',
    pushBroadcast o w = (Throw (Rethrown (Unavailable s)), w')
    /\ files w' = delete path (files w)
    /\ rows w' = rows w
    /\ currentBroadcast w' = currentBroadcast w
    /\ last (calls w') = Some (upload_request path).
Proof.
  intros Hu Hcap Ho path.
  destruct (pushBroadcast_steps o w u html Hu Hcap)
    as (asked & found & generated & w3 & _ & _ & -> & Hc & Hr & Hf & Hcb & Hos & _).
  rewrite Ho in Hos.
  destruct (save_upload_down path html w3 s rest Hos) as (w' & Hsave & ? & ? & ? & Hcalls).
  exists w'. rewrite bind_run. fold path. rewrite Hsave.
  split_and!; try congruence.
  rewrite Hcalls. apply last_Some.
  now exists (calls w3 ++ [remove_request [path]]); rewrite <- app_assoc.
Qed.

(** The studio publishes, and publishes again when the upload fails: the
    snapshot of the first publish is gone. *)
Lemma pushBroadcast_upload_fails_witness :
  let first := (pushBroadcast untitled studio).2 in
  let w := with_outages [None; Some 503%N] first in
  let path := js "u1/Q1_Launch_.html" in
  is_Some (files w !! path)
  /\ exists w',
       pushBroadcast untitled w = (Throw (Rethrown (Unavailable 503)), w')
       /\ files w' = delete path (files w)
       /\ rows w' = rows w
       /\ currentBroadcast w' = currentBroadcast w
       /\ last (calls w') = Some (upload_request path).
Proof.
  cbv zeta. split; [vm_compute; eauto|].
  set (w := with_outages _ _).
  assert (Hu : identity w = Some {| user_id := js "u1" |}) by (vm_compute; reflexivity).
  assert (Hcap : exists html, (captureTableHTML w).1 = Normal (Some html))
    by (vm_compute; eauto).
  destruct Hcap as [html Hcap].
  assert (Ho : outages_after_lookup w = [None; Some 503%N]) by (vm_compute; reflexivity).
  exact (pushBroadcast_upload_fails untitled w _ html _ _ Hu Hcap Ho).
Defined.

(** X5: a delete that fails is ignored (the [catch] of line 204): the
    upload is sent all the same. Without a file under the path the snapshot
    is stored and the run goes on to the write of the record; with one, the
    upload, which does not overwrite, is refused, [pushBroadcast] rejects
    with that error and the bucket and the table stay as they were. *)
Theorem pushBroadcast_delete_fails o w u html s :
  identity w = Some u ->
  (captureTableHTML w).1 = Normal (Some html) ->
  outages_after_lookup w = [Some s] ->
  let path := htmlPath u (deriveFileName (resolveTitle o (readState w))) in
  let w' := (pushBroadcast o w).2 in
  match files w !! path with
  | None =>
      files w' = <[path := html]> (files w)
      /\ exists asked request,
           calls w'
           = calls w ++ asked ++ [remove_request [path]; upload_request path; request]
  | Some old =>
      (pushBroadcast o w).1 = Throw (Rethrown AlreadyExists)
      /\ files w' = files w /\ rows w' = rows w
      /\ last (calls w') = Some (upload_request path)
  end.
Proof.
  intros Hu Hcap Ho path.
  destruct (pushBroadcast_steps o w u html Hu Hcap)
    as (asked & found & generated & w3 & _ & _ & -> & Hc & Hr & Hf & Hcb & Hos & _).
  rewrite Ho in Hos. fold path. cbv zeta. rewrite bind_run.
  destruct (files w !! path) as [old|] eqn:Hold; rewrite <- Hf in Hold.
  - destruct (save_remove_down_exists path html w3 s old Hos Hold)
      as (w' & -> & ? & ? & ? & Hcalls).
    simpl. split_and!; try congruence.
    rewrite Hcalls. apply last_Some.
    now exists (calls w3 ++ [remove_request [path]]); rewrite <- app_assoc.
  - destruct (save_remove_down path html w3 s Hos Hold) as (w4 & -> & Hf4 & ? & ? & Hcalls).
    destruct (record_result_run o found generated u
                (deriveFileName (resolveTitle o (readState w)))
                (resolveTitle o (readState w)) w4) as [Q1 Q2].
    split; [congruence|]. eexists asked, _.
    rewrite Q1, Hcalls, Hc, <- !app_assoc. reflexivity.
Qed.

(** The studio publishes, and publishes again when the delete fails: the
    snapshot of the first publish is in the way. *)
Lemma pushBroadcast_delete_fails_witness :
  let first := (pushBroadcast untitled studio).2 in
  let w := with_outages [Some 503%N] first in
  let path := js "u1/Q1_Launch_.html" in
  let w' := (pushBroadcast untitled w).2 in
  is_Some (files w !! path)
  /\ (pushBroadcast untitled w).1 = Throw (Rethrown AlreadyExists)
  /\ files w' = files w /\ rows w' = rows w
  /\ last (calls w') = Some (upload_request path).
Proof.
  cbv zeta. set (w := with_outages _ _).
  assert (Hu : identity w = Some {| user_id := js "u1" |}) by (vm_compute; reflexivity).
  assert (Hcap : exists html, (captureTableHTML w).1 = Normal (Some html))
    by (vm_compute; eauto).
  destruct Hcap as [html Hcap].
  assert (Ho : outages_after_lookup w = [Some 503%N]) by (vm_compute; reflexivity).
  assert (Hf : files w !! js "u1/Q1_Launch_.html" = Some html).
  { revert Hcap. vm_compute. congruence. }
  split; [eauto|].
  pose proof (pushBroadcast_delete_fails untitled w _ html _ Hu Hcap Ho) as H.
  cbv zeta in H.
  change (htmlPath _ _) with (js "u1/Q1_Launch_.html") in H.
  rewrite Hf in H. exact H.
Defined.

(** X6: the [auto_update] of the record a publish leaves. An [autoUpdate]
    given in the options is stored as it is. Without one, a cached record
    gives its own flag (that of the cache, whatever the row holds by then);
    without a cached record, the row that was found gives its flag, and a
    record newly created gets [false]. *)
Theorem pushBroadcast_auto_update o w r w' :
  pushBroadcast o w = (Normal r, w') ->
  exists d,
    currentBroadcast w' = Some d
    /\ d ∈ rows w'
    /\ (forall v, opt_autoUpdate o = Some v -> b_auto_update d = v)
    /\ (opt_autoUpdate o = None ->
        match currentBroadcast w with
        | Some b => b_auto_update d = b_auto_update b
        | None =>
            if bool_decide (b_id d ∈ b_id <$> rows w) then
              exists b, b ∈ rows w /\ b_id b = b_id d
                        /\ b_auto_update d = b_auto_update b
            else b_auto_update d = false
        end).
Proof.
  intros H. apply pushBroadcast_Normal in H as [P _].
  destruct P as [u html asked found d request Hu _ Ht f Hl Hs _ _ Hc _ _].
  exists d. split; [assumption|]. split; [revert Hs; apply saved_elem|].
  split.
  - intros v Hv. destruct Hs as [b b0 H d'|generated d']; subst d'; simpl; now rewrite Hv.
  - intros Hv.
    inversion Hl as [b Hb | b Hb Hdown Hrows | Hb Hmiss]; subst.
    + rewrite Hb. inversion Hs as [b' b0 Hw d' | ]; subst. simpl. now rewrite Hv.
    + rewrite Hb.
      assert (E : b ∈ rows_of (user_id u) f (rows w)) by (rewrite Hrows; apply list_elem_of_here).
      apply rows_of_elem in E as (E & _).
      apply saved_found in Hs as (-> & _); [|assumption]. simpl.
      rewrite bool_decide_eq_true_2 by now apply list_elem_of_fmap_2.
      exists b. rewrite Hv. auto.
    + rewrite Hb. apply saved_missing in Hs as Hm. destruct Hm as (_ & Hfresh & _).
      rewrite bool_decide_eq_false_2 by assumption.
      inversion Hs; subst. simpl. now rewrite Hv.
Qed.

(** The studio publishes with [autoUpdate] true, then without one. *)
Lemma pushBroadcast_auto_update_witness :
  let first := pushBroadcast {| opt_title := None; opt_autoUpdate := Some true |} studio in
  let w := first.2 in
  let second := pushBroadcast untitled w in
  (exists r, second = (Normal r, second.2))
  /\ exists d,
       currentBroadcast second.2 = Some d
       /\ d ∈ rows second.2
       /\ (forall v, opt_autoUpdate untitled = Some v -> b_auto_update d = v)
       /\ (opt_autoUpdate untitled = None ->
           match currentBroadcast w with
           | Some b => b_auto_update d = b_auto_update b
           | None =>
               if bool_decide (b_id d ∈ b_id <$> rows w) then
                 exists b, b ∈ rows w /\ b_id b = b_id d
                           /\ b_auto_update d = b_auto_update b
               else b_auto_update d = false
           end).
Proof.
  cbv zeta.
  set (w := (pushBroadcast {| opt_title := None; opt_autoUpdate := Some true |} studio).2).
  assert (H : exists r, pushBroadcast untitled w = (Normal r, (pushBroadcast untitled w).2))
    by (vm_compute; eauto).
  split; [exact H|]. destruct H as [r H].
  exact (pushBroadcast_auto_update untitled w r _ H).
Defined.

(** X7: a cached record whose row is no longer in the table. Every run of
    [pushBroadcast] throws, sends no insert, and leaves the cache and the
    table as they were: so does the next run, until the page is loaded
    again. *)
Theorem pushBroadcast_stale_cache o w b :
  currentBroadcast w = Some b ->
  b_id b ∉ b_id <$> rows w ->
  exists e w',
    pushBroadcast o w = (Throw e, w')
    /\ currentBroadcast w' = Some b
    /\ rows w' = rows w
    /\ forall c, insert_request c ∉ drop (length (calls w)) (calls w').
Proof.
  intros Hb Hgone.
  destruct (pushBroadcast o w) as [[r|e] w'] eqn:H.
  - apply pushBroadcast_Normal in H as [P _].
    destruct P as [u html asked found d request _ _ _ f Hl Hs _ _ _ _ _].
    inversion Hl as [b' Hb' | b' Hb' _ _ | Hb' _]; subst; try congruence.
    assert (b' = b) as -> by congruence.
    inversion Hs as [b' b0 Hw d' | ]; subst.
    assert (E : b0 ∈ rows_with (b_id b) (rows w)) by (rewrite Hw; apply list_elem_of_here).
    apply rows_with_elem in E as [E1 E2].
    destruct Hgone. rewrite <- E2. now apply list_elem_of_fmap_2.
  - exists e, w'. apply pushBroadcast_Throw in H as (R & Hr & Hc).
    split_and!; auto; [congruence|]. intros c.
    destruct R as [? ? Hcalls ? ?|? ? ? ? Hcalls ?|? ? ? ? Hcalls ? ?
                  |? ? asked found ? ? ? f Hl ? Hcalls ?
                  |? ? asked found ? request ? ? f Hl ? Hq Hcalls ? ?];
      rewrite Hcalls; rewrite ?drop_app_length, ?drop_all;
      try apply not_elem_of_nil;
      (inversion Hl as [b' Hb' | b' Hb' _ _ | Hb' _]; subst; try congruence);
      simpl; rewrite !elem_of_cons, elem_of_nil; intuition congruence.
Qed.

(** The studio after a publish, its table emptied. *)
Lemma pushBroadcast_stale_cache_witness :
  let w := emptied (pushBroadcast untitled studio).2 in
  exists b,
    currentBroadcast w = Some b /\ (b_id b ∉ b_id <$> rows w)
    /\ exists e w',
         pushBroadcast untitled w = (Throw e, w')
         /\ currentBroadcast w' = Some b
         /\ rows w' = rows w
         /\ forall c, insert_request c ∉ drop (length (calls w)) (calls w').
Proof.
  cbv zeta. set (w := emptied _).
  assert (Hb : exists b, currentBroadcast w = Some b) by (vm_compute; eauto).
  destruct Hb as [b Hb].
  assert (Hgone : b_id b ∉ b_id <$> rows w).
  { replace (rows w) with (@nil broadcast) by (vm_compute; reflexivity).
    apply not_elem_of_nil. }
  exists b. split_and!; auto.
  exact (pushBroadcast_stale_cache untitled w b Hb Hgone).
Defined.

Lemma save_through path html w :
  outages (remote w) = [] ->
  exists w', save path html w = (Normal tt, w').
Proof.
  intros Ho. unfold save, storage_remove, storage_upload. run.
  rewrite !Ho. simpl. rewrite !Ho. simpl. rewrite lookup_delete_eq. simpl. eauto.
Qed.

(** X8: the [error] of the lookup is not read. When the lookup request
    fails and the requests after it get through, [pushBroadcast] takes the
    document for one never published: it generates a code, from the next six
    random numbers, and sends an insert with it after the delete and the
    upload, whatever rows the table holds for the user and the file name. *)
Theorem pushBroadcast_lookup_fails o w u html s :
  identity w = Some u ->
  (captureTableHTML w).1 = Normal (Some html) ->
  currentBroadcast w = None ->
  outages (remote w) = [Some s] ->
  let f := deriveFileName (resolveTitle o (readState w)) in
  exists c,
    (generateCode w).1 = Normal c
    /\ calls (pushBroadcast o w).2
       = calls w ++ [select_request (user_id u) f; remove_request [htmlPath u f];
                     upload_request (htmlPath u f); insert_request c].
Proof.
  intros Hu Hcap Hb Ho f.
  destruct (pushBroadcast_steps o w u html Hu Hcap)
    as (asked & found & generated & w3 & Hl & Hg & -> & Hc & Hr & Hf & Hcb & Hos & _).
  fold f in Hl |- *.
  assert (Hd : down w) by (exists s, []; exact Ho).
  inversion Hl as [b' Hb' | b' Hb' Hup _ | Hb' _]; subst; [congruence|contradiction|].
  exists generated. split; [now apply Hg|].
  unfold outages_after_lookup in Hos. rewrite Hb, Ho in Hos. simpl in Hos.
  destruct (save_through (htmlPath u f) html w3 Hos) as [w4 Hsave].
  rewrite bind_run, Hsave.
  apply save_Normal in Hsave as (Hc4 & _).
  destruct (record_result_run o None generated u f (resolveTitle o (readState w)) w4)
    as [Q _].
  rewrite Q, Hc4, Hc, <- !app_assoc. reflexivity.
Qed.

(** The studio after a publish and a reload, when the lookup fails: the table
    has a row for the user and the file name. *)
Lemma pushBroadcast_lookup_fails_witness :
  let first := (pushBroadcast untitled studio).2 in
  let w := with_outages [Some 503%N] (reloaded first) in
  let second := pushBroadcast untitled w in
  (b_user_id <$> rows w, b_file_name <$> rows w) = ([js "u1"], [js "Q1_Launch_"])
  /\ exists c,
       (generateCode w).1 = Normal c
       /\ calls second.2
          = calls w ++ [select_request (js "u1") (js "Q1_Launch_");
                        remove_request [js "u1/Q1_Launch_.html"];
                        upload_request (js "u1/Q1_Launch_.html"); insert_request c].
Proof.
  cbv zeta. set (w := with_outages _ _).
  split; [vm_compute; reflexivity|].
  assert (Hu : identity w = Some {| user_id := js "u1" |}) by (vm_compute; reflexivity).
  assert (Hcap : exists html, (captureTableHTML w).1 = Normal (Some html))
    by (vm_compute; eauto).
  destruct Hcap as [html Hcap].
  assert (Hb : currentBroadcast w = None) by reflexivity.
  assert (Ho : outages (remote w) = [Some 503%N]) by reflexivity.
  exact (pushBroadcast_lookup_fails untitled w _ html _ Hu Hcap Hb Ho).
Defined.

(** X9: titles with the same file name share a record. After a publish in
    a new session, a publish in another new session by the same user under a
    title whose file name is that of the first title (the titles may
    differ), over the table the first left with one row per user and file
    name and a lookup that gets through, returns the code of the first and
    updates its record: the row keeps its id and now has the second title; no
    row is added. *)
Theorem republish_same_file_name o1 o2 w w1 w1' w2 r1 r2 :
  pushBroadcast o1 w = (Normal r1, w1) ->
  pushBroadcast o2 w1' = (Normal r2, w2) ->
  currentBroadcast w = None -> currentBroadcast w1' = None ->
  rows w1' = rows w1 -> identity w1' = identity w ->
  one_per_file (rows w1) -> ~ down w1' ->
  deriveFileName (title r2) = deriveFileName (title r1) ->
  code r2 = code r1
  /\ id_code <$> rows w2 = id_code <$> rows w1
  /\ exists d1 d2,
       currentBroadcast w1 = Some d1 /\ d1 ∈ rows w1 /\ b_title d1 = title r1
       /\ currentBroadcast w2 = Some d2 /\ d2 ∈ rows w2 /\ b_title d2 = title r2
       /\ b_id d2 = b_id d1
       /\ last (calls w2) = Some (update_request (b_id d1)).
Proof.
  intros H1 H2 Hfirst Hnew Hrows Hid Hone Hup Hname.
  apply pushBroadcast_Normal in H1 as [P1 _], H2 as [P2 _].
  destruct (published_record _ _ _ _ P1) as (d & Hd & Hcode & Hin).
  destruct (published_uncached _ _ _ _ P1 Hfirst) as (u & d' & Hu & Hd' & Hdu & Hdf).
  assert (d' = d) as -> by congruence.
  assert (Ht1 : b_title d = title r1).
  { destruct P1 as [? ? ? ? d0 ? _ _ _ ? _ Hs _ _ Hc0 _ _].
    assert (d0 = d) as -> by congruence. revert Hs. apply saved_title. }
  rewrite <- Hid in Hu. rewrite <- Hname in Hdf. rewrite <- Hrows in Hin.
  destruct (published_found _ _ _ _ u d P2) as (C2 & Hcalls & Hcodes); auto.
  { rewrite Hrows. apply Hone. }
  destruct P2 as [u' html asked found d2 request Hu' _ _ f Hl Hs _ _ Hc2 _ _].
  assert (u' = u) as -> by congruence.
  assert (E : d ∈ rows_of (user_id u) f (rows w1')) by now apply rows_of_elem.
  assert (Hr : rows_of (user_id u) f (rows w1') = [d]).
  { specialize (Hone (user_id u) f). rewrite <- Hrows in Hone.
    destruct (rows_of (user_id u) f (rows w1')) as [|x [|y l]];
      [now apply not_elem_of_nil in E | | simpl in Hone; lia].
    apply list_elem_of_singleton in E. now subst. }
  inversion Hl as [b Hb | b Hb _ Hr' | Hb [Hdn|Hno]]; subst;
    [congruence | | contradiction | now destruct (Hno d)].
  assert (b = d) as -> by congruence.
  pose proof (saved_elem _ _ _ _ _ _ _ _ _ Hs) as Hin2.
  pose proof (saved_title _ _ _ _ _ _ _ _ _ Hs) as Ht2.
  apply saved_found in Hs as (Ed & _); [|assumption].
  split; [congruence|]. split; [now rewrite Hcodes, Hrows|].
  exists d, d2. rewrite <- Hrows. split_and!; auto.
  - now rewrite Ed.
  - rewrite Hcalls. apply last_Some. now eexists (_ ++ [_; _; _]); rewrite <- app_assoc.
Qed.

(** The studio publishes "Q1 Launch!" and, after a reload, "Q1 Launch?". *)
Lemma republish_same_file_name_witness :
  let first := pushBroadcast untitled studio in
  let w1 := first.2 in
  let second := pushBroadcast (titled "Q1 Launch?") (reloaded w1) in
  (exists r1 r2,
     first = (Normal r1, w1) /\ second = (Normal r2, second.2)
     /\ title r1 = js "Q1 Launch!" /\ title r2 = js "Q1 Launch?"
     /\ code r2 = code r1)
  /\ id_code <$> rows second.2 = id_code <$> rows w1
  /\ exists d1 d2,
       currentBroadcast w1 = Some d1 /\ d1 ∈ rows w1 /\ b_title d1 = js "Q1 Launch!"
       /\ currentBroadcast second.2 = Some d2 /\ d2 ∈ rows second.2
       /\ b_title d2 = js "Q1 Launch?"
       /\ b_id d2 = b_id d1
       /\ last (calls second.2) = Some (update_request (b_id d1)).
Proof.
  cbv zeta.
  set (w1 := (pushBroadcast untitled studio).2).
  set (r1 := {| code := js "AFKQVZ";
                url := js "https://marcoajello.github.io/skeduler-broadcast/?c=AFKQVZ";
                title := js "Q1 Launch!" |}).
  set (r2 := {| code := js "AFKQVZ";
                url := js "https://marcoajello.github.io/skeduler-broadcast/?c=AFKQVZ";
                title := js "Q1 Launch?" |}).
  assert (H1 : pushBroadcast untitled studio = (Normal r1, w1)) by (vm_compute; reflexivity).
  assert (H2 : pushBroadcast (titled "Q1 Launch?") (reloaded w1)
               = (Normal r2, (pushBroadcast (titled "Q1 Launch?") (reloaded w1)).2))
    by (vm_compute; reflexivity).
  assert (H4 : one_per_file (rows w1)).
  { replace (rows w1) with [{| b_id := 1; b_code := js "AFKQVZ"; b_user_id := js "u1";
                               b_file_name := js "Q1_Launch_"; b_title := js "Q1 Launch!";
                               b_auto_update := false; b_updated_at := 1000 |}]
      by (vm_compute; reflexivity).
    apply one_per_file_singleton. }
  assert (H5 : ~ down (reloaded w1)) by (apply not_down_nil; vm_compute; reflexivity).
  pose proof (republish_same_file_name untitled (titled "Q1 Launch?") studio w1 (reloaded w1)
                _ r1 r2 H1 H2 eq_refl eq_refl eq_refl eq_refl H4 H5 eq_refl) as (A & B & C).
  split; [exists r1, r2; auto|]. split; [exact B | exact C].
Defined.

(** ** Paths *)

Lemma deriveFileName_safe t : Forall (fun c => alphanumeric c \/ c = 95%N) (deriveFileName t).
Proof.
  induction t as [|c t IH]; [constructor|].
  rewrite deriveFileName_cons. destruct (non_alnum c) eqn:E.
  - constructor; [now right | exact IH].
  - constructor; [|exact IH]. left.
    destruct (decide (alphanumeric c)) as [H|H]; [exact H|].
    apply non_alnum_true in H. congruence.
Qed.

(** Where the last slash of a string is. *)
Lemma app_slash_inj (a a' s s' : jsstring) :
  47%N ∉ s -> 47%N ∉ s' ->
  a ++ 47%N :: s = a' ++ 47%N :: s' -> a = a' /\ s = s'.
Proof.
  intros Hs Hs'. revert a'. induction a as [|x a IH]; intros [|y a'] E; simpl in E.
  - injection E as E. auto.
  - injection E as <- E. destruct Hs. rewrite E.
    apply elem_of_app. right. apply list_elem_of_here.
  - injection E as -> E. destruct Hs'. rewrite <- E.
    apply elem_of_app. right. apply list_elem_of_here.
  - injection E as <- E. destruct (IH a' E) as [-> ->]. auto.
Qed.

Lemma deriveFileName_no_slash t : 47%N ∉ deriveFileName t ++ js ".html".
Proof.
  intros [H|H]%elem_of_app.
  - pose proof (deriveFileName_safe t) as S. rewrite Forall_forall in S.
    apply S in H. unfold alphanumeric in H. lia.
  - revert H. apply (bool_decide_unpack _). vm_compute. exact I.
Qed.

Lemma deriveFileName_fixed t :
  Forall (fun c => alphanumeric c \/ c = 95%N) t -> deriveFileName t = t.
Proof.
  induction 1 as [|c t Hc _ IH]; [reflexivity|].
  rewrite deriveFileName_cons, IH. destruct Hc as [Hc| ->].
  - now rewrite non_alnum_false.
  - reflexivity.
Qed.

(** X10: the path of a snapshot tells the user and the file name: two
    paths made of derived file names are equal only for the same user id and
    the same file name. A derived file name holds only letters, digits and
    underscores (so no slash and no dot), and deriving the file name of a
    file name gives it back. *)
Theorem htmlPath_injective :
  (forall u u' t t',
     htmlPath u (deriveFileName t) = htmlPath u' (deriveFileName t')
     <-> user_id u = user_id u' /\ deriveFileName t = deriveFileName t')
  /\ (forall t, Forall (fun c => alphanumeric c \/ c = 95%N) (deriveFileName t))
  /\ (forall t, deriveFileName (deriveFileName t) = deriveFileName t).
Proof.
  split_and!.
  - intros u u' t t'. split; [|intros [E1 E2]; unfold htmlPath; now rewrite E1, E2].
    unfold htmlPath. change (js "/") with [47%N]. simpl. intros E.
    apply app_slash_inj in E as [E1 E2]; try apply deriveFileName_no_slash.
    split; [exact E1|]. now apply app_inv_tail in E2.
  - apply deriveFileName_safe.
  - intros t. apply deriveFileName_fixed, deriveFileName_safe.
Qed.

(** ** The shape of the snapshot *)

Lemma Forall2_diag {A : Type} (P : A -> A -> Prop) (l : list A) :
  Forall (fun x => P x x) l -> Forall2 P l l.
Proof. induction 1; constructor; auto. Qed.

Lemma Forall2_map_r {A B : Type} (P : A -> B -> Prop) (f : A -> B) (l : list A) :
  Forall (fun x => P x (f x)) l -> Forall2 P l (List.map f l).
Proof. induction 1; simpl; constructor; auto. Qed.

Section restyling.
Context (R : element -> element -> Prop) `{!PreOrder R}.

Lemma restyled_refl n : restyled R n n.
Proof.
  induction n as [data|e kids IH] using node_induction; constructor; [reflexivity|].
  now apply Forall2_diag.
Qed.

Lemma restyled_trans n1 : forall n2 n3,
  restyled R n1 n2 -> restyled R n2 n3 -> restyled R n1 n3.
Proof.
  induction n1 as [data|e kids IH] using node_induction; intros n2 n3 H12 H23.
  - inversion H12; subst. inversion H23; subst. constructor.
  - inversion H12 as [|? e2 ? kids2 He12 Hk12]; subst.
    inversion H23 as [|? e3 ? kids3 He23 Hk23]; subst.
    constructor; [etransitivity; eassumption|].
    clear H12 H23. revert kids3 Hk23.
    induction Hk12 as [|k k2 kids kids2 Hk _ IHk]; intros kids3 Hk23;
      inversion Hk23 as [|? k3 ? kids3' Hk3 Hk23']; subst; constructor.
    + apply Forall_cons in IH as [IH _]. now apply (IH k2).
    + apply Forall_cons in IH as [_ IH]. now apply IHk.
Qed.

#[global] Instance restyled_preorder : PreOrder (restyled R).
Proof. split; [exact restyled_refl | intros n1 n2 n3; apply restyled_trans]. Qed.


Section restyling_touch.
Context (sel : selector) (f : element -> element).
Context (Hf : forall a e, matches sel a e = true -> R e (f e)).

Lemma restyled_touch a n n' : restyled R n n' -> restyled R n (touch sel f a n').
Proof.
  intros H. destruct H as [data|e e' kids kids' He Hk]; simpl; [constructor|].
  destruct (matches sel a e') eqn:Hm; constructor; auto.
  etransitivity; [exact He | now apply (Hf a)].
Qed.

Lemma restyled_touch_matching n : forall a, restyled R n (touch_matching sel f a n).
Proof.
  induction n as [data|e kids IH] using node_induction; intros a; simpl;
    constructor; [reflexivity|].
  apply Forall2_map_r. eapply Forall_impl; [exact IH|].
  intros k Hk. apply restyled_touch, Hk.
Qed.

Lemma restyled_first_of kids kids' (g : node -> option node) :
  Forall (fun k => forall k', g k = Some k' -> restyled R k k') kids ->
  first_of g kids = Some kids' -> Forall2 (restyled R) kids kids'.
Proof.
  intros H. revert kids'. induction H as [|k kids Hk _ IH]; intros kids' E; simpl in E;
    [discriminate|].
  destruct (g k) as [k'|] eqn:Ek.
  - injection E as <-. constructor; [now apply Hk|].
    apply Forall2_diag, Forall_forall. intros; apply restyled_refl.
  - destruct (first_of g kids) as [rest|]; [|discriminate].
    injection E as <-. constructor; [apply restyled_refl | now apply IH].
Qed.

Lemma restyled_touch_first n : forall a n',
  touch_first sel f a n = Some n' -> restyled R n n'.
Proof.
  induction n as [data|e kids IH] using node_induction; intros a n' E; simpl in E;
    [discriminate|].
  destruct (matches sel a e) eqn:Hm.
  - injection E as <-. constructor; [now apply (Hf a)|].
    apply Forall2_diag, Forall_forall. intros; apply restyled_refl.
  - destruct (first_of _ kids) as [kids'|] eqn:Ek; [|discriminate].
    injection E as <-. constructor; [reflexivity|].
    apply (restyled_first_of _ _ _ (Forall_impl _ _ _ IH (fun k Hk => Hk (e :: a))) Ek).
Qed.

Lemma restyled_forAll n : restyled R n (forAll sel f n).
Proof. apply restyled_touch_matching. Qed.

Lemma restyled_forFirst n : restyled R n (forFirst sel f n).
Proof.
  destruct n as [data|e kids]; simpl; [constructor|].
  destruct (first_of _ kids) as [kids'|] eqn:Ek; [|apply restyled_refl].
  constructor; [reflexivity|].
  refine (restyled_first_of _ _ _ _ Ek). apply Forall_forall.
  intros k _ k'. apply restyled_touch_first.
Qed.
End restyling_touch.

(** Removing the matches of a selector that cannot tell related elements
    apart removes the same nodes from a tree and from the tree restyled. *)
Lemma restyled_remove_matching sel :
  (forall a a' e e', R e e' -> matches sel a' e' = matches sel a e) ->
  forall n n' a a',
    restyled R n n' ->
    restyled R (remove_matching sel a n) (remove_matching sel a' n').
Proof.
  intros Hsel. induction n as [data|e kids IH] using node_induction; intros n' a a' H;
    inversion H as [|? e' ? kids' He Hk]; subst; [constructor|].
  simpl. constructor; [assumption|]. clear H.
  induction Hk as [|k k' kids kids' Hk _ IHk]; [constructor|].
  apply Forall_cons in IH as [IH1 IH2]. simpl.
  apply Forall2_app; [|now apply IHk].
  destruct Hk as [data|e1 e1' kids1 kids1' He1 Hk1]; [repeat constructor|].
  rewrite (Hsel (e :: a) (e' :: a') e1 e1' He1).
  destruct (matches sel (e :: a) e1); [constructor|].
  constructor; [|constructor]. apply IH1. now constructor.
Qed.
End restyling.


(** ** The setting *)

(** Unfolding the computations of the page. *)
Ltac run_page :=
  cbv [setAutoEnabled broadcastAutoUpdate_onchange isAutoEnabled init load DOMContentLoaded
       handleEvent navigated localStorage_getItem localStorage_setItem page_gets
       page_modify lift mbind mret Page_bind Page_ret M_bind M_ret modify gets console_write] in *;
  simpl in *.

(** X12: the setting survives a reload. [setAutoEnabled(val)], for a
    boolean, returns, sets the flag [isAutoEnabled()] reads and stores it
    under [broadcastAutoUpdate]. When the module is then loaded in a new page
    of the same browser, [init], run at once or when the document is parsed,
    sets the flag to [val] again; while the document is still loading the
    flag is [false]. The check box of the dialog does what
    [setAutoEnabled] does. *)
Theorem setAutoEnabled_persists val state b :
  let b1 := (setAutoEnabled val b).2 in
  let b2 := (load (navigated state b1)).2 in
  let b3 := if bool_decide (state = js "loading") then (DOMContentLoaded b2).2 else b2 in
  (setAutoEnabled val b).1 = Normal tt
  /\ (isAutoEnabled b1).1 = Normal val
  /\ localStorage b1 !! js "broadcastAutoUpdate" = Some (ToString val)
  /\ (isAutoEnabled b3).1 = Normal val
  /\ (state = js "loading" -> (isAutoEnabled b2).1 = Normal false)
  /\ broadcastAutoUpdate_onchange val b = setAutoEnabled val b.
Proof.
  cbv zeta. run_page. rewrite lookup_insert_eq.
  split_and!; try reflexivity.
  - destruct (bool_decide (state = js "loading")) eqn:E; run_page; rewrite ?E; simpl;
      rewrite ?lookup_insert_eq; now destruct val.
  - intros ->. reflexivity.
Qed.

(** X13: loading the module. It returns, exports [BroadcastManager], and
    starts without a cached record. [init] runs once: at once when the
    document is not loading, and when [DOMContentLoaded] is dispatched
    otherwise, until when the flag is [false] and [init] is the one listener
    added. After it the flag is on exactly when the stored setting is the
    string [true] (off without a setting, or with any other string), one line
    is on the console, and the settings are as they were. *)
Theorem load_initializes state b :
  let b0 := navigated state b in
  let b2 := (load b0).2 in
  let b3 := if bool_decide (state = js "loading") then (DOMContentLoaded b2).2 else b2 in
  let flag := bool_decide (localStorage b !! js "broadcastAutoUpdate" = Some (js "true")) in
  (load b0).1 = Normal tt
  /\ BroadcastManager b2 = true
  /\ currentBroadcast (window b3) = None
  /\ autoBroadcast (window b3) = flag
  /\ console (window b3)
     = console (window b)
         ++ [console_log [log_text (js "[Broadcast] Manager initialized, auto-update:");
                          log_text (ToString flag)]]
  /\ localStorage b3 = localStorage b
  /\ (state = js "loading" ->
      window b2 = with_autoBroadcast false (with_currentBroadcast None (window b))
      /\ listeners b2 = [init_listener]).
Proof.
  cbv zeta. run_page.
  destruct (bool_decide (state = js "loading")) eqn:E; run_page; rewrite ?E; simpl;
    split_and!; try reflexivity; auto.
  intros ->. discriminate.
Qed.

(** X14: the hook obeys the setting. After [setAutoEnabled(val)],
    [hookAutoBroadcast] returns; it has called [pushBroadcast] once, with
    [{ autoUpdate: true }], when [val] is true, and has called nothing and
    changed nothing when [val] is false. The setting stays stored. *)
Theorem setAutoEnabled_hook val b :
  let b1 := (setAutoEnabled val b).2 in
  let after := lift hookAutoBroadcast b1 in
  after.1 = Normal tt
  /\ pushes (window after.2)
     = pushes (window b)
         ++ (if val then [{| opt_title := None; opt_autoUpdate := Some true |}] else [])
  /\ (val = false -> window after.2 = with_autoBroadcast false (window b))
  /\ localStorage after.2 !! js "broadcastAutoUpdate" = Some (ToString val).
Proof.
  cbv zeta. unfold setAutoEnabled, localStorage_setItem, page_modify, lift.
  cbv [mbind Page_bind modify]. simpl.
  unfold hookAutoBroadcast. cbv [mbind M_bind gets]. simpl. destruct val; simpl.
  - unfold console_write, modify, promise_catch. simpl.
    set (auto := {| opt_title := None; opt_autoUpdate := Some true |}).
    set (w0 := with_console _ _).
    pose proof (pushBroadcast_pushes auto w0) as P.
    destruct (pushBroadcast auto w0) as [[r|err] w1]; simpl in *;
      rewrite lookup_insert_eq; split_and!; auto; discriminate.
  - cbv [mret M_ret]. simpl. rewrite lookup_insert_eq, app_nil_r. auto.
Qed.

(** ** The draws of a code *)

Lemma flat_map_seq_S {A : Type} (f : nat -> list A) n : forall a,
  flat_map f (seq (S a) n) = flat_map (fun k => f (S k)) (seq a n).
Proof. induction n as [|n IH]; intros a; simpl; [reflexivity | now rewrite IH]. Qed.

Lemma generateCode_loop_draws n : forall code w,
  (generateCode_loop n code w).1
  = Normal (code ++ flat_map
                      (fun k => charAt chars
                                  (Math_floor_times (random w (drawn w + k))
                                     (N.of_nat (length chars))))
                      (seq 0 n)).
Proof.
  induction n as [|n IH]; intros code w.
  - simpl. now rewrite app_nil_r.
  - rewrite generateCode_loop_S, bind_run. unfold Math_random. rewrite IH.
    cbn [random drawn with_drawn]. rewrite <- app_assoc. do 2 f_equal.
    cbn [seq flat_map]. rewrite Nat.add_0_r. f_equal.
    rewrite flat_map_seq_S. apply flat_map_ext. intros k. now rewrite Nat.add_succ_r.
Qed.

(** X15: a code is its six draws. The [k]-th character of the code
    [generateCode] returns is the character of the alphabet at
    [Math.floor(r * 32)] for the [k]-th number [r] drawn, and that index is
    [i] exactly when [i / 32 <= r < (i + 1) / 32]: each of the 32 characters
    has an equal share of the numbers. *)
Theorem generateCode_draws :
  (forall w,
     (generateCode w).1
     = Normal (flat_map
                 (fun k => charAt chars (Math_floor_times (random w (drawn w + k)) 32))
                 (seq 0 6)))
  /\ (forall r i,
        Math_floor_times r 32 = i
        <-> (i * 2 ^ exponent r <= 32 * (mantissa r mod 2 ^ exponent r)
             < (i + 1) * 2 ^ exponent r)%N).
Proof.
  split.
  - intros w. unfold generateCode. now rewrite generateCode_loop_draws.
  - intros r i. unfold Math_floor_times.
    set (m := (mantissa r mod 2 ^ exponent r)%N). set (p := (2 ^ exponent r)%N).
    assert (Hp : (0 < p)%N) by (apply N.neq_0_lt_0, N.pow_nonzero; lia).
    split.
    + intros <-. pose proof (N.div_mod (m * 32) p ltac:(lia)) as D.
      pose proof (N.mod_upper_bound (m * 32) p ltac:(lia)) as U.
      set (q := (m * 32 / p)%N) in *. set (t := ((m * 32) mod p)%N) in *. nia.
    + intros [H1 H2]. symmetry. apply (N.div_unique (m * 32) p i (m * 32 - i * p)); lia.
Qed.

(** ** A cached record under another title *)

Lemma htmlPath_file u f f' : htmlPath u f = htmlPath u f' -> f = f'.
Proof.
  unfold htmlPath. intros H. apply app_inv_head in H. apply app_inv_head in H.
  now apply app_inv_tail in H.
Qed.

(** X16: a cached record under another title. A publish that returns,
    with a cached record that is a row of the table, keeps the id, the code,
    the user and the file name of the record and gives it the title of the
    publish; the snapshot is stored under the file name of that title. When
    that file name is not the one of the record, the file under the record's
    own file name is left as it was: the record does not name the snapshot
    just stored. *)
Theorem pushBroadcast_cached_retitled o w r w' b :
  pushBroadcast o w = (Normal r, w') ->
  currentBroadcast w = Some b -> b ∈ rows w ->
  exists u d html,
    identity w = Some u
    /\ (captureTableHTML w).1 = Normal (Some html)
    /\ currentBroadcast w' = Some d
    /\ (b_id d, b_code d, b_user_id d, b_file_name d)
       = (b_id b, b_code b, b_user_id b, b_file_name b)
    /\ b_title d = title r
    /\ files w' !! htmlPath u (deriveFileName (title r)) = Some html
    /\ (b_file_name b <> deriveFileName (title r) ->
        files w' !! htmlPath u (b_file_name b) = files w !! htmlPath u (b_file_name b)).
Proof.
  intros H Hb Hin. apply pushBroadcast_Normal in H as [P _].
  destruct P as [u html asked found d request Hu Hcap Ht f Hl Hs _ Hfiles Hc _ _].
  inversion Hl as [b' Hb' | b' Hb' _ _ | Hb' _]; subst; try congruence.
  assert (b' = b) as -> by congruence.
  apply saved_found in Hs as (-> & _); [|assumption].
  eexists u, _, html. split_and!; eauto.
  - subst f. rewrite Hfiles. apply lookup_insert_eq.
  - intros Hne. rewrite Hfiles. apply lookup_insert_ne.
    intros E. apply htmlPath_file in E. subst f. congruence.
Qed.

(** The studio publishes "Q1 Launch!" and then, in the same session,
    "Other". *)
Lemma pushBroadcast_cached_retitled_witness :
  let w := (pushBroadcast untitled studio).2 in
  let second := pushBroadcast (titled "Other") w in
  exists r b u d html,
    second = (Normal r, second.2)
    /\ currentBroadcast w = Some b /\ b_file_name b = js "Q1_Launch_"
    /\ title r = js "Other"
    /\ identity w = Some u
    /\ (captureTableHTML w).1 = Normal (Some html)
    /\ currentBroadcast second.2 = Some d
    /\ (b_id d, b_code d, b_user_id d, b_file_name d)
       = (b_id b, b_code b, b_user_id b, b_file_name b)
    /\ b_title d = title r
    /\ files second.2 !! htmlPath u (deriveFileName (title r)) = Some html
    /\ (b_file_name b <> deriveFileName (title r) ->
        files second.2 !! htmlPath u (b_file_name b) = files w !! htmlPath u (b_file_name b)).
Proof.
  cbv zeta. set (w := (pushBroadcast untitled studio).2).
  set (r := {| code := js "AFKQVZ";
               url := js "https://marcoajello.github.io/skeduler-broadcast/?c=AFKQVZ";
               title := js "Other" |}).
  set (b := {| b_id := 1; b_code := js "AFKQVZ"; b_user_id := js "u1";
               b_file_name := js "Q1_Launch_"; b_title := js "Q1 Launch!";
               b_auto_update := false; b_updated_at := 1000 |}).
  assert (H : pushBroadcast (titled "Other") w
              = (Normal r, (pushBroadcast (titled "Other") w).2)) by (vm_compute; reflexivity).
  assert (Hb : currentBroadcast w = Some b) by (vm_compute; reflexivity).
  assert (Hin : b ∈ rows w).
  { replace (rows w) with [b] by (vm_compute; reflexivity). apply list_elem_of_here. }
  destruct (pushBroadcast_cached_retitled (titled "Other") w r _ b H Hb Hin)
    as (u & d & html & G).
  exists r, b, u, d, html. split_and!; auto; apply G.
Defined.

(** ** Publishing twice *)

(** The capture reads the document and the state of the editor, nothing
    else. *)
Lemma captureTableHTML_reads w1 w2 :
  document w1 = document w2 -> readState w1 = readState w2 ->
  (captureTableHTML w1).1 = (captureTableHTML w2).1.
Proof.
  intros Hd Hs. unfold captureTableHTML. run. rewrite Hd.
  destruct (document_querySelector _ (document w2)) as [n|]; [|reflexivity].
  rewrite Hs. now destruct (prepare (readState w2) n).
Qed.

(** The record a publication writes, field by field. *)
Lemma saved_fields o u f t w found d table request :
  saved o u f t w found d table request ->
  b_title d = t /\ b_updated_at d = clock w
  /\ (forall v, opt_autoUpdate o = Some v -> b_auto_update d = v).
Proof.
  intros [b b0 H d'|generated d']; subst d'; simpl; split_and!; auto;
    intros v ->; reflexivity.
Qed.

(** The table after the update of a record that is a row. *)
Lemma saved_table o u f t w b d table request :
  saved o u f t w (Some b) d table request ->
  b ∈ rows w ->
  d = updated t (default (b_auto_update b) (opt_autoUpdate o)) (clock w) b
  /\ table = (fun r => if bool_decide (b_id r = b_id b) then d else r) <$> rows w
  /\ (forall r, r ∈ rows w -> b_id r = b_id b -> r = b).
Proof.
  intros H Hb. inversion H as [b' b0 Hw d' | ]; subst.
  pose proof (rows_with_only _ _ _ _ Hw Hb eq_refl) as E. subst b0.
  split_and!; auto. intros r Hr Hid.
  exact (rows_with_only _ _ _ _ Hw Hr Hid).
Qed.

(** X18: publishing again changes nothing but the time. After a publish that
    returned, the same publish run again over the world it left, at any later
    time, returns the same result, stores the same snapshot under the same
    path, and updates the same record: the row keeps every field but
    [updated_at], and the other rows are as they were. At the same time,
    the table and the cached record are unchanged. *)
Theorem republish_idempotent o w r1 w1 t r2 w2 :
  pushBroadcast o w = (Normal r1, w1) ->
  pushBroadcast o (with_clock t w1) = (Normal r2, w2) ->
  r2 = r1
  /\ files w2 = files w1
  /\ exists d,
       currentBroadcast w1 = Some d
       /\ currentBroadcast w2 = Some (touched_at t d)
       /\ rows w2
          = (fun r => if bool_decide (b_id r = b_id d) then touched_at t d else r) <$> rows w1
       /\ (t = clock w -> rows w2 = rows w1 /\ currentBroadcast w2 = currentBroadcast w1).
Proof.
  intros H1 H2.
  pose proof (surroundings_pushBroadcast o w) as F. rewrite H1 in F.
  unfold same, surroundings in F. simpl in F. injection F as Fa Fd Fs Fc _.
  apply pushBroadcast_Normal in H1 as [P1 _], H2 as [P2 _].
  destruct P1
    as [u1 html1 asked1 found1 d1 request1 Hu1 Hcap1 Ht1 f1 _ Hs1 _ Hf1 Hc1 Hcode1 Hurl1].
  pose proof (saved_elem _ _ _ _ _ _ _ _ _ Hs1) as Hin1.
  apply saved_fields in Hs1 as (Htitle1 & Htime1 & Hflag1).
  destruct P2
    as [u2 html2 asked2 found2 d2 request2 Hu2 Hcap2 Ht2 f2 Hl2 Hs2 _ Hf2 Hc2 Hcode2 Hurl2].
  change (identity (with_clock t w1)) with (identity w1) in Hu2.
  change (readState (with_clock t w1)) with (readState w1) in Ht2.
  change (files (with_clock t w1)) with (files w1) in Hf2.
  change (rows (with_clock t w1)) with (rows w1) in *.
  assert (Eu : u2 = u1) by (unfold identity in *; rewrite Fa in Hu2; congruence).
  assert (Eh : html2 = html1).
  { rewrite (captureTableHTML_reads (with_clock t w1) w) in Hcap2 by assumption. congruence. }
  assert (Et : title r2 = title r1) by (rewrite Ht1, Ht2, Fs; reflexivity).
  assert (Ef : found2 = Some d1).
  { inversion Hl2 as [b Hb | b Hb _ _ | Hb _]; simpl in *; congruence. }
  subst u2 html2 found2.
  apply saved_table in Hs2 as (Ed & Etable & Honly); [|assumption].
  change (clock (with_clock t w1)) with t in Ed.
  assert (Ed' : d2 = touched_at t d1).
  { rewrite Ed, Et, <- Htitle1. unfold touched_at.
    destruct (opt_autoUpdate o) as [v|] eqn:Ev; simpl; [|reflexivity].
    now rewrite <- (Hflag1 v eq_refl). }
  assert (Es : t = clock w -> touched_at t d1 = d1).
  { intros ->. rewrite <- Htime1. now destruct d1. }
  split_and!.
  - destruct r1, r2; simpl in *. rewrite Ed' in *. simpl in *. congruence.
  - rewrite Hf2, Hf1. subst f1 f2. rewrite Et. apply insert_insert_eq.
  - exists d1. rewrite <- Ed'. split_and!; auto.
    intros Ht. split; [|rewrite Hc2, Ed', Es by assumption; congruence].
    rewrite Etable, Ed', Es by assumption.
    transitivity (id <$> rows w1); [|apply list_fmap_id].
    apply list_fmap_ext. intros i r Hr. simpl. case_bool_decide as E; [|reflexivity].
    symmetry. apply Honly; [|assumption]. now apply list_elem_of_lookup_2 in Hr.
Qed.

(** The studio publishes twice, a second apart. *)
Lemma republish_idempotent_witness :
  let first := pushBroadcast untitled studio in
  let second := pushBroadcast untitled (with_clock 2000 first.2) in
  exists r,
    first = (Normal r, first.2) /\ second = (Normal r, second.2)
    /\ files second.2 = files first.2
    /\ exists d,
         currentBroadcast first.2 = Some d
         /\ currentBroadcast second.2 = Some (touched_at 2000 d)
         /\ rows second.2
            = (fun r => if bool_decide (b_id r = b_id d) then touched_at 2000 d else r)
                <$> rows first.2
         /\ (2000%N = clock studio ->
             rows second.2 = rows first.2
             /\ currentBroadcast second.2 = currentBroadcast first.2).
Proof.
  cbv zeta.
  set (r := {| code := js "AFKQVZ";
               url := js "https://marcoajello.github.io/skeduler-broadcast/?c=AFKQVZ";
               title := js "Q1 Launch!" |}).
  set (w1 := (pushBroadcast untitled studio).2).
  assert (H1 : pushBroadcast untitled studio = (Normal r, w1)) by (vm_compute; reflexivity).
  assert (H2 : pushBroadcast untitled (with_clock 2000 w1)
               = (Normal r, (pushBroadcast untitled (with_clock 2000 w1)).2))
    by (vm_compute; reflexivity).
  exists r. split; [exact H1|]. split; [exact H2|].
  exact (proj2 (republish_idempotent untitled studio r w1 2000 r _ H1 H2)).
Defined.

(** ** The numbers a publish draws *)

Lemma written_drawn o found generated u f t path html :
  respects (same drawn)
    (save path html ≫= fun _ => record o found generated u f t ≫= fun _ => result t).
Proof.
  unfold save, storage_remove, storage_upload, record, update_single, insert_single, keep,
    result, sent, set_schedule_files, set_broadcasts, console_write.
  frame.
Qed.

(** What is found for a user and a file name is one thing. *)
Lemma lookup_cached_inv w u f asked found b :
  lookup w u f asked found -> currentBroadcast w = Some b -> found = Some b.
Proof. intros [b' Hb|b' Hb _ _|Hb _] H; congruence. Qed.

Lemma lookup_found_inv w u f asked found b :
  lookup w u f asked found -> currentBroadcast w = None -> ~ down w ->
  rows_of (user_id u) f (rows w) = [b] -> found = Some b.
Proof.
  intros [b' Hb|b' Hb _ Hr|Hb [Hd|Hno]] Hc Hup Hrows; try congruence; try contradiction.
Qed.

Lemma lookup_missed_inv w u f asked found :
  lookup w u f asked found -> currentBroadcast w = None ->
  rows_of (user_id u) f (rows w) = [] -> found = None.
Proof. intros [b' Hb|b' Hb _ Hr|Hb _] Hc Hrows; congruence. Qed.

(** X19: [generateCode] is called only for a record without a code. A
    publish that returns has drawn no random number when a cached record has
    a code, or when the lookup found a row that has one; when it created the
    record, it has drawn six, and the code it returns is the one
    [generateCode] makes of them. *)
Theorem pushBroadcast_draws o w r w' :
  pushBroadcast o w = (Normal r, w') ->
  (forall b, currentBroadcast w = Some b -> b_code b <> [] -> drawn w' = drawn w)
  /\ (forall u b,
        currentBroadcast w = None -> identity w = Some u -> ~ down w ->
        rows_of (user_id u) (deriveFileName (title r)) (rows w) = [b] ->
        b_code b <> [] ->
        drawn w' = drawn w)
  /\ (forall u,
        currentBroadcast w = None -> identity w = Some u ->
        rows_of (user_id u) (deriveFileName (title r)) (rows w) = [] ->
        drawn w' = (drawn w + 6)%nat /\ (generateCode w).1 = Normal (code r)).
Proof.
  intros H. pose proof H as H0. apply pushBroadcast_Normal in H0 as [P _].
  destruct P as [u html _ _ _ _ Hu Hcap Ht f _ _ _ _ _ _ _].
  destruct (pushBroadcast_steps o w u html Hu Hcap)
    as (asked & found & generated & w3 & Hl & Hg & Hrun & _ & _ & _ & _ & _ & _ & _ & Hd).
  rewrite <- Ht in Hl, Hrun. fold f in Hl, Hrun.
  assert (D : drawn w' = (drawn w + draws found)%nat).
  { pose proof (written_drawn o found generated u f (title r) (htmlPath u f) html w3) as F.
    rewrite <- Hrun, H in F. unfold same in F. simpl in F. congruence. }
  assert (T : forall b : broadcast, b_code b <> [] -> truthy (b_code b) = true).
  { intros b Hb. now destruct (b_code b). }
  split_and!.
  - intros b Hb Hcode. rewrite (lookup_cached_inv _ _ _ _ _ b Hl Hb) in D.
    simpl in D. rewrite (T b Hcode) in D. lia.
  - intros u' b Hb Hu' Hup Hrows Hcode. assert (u' = u) as -> by congruence.
    rewrite (lookup_found_inv _ _ _ _ _ b Hl Hb Hup Hrows) in D.
    simpl in D. rewrite (T b Hcode) in D. lia.
  - intros u' Hb Hu' Hrows. assert (u' = u) as -> by congruence.
    pose proof (lookup_missed_inv _ _ _ _ _ Hl Hb Hrows) as ->.
    split; [exact D|]. rewrite (Hg eq_refl). f_equal.
    rewrite Hrun in H.
    apply bind_Normal in H as ([] & w4 & _ & H).
    apply bind_Normal in H as ([] & w5 & Hrec & H).
    apply record_Normal in Hrec as (d & request & _ & Hgen & _ & _ & Hd5).
    apply result_Normal in H as (d' & Hd' & -> & _). simpl.
    assert (d' = d) as -> by congruence. symmetry. now apply Hgen.
Qed.

(** The first publish of the studio draws six numbers, the second none. *)
Lemma pushBroadcast_draws_witness :
  let first := pushBroadcast untitled studio in
  let second := pushBroadcast untitled first.2 in
  (drawn first.2 = 6%nat /\ drawn second.2 = 6%nat)
  /\ (exists r, first = (Normal r, first.2))
  /\ (forall b, currentBroadcast studio = Some b -> b_code b <> [] ->
        drawn first.2 = drawn studio)
  /\ (forall u b,
        currentBroadcast studio = None -> identity studio = Some u -> ~ down studio ->
        rows_of (user_id u) (deriveFileName (js "Q1 Launch!")) (rows studio) = [b] ->
        b_code b <> [] ->
        drawn first.2 = drawn studio)
  /\ (forall u,
        currentBroadcast studio = None -> identity studio = Some u ->
        rows_of (user_id u) (deriveFileName (js "Q1 Launch!")) (rows studio) = [] ->
        drawn first.2 = (drawn studio + 6)%nat
        /\ (generateCode studio).1 = Normal (js "AFKQVZ")).
Proof.
  cbv zeta. split; [split; vm_compute; reflexivity|].
  set (r := {| code := js "AFKQVZ";
               url := js "https://marcoajello.github.io/skeduler-broadcast/?c=AFKQVZ";
               title := js "Q1 Launch!" |}).
  assert (H : pushBroadcast untitled studio = (Normal r, (pushBroadcast untitled studio).2))
    by (vm_compute; reflexivity).
  split; [now exists r|].
  exact (pushBroadcast_draws untitled studio r _ H).
Defined.

(** * The columns of the snapshot *)

(** ** The first match of a selector *)

Section first_match.
Context (R : element -> element -> Prop) `{!PreOrder R} (sel : selector).
Context (Hsel : forall a a' e e',
           Forall2 R a a' -> R e e' -> matches sel a' e' = matches sel a e).
Context (Q : element -> Prop) (HQ : forall e e', R e e' -> Q e -> Q e').
Context (f : element -> element).
Context (Hf : forall a e, matches sel a e = true -> R e (f e)).
Context (Hq : forall e, Q (f e)).

(** A restyled tree has as many matches as the tree. *)
Lemma matching_restyled_length n : forall n' a a',
  restyled R n n' -> Forall2 R a a' ->
  length (matching sel a' n') = length (matching sel a n).
Proof.
  induction n as [data|e kids IH] using node_induction; intros n' a a' H Ha;
    inversion H as [|? e' ? kids' He Hk]; subst; [reflexivity|].
  rewrite !matching_Element, !length_app, (Hsel a a' e e' Ha He).
  assert (G : length (below sel a' (Element e' kids')) = length (below sel a (Element e kids))).
  { simpl. clear H. induction Hk as [|k k' kids kids' Hk _ IHk]; [reflexivity|].
    apply Forall_cons in IH as [IH1 IH2]. simpl. rewrite !length_app, IHk by assumption.
    f_equal. apply IH1; [assumption | now constructor]. }
  rewrite G. now destruct (matches sel a e).
Qed.

Lemma below_restyled_length n n' a a' :
  restyled R n n' -> Forall2 R a a' ->
  length (below sel a' n') = length (below sel a n).
Proof.
  intros H Ha. inversion H as [|e e' kids kids' He Hk]; subst; [reflexivity|].
  simpl. clear H. induction Hk as [|k k' kids kids' Hk _ IHk]; [reflexivity|].
  simpl. rewrite !length_app, IHk. f_equal.
  apply matching_restyled_length; [assumption | now constructor].
Qed.

(** What holds at the matches of a tree holds at those of the tree as it
    is. *)
Lemma matching_related n a a' :
  Forall2 R a a' ->
  Forall (at_root Q) (matching sel a n) -> Forall (at_root Q) (matching sel a' n).
Proof.
  intros Ha. apply (matching_derived R sel Hsel Q HQ); [reflexivity | assumption].
Qed.

(** Nothing to touch where nothing matches. *)
Lemma touch_first_None n : forall a,
  touch_first sel f a n = None -> matching sel a n = [].
Proof.
  induction n as [data|e kids IH] using node_induction; intros a E; [reflexivity|].
  simpl in *. destruct (matches sel a e); [discriminate|]. simpl.
  induction IH as [|k kids Hk _ IHk]; [reflexivity|]. simpl in *.
  destruct (touch_first sel f (e :: a) k) eqn:Et; [discriminate|].
  rewrite (Hk _ Et). simpl. apply IHk.
  destruct (first_of _ kids); [discriminate | reflexivity].
Qed.

Lemma touch_first_Some n : forall a n',
  touch_first sel f a n = Some n' -> matching sel a n <> [].
Proof.
  induction n as [data|e kids IH] using node_induction; intros a n' E; [discriminate|].
  simpl in *. destruct (matches sel a e); [discriminate|]. simpl.
  destruct (first_of _ kids) as [kids'|] eqn:Ek; [|discriminate]. clear E.
  revert kids' Ek. induction IH as [|k kids Hk _ IHk]; intros kids' Ek; [discriminate|].
  simpl in *. destruct (touch_first sel f (e :: a) k) as [k'|] eqn:Et.
  - intros H. apply app_eq_nil in H as [H _]. now apply (Hk _ _ Et).
  - destruct (first_of _ kids) as [rest|] eqn:Er; [|discriminate].
    intros H. apply app_eq_nil in H as [_ H]. now apply (IHk rest).
Qed.

(** The first match touched: when [Q] holds at the other matches, it holds
    at all the matches after. *)
Lemma matching_touch_first n : forall a a' n',
  Forall2 R a a' ->
  touch_first sel f a n = Some n' ->
  Forall (at_root Q) (tail (matching sel a n)) ->
  Forall (at_root Q) (matching sel a' n').
Proof.
  induction n as [data|e kids IH] using node_induction; intros a a' n' Ha E Hrest;
    simpl in E; [discriminate|].
  rewrite matching_Element in Hrest.
  destruct (matches sel a e) eqn:Hm.
  - injection E as <-. simpl in Hrest. rewrite matching_Element. apply Forall_app. split.
    + destruct (matches sel a' (f e)); constructor; [apply Hq | constructor].
    + simpl. apply Forall_flat_map. rewrite Forall_flat_map in Hrest.
      eapply Forall_impl; [exact Hrest|]. intros k Hk.
      apply (matching_related k (e :: a)); [|exact Hk].
      constructor; [now apply (Hf a) | assumption].
  - destruct (first_of _ kids) as [kids'|] eqn:Ek; [|discriminate].
    injection E as <-. simpl in Hrest. rewrite matching_Element.
    rewrite (Hsel a a' e e Ha) by reflexivity. rewrite Hm. simpl.
    assert (Ha' : Forall2 R (e :: a) (e :: a')) by (constructor; [reflexivity|assumption]).
    clear Hm. revert kids' Ek Hrest.
    induction IH as [|k kids Hk _ IHk]; intros kids' Ek Hrest; simpl in Ek; [discriminate|].
    destruct (touch_first sel f (e :: a) k) as [k'|] eqn:Et.
    + injection Ek as <-. simpl in *.
      assert (H : Forall (at_root Q) (tail (matching sel (e :: a) k))
                  /\ Forall (at_root Q) (flat_map (matching sel (e :: a)) kids)).
      { pose proof (touch_first_Some _ _ _ Et) as Hne.
        destruct (matching sel (e :: a) k) as [|m ms]; [congruence|].
        simpl in Hrest. now apply Forall_app in Hrest. }
      destruct H as [H1 H2]. apply Forall_app. split.
      * apply (Hk (e :: a) (e :: a') k' Ha' Et H1).
      * apply Forall_flat_map. rewrite Forall_flat_map in H2.
        eapply Forall_impl; [exact H2|]. intros k0 Hk0.
        now apply (matching_related k0 (e :: a)).
    + destruct (first_of _ kids) as [rest|] eqn:Er; [|discriminate].
      injection Ek as <-. simpl in *. rewrite (touch_first_None _ _ Et) in Hrest.
      apply Forall_app. split.
      * apply (matching_related k (e :: a)); [assumption|].
        rewrite (touch_first_None _ _ Et). constructor.
      * now apply IHk.
Qed.

(** Where at most one node matches below a node, [Q] holds at every match
    once the first is touched. *)
Lemma below_forFirst n :
  (length (below sel [] n) <= 1)%nat ->
  Forall (at_root Q) (below sel [] (forFirst sel f n)).
Proof.
  destruct n as [data|e kids]; [constructor|]. intros Hlen.
  assert (Hrest : Forall (at_root Q) (tail (below sel [] (Element e kids)))).
  { destruct (below sel [] (Element e kids)) as [|m [|m' ms]]; simpl in *;
      [constructor | constructor | lia]. }
  clear Hlen. unfold forFirst. simpl in Hrest.
  destruct (first_of _ kids) as [kids'|] eqn:Ek.
  - simpl. revert kids' Ek Hrest.
    induction kids as [|k kids IHk]; intros kids' Ek Hrest; simpl in Ek; [discriminate|].
    destruct (touch_first sel f [e] k) as [k'|] eqn:Et.
    + injection Ek as <-. simpl in *.
      pose proof (touch_first_Some _ _ _ Et) as Hne.
      destruct (matching sel [e] k) as [|m ms] eqn:Em; [congruence|].
      simpl in Hrest. apply Forall_app in Hrest as [H1 H2]. apply Forall_app. split.
      * apply (matching_touch_first k [e] [e] k'); [reflexivity | assumption|].
        now rewrite Em.
      * exact H2.
    + destruct (first_of _ kids) as [rest|] eqn:Er; [|discriminate].
      injection Ek as <-. simpl in *. rewrite (touch_first_None _ _ Et) in *.
      simpl in *. now apply IHk.
  - assert (E : flat_map (matching sel [e]) kids = []).
    { clear Hrest. induction kids as [|k kids IHk]; [reflexivity|]. simpl in *.
      destruct (touch_first sel f [e] k) eqn:Et; [discriminate|].
      rewrite (touch_first_None _ _ Et). simpl. apply IHk.
      destruct (first_of _ kids); [discriminate | reflexivity]. }
    simpl. rewrite E. constructor.
Qed.
End first_match.

(** ** Keys in a selector *)

Lemma string_token_text s : forall value,
  forallb (fun c => negb (bool_decide (c ∈ [0; 10; 12; 13; 34; 92]%N))) s = true ->
  string_token in_text value s = Some (value ++ s).
Proof.
  induction s as [|c s IH]; intros value H; simpl.
  - now rewrite app_nil_r.
  - simpl in H. apply andb_true_iff in H as [Hc H].
    apply negb_true_iff, bool_decide_eq_false in Hc.
    rewrite !elem_of_cons, elem_of_nil in Hc. unfold text_step.
    rewrite !bool_decide_eq_false_2 by tauto. simpl.
    rewrite IH by assumption. now rewrite <- app_assoc.
Qed.

Lemma css_input_plain n : forall s,
  (length s <= n)%nat -> plain s = true -> css_input s = s.
Proof.
  induction n as [|n IH]; intros [|c s] Hlen Hp; try reflexivity; simpl in Hlen; [lia|].
  unfold plain in Hp. apply andb_true_iff in Hp as [Hf Hp].
  simpl in Hf. apply andb_true_iff in Hf as [Hc Hf].
  apply negb_true_iff, bool_decide_eq_false in Hc.
  rewrite !elem_of_cons, elem_of_nil in Hc.
  cbn [css_input]. rewrite !bool_decide_eq_false_2 by tauto.
  cbn [paired] in Hp.
  destruct (in_ranges [(55296, 56319)%N] c).
  - destruct s as [|d s]; [discriminate|].
    apply andb_true_iff in Hp as [Hd Hp]. rewrite Hd.
    simpl in Hf. apply andb_true_iff in Hf as [_ Hf].
    rewrite (IH s); [reflexivity | simpl in Hlen; lia |].
    unfold plain. now rewrite Hf, Hp.
  - apply andb_true_iff in Hp as [Hl Hp]. apply negb_true_iff in Hl. rewrite Hl.
    rewrite (IH s); [reflexivity | lia |]. unfold plain. now rewrite Hf, Hp.
Qed.

(** A plain key is the value its selectors compare the attribute with. *)
Lemma attribute_value_plain k : plain k = true -> attribute_value k = Some k.
Proof.
  intros Hp. unfold attribute_value.
  rewrite (css_input_plain (length k) k (le_n _) Hp).
  apply andb_true_iff in Hp as [Hf _]. now rewrite string_token_text.
Qed.

Lemma control_columns_plain : Forall (fun k => plain k = true) control_columns.
Proof. repeat constructor. Qed.

(** ** What is kept of an element *)

#[global] Instance kept_preorder S : PreOrder (kept S).
Proof.
  split.
  - intros e. unfold kept. tauto.
  - intros e1 e2 e3 (T1 & C1 & A1 & P1 & D1 & W1 & S1) (T2 & C2 & A2 & P2 & D2 & W2 & S2).
    unfold kept. split_and!; try congruence; auto.
    + intros a Ha. now rewrite A2, A1.
    + intros p Hd Hw. now rewrite P2, P1.
    + intros H. rewrite S2, S1; auto. intros k Hk. apply H. rewrite <- Hk, A1; [reflexivity|].
      discriminate.
Qed.

Lemma kept_display_none S e e' : kept S e e' -> display_none e -> display_none e'.
Proof. intros (_ & _ & _ & _ & H & _). exact H. Qed.

Lemma kept_no_width S e e' : kept S e e' -> no_width e -> no_width e'.
Proof. intros (_ & _ & _ & _ & _ & H & _). exact H. Qed.

Lemma matches_keyed x y k a e : matches (keyed x y k) a e = is_cell x y k (a, e).
Proof. unfold matches, keyed, is_cell. simpl. now rewrite orb_false_r. Qed.

(** The selectors of [hide] cannot tell an element from what is kept of it. *)
Lemma matches_keyed_kept S x y k a a' e e' :
  Forall2 (kept S) a a' -> kept S e e' ->
  matches (keyed x y k) a' e' = matches (keyed x y k) a e.
Proof.
  intros Ha (T & _ & K & _). rewrite !matches_keyed. unfold is_cell. simpl.
  rewrite T, K by discriminate. f_equal.
  induction Ha as [|e0 e0' a a' (T0 & _) _ IH]; simpl; [reflexivity|].
  now rewrite T0, IH.
Qed.

(** What [interactive] matches is a control. *)
Lemma matches_interactive a e : matches interactive a e = control e.
Proof.
  unfold matches, interactive, control. simpl. apply Bool.eq_iff_eq_true.
  rewrite !orb_true_iff, !bool_decide_eq_true, existsb_exists, !elem_of_cons, elem_of_nil.
  split.
  - intros [?|[?|[H|[H|[H|?]]]]]; try discriminate; auto;
      right; eexists; (split; [apply list_elem_of_In, H|]);
      apply bool_decide_eq_true; rewrite !elem_of_cons; auto.
  - intros [[?|[?|[]]]|(c & Hin & Hc)]; auto.
    apply list_elem_of_In in Hin. apply bool_decide_eq_true in Hc.
    rewrite !elem_of_cons, elem_of_nil in Hc.
    destruct Hc as [->|[->|[->|[]]]]; tauto.
Qed.

Lemma matches_interactive_kept S a a' e e' :
  kept S e e' -> matches interactive a' e' = matches interactive a e.
Proof. intros (T & C & _). rewrite !matches_interactive. unfold control. now rewrite T, C. Qed.

Lemma display_none_setStyle e : display_none (setStyle (js "display") (js "none") e).
Proof. unfold display_none. rewrite getStyle_setStyle. now rewrite bool_decide_eq_true_2. Qed.

Lemma no_width_setStyle e : no_width (setStyle (js "width") (js "0px") e).
Proof. unfold no_width. rewrite getStyle_setStyle. now rewrite bool_decide_eq_true_2. Qed.

(** Styling a match of a selector of a hidden key keeps what the capture
    keeps, whether the width or the display is set. *)
Lemma kept_setStyle S x y v a e p val :
  S v ->
  matches (keyed x y v) a e = true ->
  (p = js "display" /\ val = js "none") \/ (p = js "width" /\ val = js "0px") ->
  kept S e (setStyle p val e).
Proof.
  intros Hv Hm Hp. rewrite matches_keyed in Hm. unfold is_cell in Hm. simpl in Hm.
  rewrite !andb_true_iff, !bool_decide_eq_true in Hm.
  destruct Hm as [[_ Hkey] _]. unfold kept, display_none, no_width.
  split_and!; try reflexivity.
  - intros q Hd Hw. rewrite getStyle_setStyle. case_bool_decide as E; [|reflexivity].
    destruct Hp as [[-> _]|[-> _]]; congruence.
  - intros Hd. rewrite getStyle_setStyle. case_bool_decide as E; [|assumption].
    destruct Hp as [[_ ->]|[-> _]]; [reflexivity | discriminate].
  - intros Hw. rewrite getStyle_setStyle. case_bool_decide as E; [|assumption].
    destruct Hp as [[-> _]|[_ ->]]; [discriminate | reflexivity].
  - intros H. now destruct (H v Hkey).
Qed.

Lemma kept_removeAttribute S e : kept S e (removeAttribute (js "draggable") e).
Proof.
  unfold kept. split_and!; try reflexivity; try tauto.
  intros a Ha. now apply getAttribute_removeAttribute_ne.
Qed.

(** ** Hiding the columns of a list of keys *)

Lemma restyled_derived R n : forall n', restyled R n n' -> derived R n n'.
Proof.
  induction n as [data|e kids IH] using node_induction; intros n' H;
    inversion H as [|? e' ? kids' He Hk]; subst; constructor; [assumption|].
  clear H. induction Hk as [|k k' kids kids' Hk _ IHk]; [constructor|].
  apply Forall_cons in IH as [IH1 IH2]. apply thinned_keep; [now apply IH1 | now apply IHk].
Qed.

Section concealing.
Context (S : jsstring -> Prop).

Lemma conceal_restyled v n : S v -> restyled (kept S) n (conceal v n).
Proof.
  intros Hv. unfold conceal.
  etransitivity; [|etransitivity];
    [apply restyled_forFirst | apply restyled_forFirst | apply restyled_forAll];
    try typeclasses eauto; intros a e Hm; eapply kept_setStyle; eauto.
Qed.

Lemma conceal_body v n :
  S v ->
  Forall (at_root display_none) (below (keyed (js "tbody") (js "td") v) [] (conceal v n)).
Proof.
  intros Hv. unfold conceal.
  apply (below_forAll (kept S)); try typeclasses eauto.
  - intros; now apply (matches_keyed_kept S).
  - intros a e Hm. eapply kept_setStyle; eauto.
  - apply display_none_setStyle.
Qed.

Lemma conceal_header v n :
  S v ->
  (length (below (keyed (js "thead") (js "th") v) [] n) <= 1)%nat ->
  Forall (at_root display_none) (below (keyed (js "thead") (js "th") v) [] (conceal v n)).
Proof.
  intros Hv Hlen. unfold conceal.
  set (c1 := forFirst _ _ n). set (c2 := forFirst _ _ c1).
  assert (S1 : restyled (kept S) n c1).
  { apply restyled_forFirst; [typeclasses eauto|]. intros a e Hm.
    eapply kept_setStyle; eauto. }
  assert (L1 : (length (below (keyed (js "thead") (js "th") v) [] c1) <= 1)%nat).
  { rewrite (below_restyled_length (kept S) _ (matches_keyed_kept S _ _ _) n c1 [] []); auto. }
  assert (Q2 : Forall (at_root display_none) (below (keyed (js "thead") (js "th") v) [] c2)).
  { apply (below_forFirst (kept S) _ (matches_keyed_kept S _ _ _)
             display_none (kept_display_none S)); auto.
    - intros a e Hm. eapply kept_setStyle; eauto.
    - apply display_none_setStyle. }
  revert Q2. apply (below_derived (kept S)); auto.
  - intros; now apply (matches_keyed_kept S).
  - apply kept_display_none.
  - apply derived_forAll; [typeclasses eauto|]. intros a e Hm. eapply kept_setStyle; eauto.
Qed.

Lemma conceal_col v n :
  S v ->
  (length (below (keyed (js "colgroup") (js "col") v) [] n) <= 1)%nat ->
  Forall (at_root no_width) (below (keyed (js "colgroup") (js "col") v) [] (conceal v n)).
Proof.
  intros Hv Hlen. unfold conceal.
  set (c1 := forFirst _ _ n). set (c2 := forFirst _ _ c1).
  assert (Q1 : Forall (at_root no_width) (below (keyed (js "colgroup") (js "col") v) [] c1)).
  { apply (below_forFirst (kept S) _ (matches_keyed_kept S _ _ _)
             no_width (kept_no_width S)); auto.
    - intros a e Hm. eapply kept_setStyle; eauto.
    - apply no_width_setStyle. }
  revert Q1. apply (below_derived (kept S)); auto.
  - intros; now apply (matches_keyed_kept S).
  - apply kept_no_width.
  - transitivity c2.
    + apply derived_forFirst; [typeclasses eauto|]. intros a e Hm. eapply kept_setStyle; eauto.
    + apply derived_forAll; [typeclasses eauto|]. intros a e Hm. eapply kept_setStyle; eauto.
Qed.

Lemma conceal_all_restyled values : forall n,
  Forall S values -> restyled (kept S) n (conceal_all values n).
Proof.
  induction values as [|v values IH]; intros n H; simpl; [reflexivity|].
  apply Forall_cons in H as [Hv H].
  transitivity (conceal v n); [now apply conceal_restyled | now apply IH].
Qed.

(** Every key of the list has its cells hidden in the end: the body cells,
    and the header cell and the [col] where the table has one of it. *)
Lemma conceal_all_cells values : forall n v,
  Forall S values -> v ∈ values ->
  Forall (at_root display_none)
    (below (keyed (js "tbody") (js "td") v) [] (conceal_all values n))
  /\ ((length (below (keyed (js "thead") (js "th") v) [] n) <= 1)%nat ->
      Forall (at_root display_none)
        (below (keyed (js "thead") (js "th") v) [] (conceal_all values n)))
  /\ ((length (below (keyed (js "colgroup") (js "col") v) [] n) <= 1)%nat ->
      Forall (at_root no_width)
        (below (keyed (js "colgroup") (js "col") v) [] (conceal_all values n))).
Proof.
  induction values as [|v0 values IH]; intros n v H Hin; [now apply not_elem_of_nil in Hin|].
  apply Forall_cons in H as [Hv0 H]. simpl.
  pose proof (conceal_restyled v0 n Hv0) as R1.
  pose proof (restyled_derived _ _ _ (conceal_all_restyled values (conceal v0 n) H)) as D2.
  destruct (decide (v = v0)) as [->|Hne].
  - split_and!; [|intros Hlen..].
    + generalize (conceal_body v0 n Hv0). apply (below_derived (kept S)); auto.
      * intros; now apply (matches_keyed_kept S).
      * apply kept_display_none.
    + generalize (conceal_header v0 n Hv0 Hlen). apply (below_derived (kept S)); auto.
      * intros; now apply (matches_keyed_kept S).
      * apply kept_display_none.
    + generalize (conceal_col v0 n Hv0 Hlen). apply (below_derived (kept S)); auto.
      * intros; now apply (matches_keyed_kept S).
      * apply kept_no_width.
  - apply elem_of_cons in Hin as [?|Hin]; [contradiction|].
    destruct (IH (conceal v0 n) v H Hin) as (B & Hh & Hc).
    split_and!; [exact B | intros Hlen; apply Hh | intros Hlen; apply Hc];
      rewrite (below_restyled_length (kept S) _ (matches_keyed_kept S _ _ _)
                 n (conceal v0 n) [] []); auto.
Qed.
End concealing.

(** The rounds of [hiddenCols.forEach] that return: one value for each
    key. *)
Lemma forEach_hide_values keys : forall clone c,
  forEach_hide keys clone = Normal c ->
  exists values,
    Forall2 (fun k v => attribute_value k = Some v) keys values
    /\ c = conceal_all values clone.
Proof.
  induction keys as [|k keys IH]; intros clone c H; simpl in H.
  - injection H as <-. exists []. split; [constructor | reflexivity].
  - rewrite hide_value in H. destruct (attribute_value k) as [v|] eqn:E; [|discriminate].
    destruct (IH _ _ H) as (values & F & ->). exists (v :: values).
    split; [now constructor | reflexivity].
Qed.

Lemma forEach_hide_plain keys : forall clone,
  Forall (fun k => plain k = true) keys ->
  forEach_hide keys clone = Normal (conceal_all keys clone).
Proof.
  induction keys as [|k keys IH]; intros clone H; simpl; [reflexivity|].
  apply Forall_cons in H as [Hk H].
  rewrite hide_value, (attribute_value_plain k Hk). now apply IH.
Qed.

(** ** The cells of a column *)

Lemma Forall_filter {A : Type} (P : A -> Prop) (f : A -> bool) (l : list A) :
  Forall P (List.filter f l) <-> Forall (fun x => f x = true -> P x) l.
Proof.
  induction l as [|x l IH]; simpl; [split; constructor|].
  destruct (f x) eqn:E; rewrite ?Forall_cons, IH; intuition congruence.
Qed.

Lemma filter_flat_map {A B : Type} (f : B -> bool) (g : A -> list B) (l : list A) :
  List.filter f (flat_map g l) = flat_map (fun x => List.filter f (g x)) l.
Proof.
  induction l as [|x l IH]; simpl; [reflexivity|]. now rewrite List.filter_app, IH.
Qed.

Lemma matching_placed sel (Q : element -> Prop) n : forall a,
  Forall (at_root Q) (matching sel a n)
  <-> Forall (fun p => matches sel p.1 p.2 = true -> Q p.2) (placed a n).
Proof.
  induction n as [data|e kids IH] using node_induction; intros a.
  - simpl. split; constructor.
  - rewrite matching_Element. simpl. rewrite Forall_app, Forall_cons, !Forall_flat_map. simpl.
    rewrite Forall_forall in IH.
    assert (X : Forall (at_root Q) (if matches sel a e then [Element e kids] else [])
                <-> (matches sel a e = true -> Q e)).
    { destruct (matches sel a e); [rewrite Forall_singleton; simpl; tauto|].
      split; [discriminate | constructor]. }
    assert (Y : Forall (fun k => Forall (at_root Q) (matching sel (e :: a) k)) kids
                <-> Forall (fun k => Forall (fun p => matches sel p.1 p.2 = true -> Q p.2)
                                       (placed (e :: a) k)) kids).
    { rewrite !Forall_forall. split; intros H k Hk; apply (IH k Hk (e :: a)), H, Hk. }
    rewrite X, Y. reflexivity.
Qed.

Lemma matching_placed_length sel n : forall a,
  length (matching sel a n)
  = length (List.filter (fun p => matches sel p.1 p.2) (placed a n)).
Proof.
  induction n as [data|e kids IH] using node_induction; intros a; [reflexivity|].
  rewrite matching_Element. simpl. rewrite length_app.
  assert (G : length (flat_map (matching sel (e :: a)) kids)
              = length (List.filter (fun p => matches sel p.1 p.2)
                          (flat_map (placed (e :: a)) kids))).
  { rewrite filter_flat_map. induction IH as [|k kids Hk _ IHk]; [reflexivity|].
    simpl. now rewrite !length_app, Hk, IHk. }
  rewrite G. now destruct (matches sel a e).
Qed.

(** What the selector of [hide] finds below the clone are the cells of the
    column. *)
Lemma below_cells x y k (Q : element -> Prop) n :
  Forall (at_root Q) (below (keyed x y k) [] n) <-> Forall Q (cells x y k n).
Proof.
  destruct n as [data|e kids]; [split; constructor|].
  unfold cells. simpl.
  replace (is_cell x y k ([], e)) with false by (unfold is_cell; simpl; now rewrite andb_false_r).
  rewrite Forall_fmap, Forall_filter.
  rewrite !Forall_flat_map. rewrite !Forall_forall.
  split; intros H n Hn.
  - specialize (H n Hn). apply matching_placed in H. eapply Forall_impl; [exact H|].
    intros [a e0]. rewrite matches_keyed. auto.
  - apply matching_placed. eapply Forall_impl; [exact (H n Hn)|].
    intros [a e0]. rewrite matches_keyed. auto.
Qed.

Lemma below_cells_length x y k n :
  length (below (keyed x y k) [] n) = length (cells x y k n).
Proof.
  destruct n as [data|e kids]; [reflexivity|].
  unfold cells. simpl.
  replace (is_cell x y k ([], e)) with false by (unfold is_cell; simpl; now rewrite andb_false_r).
  rewrite length_fmap, filter_flat_map.
  induction kids as [|n kids IH]; [reflexivity|]. simpl.
  rewrite !length_app, IH, matching_placed_length. do 2 f_equal.
  apply List.filter_ext. intros [a e0]. apply matches_keyed.
Qed.

(** ** The elements of the snapshot *)

Lemma restyled_elements R n : forall n',
  restyled R n n' -> Forall2 R (elements n) (elements n').
Proof.
  induction n as [data|e kids IH] using node_induction; intros n' H;
    inversion H as [|? e' ? kids' He Hk]; subst; simpl; constructor; [assumption|].
  clear H. induction Hk as [|k k' kids kids' Hk _ IHk]; [constructor|].
  apply Forall_cons in IH as [IH1 IH2]. simpl.
  apply Forall2_app; [now apply IH1 | now apply IHk].
Qed.

(** Without its controls, a tree has the elements outside of them. *)
Lemma elements_removeAll n : forall a,
  elements (remove_matching interactive a n) = outside_controls n.
Proof.
  induction n as [data|e kids IH] using node_induction; intros a; [reflexivity|].
  cbn [remove_matching elements outside_controls]. f_equal.
  rewrite flat_map_twice. apply flat_map_ext_Forall.
  eapply Forall_impl; [exact IH|]. intros k Hk.
  destruct k as [data|e' kids']; [reflexivity|].
  rewrite matches_interactive. cbn [uncontrolled].
  destruct (control e') eqn:E; [reflexivity|].
  cbn [flat_map]. now rewrite app_nil_r, Hk.
Qed.

(** The root of the clone stays as it is. *)
Lemma forFirst_root sel f e kids : exists kids', forFirst sel f (Element e kids) = Element e kids'.
Proof. unfold forFirst. destruct (first_of _ kids); eauto. Qed.

Lemma conceal_root v e kids : exists kids', conceal v (Element e kids) = Element e kids'.
Proof.
  unfold conceal.
  destruct (forFirst_root (keyed (js "colgroup") (js "col") v)
              (setStyle (js "width") (js "0px")) e kids) as [kids1 ->].
  destruct (forFirst_root (keyed (js "thead") (js "th") v)
              (setStyle (js "display") (js "none")) e kids1) as [kids2 ->].
  simpl. eauto.
Qed.

Lemma conceal_all_root values : forall e kids,
  exists kids', conceal_all values (Element e kids) = Element e kids'.
Proof.
  induction values as [|v values IH]; intros e kids; simpl; [eauto|].
  destruct (conceal_root v e kids) as [kids1 ->]. apply IH.
Qed.

Lemma prepare_root state e kids c :
  prepare state (Element e kids) = Normal c -> exists kids', c = Element e kids'.
Proof.
  intros H. apply prepare_Normal in H as (h & H & ->).
  apply forEach_hide_values in H as (values & _ & ->).
  destruct (conceal_all_root values e kids) as [kids1 ->]. simpl. eauto.
Qed.

(** What a selector finds is an element. *)
Lemma matching_Elements sel n : forall a,
  Forall (fun m => exists e kids, m = Element e kids) (matching sel a n).
Proof.
  induction n as [data|e kids IH] using node_induction; intros a; [constructor|].
  rewrite matching_Element. apply Forall_app. split.
  - destruct (matches sel a e); repeat constructor; eauto.
  - simpl. apply Forall_flat_map. eapply Forall_impl; [exact IH|]. intros k Hk. apply Hk.
Qed.

Lemma document_querySelector_Element sel root n :
  document_querySelector sel root = Some n -> exists e kids, n = Element e kids.
Proof.
  unfold document_querySelector. intros H.
  pose proof (matching_Elements sel root []) as F.
  destruct (matching sel [] root) as [|m l]; [discriminate|].
  injection H as <-. now apply Forall_cons in F as [F _].
Qed.

(** The finish of [prepare]: the controls removed, then the [draggable]
    attributes. *)
Lemma finish_derived S h :
  derived (kept S) h
    (forAll draggable (removeAttribute (js "draggable")) (removeAll interactive h)).
Proof.
  etransitivity; [apply derived_remove_matching; typeclasses eauto|].
  apply derived_forAll; [typeclasses eauto|]. intros; apply kept_removeAttribute.
Qed.

Lemma finish_restyled S n h :
  restyled (kept S) n h ->
  restyled (kept S) (removeAll interactive n)
    (forAll draggable (removeAttribute (js "draggable")) (removeAll interactive h)).
Proof.
  intros H. etransitivity.
  - unfold removeAll. apply restyled_remove_matching; [|exact H].
    intros; now apply (matches_interactive_kept S).
  - apply restyled_forAll; [typeclasses eauto|]. intros; apply kept_removeAttribute.
Qed.

(** What a capture that returns has done. *)
Lemma captureTableHTML_Normal w html w' :
  captureTableHTML w = (Normal (Some html), w') ->
  exists source values,
    document_querySelector [compound_sel (class_sel (js "schedule"))] (document w)
    = Some source
    /\ Forall2 (fun k v => attribute_value k = Some v) (hiddenCols (readState w)) values
    /\ table html
       = forAll draggable (removeAttribute (js "draggable"))
           (removeAll interactive (conceal_all values source))
    /\ styles html = captureStyles.
Proof.
  unfold captureTableHTML. run.
  destruct (document_querySelector _ (document w)) as [source|]; [|discriminate].
  destruct (prepare (readState w) source) as [c|e] eqn:Hp; [|discriminate].
  intros [= <- <-]. simpl.
  apply prepare_Normal in Hp as (h & H & ->).
  apply forEach_hide_values in H as (values & F & ->).
  now exists source, values.
Qed.

(** The values of plain keys are the keys. *)
Lemma values_plain keys values :
  Forall2 (fun k v => attribute_value k = Some v) keys values ->
  Forall (fun k => plain k = true) keys -> values = keys.
Proof.
  induction 1 as [|k v keys values E _ IH]; intros H; [reflexivity|].
  apply Forall_cons in H as [Hk H]. rewrite (attribute_value_plain k Hk) in E.
  injection E as <-. now rewrite IH.
Qed.

Lemma values_elem keys values k :
  Forall2 (fun k v => attribute_value k = Some v) keys values ->
  k ∈ keys -> plain k = true -> k ∈ values.
Proof.
  induction 1 as [|k0 v keys values E _ IH]; intros Hin Hp; [now apply not_elem_of_nil in Hin|].
  apply elem_of_cons in Hin as [->|Hin].
  - rewrite (attribute_value_plain k0 Hp) in E. injection E as <-. apply list_elem_of_here.
  - apply elem_of_cons. right. now apply IH.
Qed.

(** The keys that [captureTableHTML] hides are those the specification
    suppresses. *)
Lemma hiddenCols_suppressed state k : k ∈ hiddenCols state <-> suppressed state k.
Proof.
  unfold hiddenCols, suppressed. rewrite elem_of_app, list_elem_of_fmap.
  fold control_columns. split.
  - intros [(c & -> & Hc)|H]; [right|now left].
    apply list_elem_of_In, filter_In in Hc as [Hc Hp]. apply negb_true_iff in Hp.
    apply list_elem_of_In in Hc. unfold cols_of in Hc.
    destruct state as [st|]; [|now apply not_elem_of_nil in Hc].
    destruct (cols st) as [cs|] eqn:E; [|now apply not_elem_of_nil in Hc].
    now exists st, cs, c.
  - intros [H|(st & cs & c & -> & E & Hc & <- & Hp)]; [now right|left].
    exists c. split; [reflexivity|].
    apply list_elem_of_In, filter_In. rewrite <- list_elem_of_In, Hp. unfold cols_of.
    now rewrite E.
Qed.

Lemma unconfigured_suppressed state k :
  unconfigured state -> suppressed state k <-> k ∈ control_columns.
Proof.
  intros U. unfold suppressed. split; [|now left].
  intros [H|(st & cs & c & -> & E & Hc & _)]; [assumption|].
  destruct U as [U|[[m U]|[m U]]]; [discriminate|injection U as ->..];
    simpl in E; [discriminate|]. injection E as <-. now apply not_elem_of_nil in Hc.
Qed.

(** C7, as the code has it. The keys whose columns the capture hides are
    those of the built-in exclusion set ([drag], [sharpie], [actions]) and
    the keys of the columns of the configuration with a false [print] flag: a
    column is identified by its key, and where no two columns share a key, the
    key of a column is hidden if and only if it is built in or the [print]
    flag of the column is false. When these keys are plain (no double quote,
    backslash, line break, NUL or lone surrogate), a capture that returns
    gives a snapshot with one element for every element of the table outside
    its controls, in order: with its tag, its classes and its attributes but
    [draggable], and with its inline style unless its [data-key] is a hidden
    key. In the snapshot every body cell ([td] in [tbody]) of a hidden key
    has [display: none]; the header cell ([th] in [thead]) has it where the
    table has at most one for the key, and the [col] in [colgroup] has
    [width: 0px] where the table has at most one: of several, the source
    treats the first. Without a configuration, or with an empty one, the
    hidden keys are those built in, and the capture does not throw. *)
Theorem hiddenCols_spec w :
  (forall k, k ∈ hiddenCols (readState w) <-> suppressed (readState w) k)
  /\ (forall st cs c,
        readState w = Some st -> cols st = Some cs -> NoDup (key <$> cs) -> c ∈ cs ->
        suppressed (readState w) (key c) <-> key c ∈ control_columns \/ print c = false)
  /\ (forall html w',
        captureTableHTML w = (Normal (Some html), w') ->
        (forall k, suppressed (readState w) k -> plain k = true) ->
        exists source,
          document_querySelector [compound_sel (class_sel (js "schedule"))] (document w)
          = Some source
          /\ Forall2 (kept (suppressed (readState w)))
               (outside_controls source) (elements (table html))
          /\ forall k, suppressed (readState w) k ->
               Forall display_none (cells (js "tbody") (js "td") k (table html))
               /\ ((length (cells (js "thead") (js "th") k source) <= 1)%nat ->
                   Forall display_none (cells (js "thead") (js "th") k (table html)))
               /\ ((length (cells (js "colgroup") (js "col") k source) <= 1)%nat ->
                   Forall no_width (cells (js "colgroup") (js "col") k (table html))))
  /\ (unconfigured (readState w) ->
      (forall k, suppressed (readState w) k <-> k ∈ control_columns)
      /\ exists html w', captureTableHTML w = (Normal html, w')).
Proof.
  split_and!.
  - intros k. apply hiddenCols_suppressed.
  - intros st cs c Hst Hcs Hnd Hc. rewrite Hst. unfold suppressed. split.
    + intros [H|(st' & cs' & c' & [= <-] & E & Hc' & Hk & Hp)]; [now left|right].
      assert (cs' = cs) as -> by congruence.
      now rewrite <- (key_unique _ _ _ Hnd Hc Hc' Hk).
    + intros [H|Hp]; [now left|right]. now exists st, cs, c.
  - intros html w' H Hplain.
    destruct (captureTableHTML_Normal _ _ _ H) as (source & values & Hs & F & Ht & _).
    set (S := suppressed (readState w)) in *.
    assert (Hkeys : Forall S (hiddenCols (readState w))).
    { apply Forall_forall. intros k Hk. now apply hiddenCols_suppressed. }
    assert (Hp : Forall (fun k => plain k = true) (hiddenCols (readState w))).
    { eapply Forall_impl; [exact Hkeys|]. exact Hplain. }
    rewrite (values_plain _ _ F Hp) in Ht. clear F values.
    set (h := conceal_all (hiddenCols (readState w)) source) in *.
    pose proof (conceal_all_restyled S _ source Hkeys) as R1. fold h in R1.
    pose proof (finish_restyled S _ _ R1) as R2. rewrite <- Ht in R2.
    pose proof (finish_derived S h) as D. rewrite <- Ht in D.
    exists source. split_and!; [assumption | |].
    + apply restyled_elements in R2. unfold removeAll in R2.
      now rewrite elements_removeAll in R2.
    + intros k Hk.
      assert (Hin : k ∈ hiddenCols (readState w)) by now apply hiddenCols_suppressed.
      destruct (conceal_all_cells S _ source k Hkeys Hin) as (B & Hh & Hc). fold h in B, Hh, Hc.
      rewrite <- !below_cells_length. rewrite <- !below_cells.
      split_and!; [|intros Hlen; specialize (Hh Hlen)|intros Hlen; specialize (Hc Hlen)].
      * revert B. apply (below_derived (kept S)); auto.
        -- intros; now apply (matches_keyed_kept S).
        -- apply kept_display_none.
      * revert Hh. apply (below_derived (kept S)); auto.
        -- intros; now apply (matches_keyed_kept S).
        -- apply kept_display_none.
      * revert Hc. apply (below_derived (kept S)); auto.
        -- intros; now apply (matches_keyed_kept S).
        -- apply kept_no_width.
  - intros U. split; [intros k; now apply unconfigured_suppressed|].
    assert (Hp : Forall (fun k => plain k = true) (hiddenCols (readState w))).
    { apply Forall_forall. intros k Hk.
      apply hiddenCols_suppressed, (unconfigured_suppressed _ _ U) in Hk.
      pose proof control_columns_plain as P. rewrite Forall_forall in P. now apply P. }
    unfold captureTableHTML. run.
    destruct (document_querySelector _ (document w)) as [table|]; [|eauto].
    unfold prepare. rewrite (forEach_hide_plain _ table Hp). eauto.
Qed.

(** The notes of the studio are not printed: their cells are hidden in the
    snapshot, and the name is as it was. *)
Lemma hiddenCols_spec_witness :
  exists html source,
    captureTableHTML studio = (Normal (Some html), studio)
    /\ document_querySelector [compound_sel (class_sel (js "schedule"))] (document studio)
       = Some source
    /\ Forall2 (kept (suppressed (readState studio)))
         (outside_controls source) (elements (table html))
    /\ Forall display_none (cells (js "tbody") (js "td") (js "notes") (table html))
    /\ Forall display_none (cells (js "thead") (js "th") (js "notes") (table html))
    /\ Forall no_width (cells (js "colgroup") (js "col") (js "notes") (table html))
    /\ style <$> cells (js "tbody") (js "td") (js "notes") (table html)
       = [[(js "display", js "none")]]
    /\ style <$> cells (js "tbody") (js "td") (js "name") (table html) = [[]].
Proof.
  assert (H : exists html, captureTableHTML studio = (Normal (Some html), studio))
    by (vm_compute; eauto).
  destruct H as [html H].
  destruct (hiddenCols_spec studio) as (Hiff & _ & Hsnap & _).
  assert (Hplain : forall k, suppressed (readState studio) k -> plain k = true).
  { intros k Hk. apply Hiff in Hk. revert Hk. vm_compute hiddenCols.
    rewrite !elem_of_cons, elem_of_nil. intros [->|[->|[->|[->|[]]]]]; reflexivity. }
  assert (Hnotes : suppressed (readState studio) (js "notes")).
  { apply Hiff, (bool_decide_unpack _). vm_compute. exact I. }
  destruct (Hsnap html studio H Hplain) as (source & Hs & Hel & Hcells).
  destruct (Hcells (js "notes") Hnotes) as (Hb & Hh & Hc).
  assert (E : (captureTableHTML studio).1 = Normal (Some html)) by now rewrite H.
  exists html, source. split_and!; auto.
  - apply Hh. revert Hs. vm_compute. intros [= <-]. simpl. lia.
  - apply Hc. revert Hs. vm_compute. intros [= <-]. simpl. lia.
  - revert E. vm_compute. intros [= <-]. reflexivity.
  - revert E. vm_compute. intros [= <-]. reflexivity.
Defined.

(** C7 as the spec states it fails where a column has more than one header
    cell: the source hides the first only ([querySelector]), and the second
    header cell of the notes, which are not printed, is in the snapshot as it
    was. It fails too for a key with a backslash, which the selector reads as
    an escape: the cell of the key stays as it was, and the cell whose
    [data-key] is what the escape stands for is hidden. *)
Lemma second_header_shown :
  (exists html,
     (captureTableHTML rehearsal).1 = Normal (Some html)
     /\ suppressed (readState rehearsal) (js "notes")
     /\ style <$> cells (js "thead") (js "th") (js "notes") (table html)
        = [[(js "display", js "none")]; []])
  /\ (exists html,
        (captureTableHTML escaped).1 = Normal (Some html)
        /\ suppressed (readState escaped) (js "a\b")
        /\ ~ suppressed (readState escaped) [97; 11]%N
        /\ style <$> cells (js "tbody") (js "td") (js "a\b") (table html) = [[]]
        /\ style <$> cells (js "tbody") (js "td") [97; 11]%N (table html)
           = [[(js "display", js "none")]]).
Proof.
  split.
  - eexists. split; [vm_compute; reflexivity|]. split; [|vm_compute; reflexivity].
    apply hiddenCols_suppressed, (bool_decide_unpack _). vm_compute. exact I.
  - eexists. split; [vm_compute; reflexivity|]. split_and!; try (vm_compute; reflexivity).
    + apply hiddenCols_suppressed, (bool_decide_unpack _). vm_compute. exact I.
    + intros H. apply hiddenCols_suppressed in H. revert H. apply (bool_decide_unpack _).
      vm_compute. exact I.
Qed.



(** X17: the header of a hidden column. In a capture that returns a
    snapshot, for a plain key of a column that is not printed or of a control
    column, with at most one header cell ([th] in [thead]) in the table,
    every header cell of the key in the snapshot has [display: none]. (The
    source hides the first match only.) *)
Theorem captureTableHTML_header w html w' k :
  captureTableHTML w = (Normal (Some html), w') ->
  suppressed (readState w) k ->
  plain k = true ->
  exists source,
    document_querySelector [compound_sel (class_sel (js "schedule"))] (document w)
    = Some source
    /\ ((length (cells (js "thead") (js "th") k source) <= 1)%nat ->
        Forall display_none (cells (js "thead") (js "th") k (table html))).
Proof.
  intros H Hk Hp.
  destruct (captureTableHTML_Normal _ _ _ H) as (source & values & Hs & F & Ht & _).
  exists source. split; [assumption|].
  rewrite <- below_cells_length, <- below_cells. intros Hlen.
  assert (Hin : k ∈ values).
  { apply (values_elem _ _ _ F); [now apply hiddenCols_suppressed | assumption]. }
  assert (Hall : Forall (fun _ : jsstring => True) values) by (apply Forall_forall; auto).
  destruct (conceal_all_cells (fun _ => True) values source k Hall Hin) as (_ & Hh & _).
  specialize (Hh Hlen). revert Hh. rewrite Ht.
  apply (below_derived (kept (fun _ => True))); auto.
  - intros; now apply (matches_keyed_kept (fun _ => True)).
  - apply kept_display_none.
  - apply finish_derived.
Qed.

(** The notes of the studio, which are not printed. *)
Lemma captureTableHTML_header_witness :
  exists html source,
    captureTableHTML studio = (Normal (Some html), studio)
    /\ suppressed (readState studio) (js "notes")
    /\ plain (js "notes") = true
    /\ document_querySelector [compound_sel (class_sel (js "schedule"))] (document studio)
       = Some source
    /\ length (cells (js "thead") (js "th") (js "notes") source) = 1%nat
    /\ Forall display_none (cells (js "thead") (js "th") (js "notes") (table html)).
Proof.
  assert (H : exists html, captureTableHTML studio = (Normal (Some html), studio))
    by (vm_compute; eauto).
  destruct H as [html H].
  assert (Hk : suppressed (readState studio) (js "notes")).
  { apply hiddenCols_suppressed, (bool_decide_unpack _). vm_compute. exact I. }
  destruct (captureTableHTML_header studio html studio (js "notes") H Hk eq_refl)
    as (source & Hs & G).
  assert (Hlen : length (cells (js "thead") (js "th") (js "notes") source) = 1%nat).
  { revert Hs. vm_compute. intros [= <-]. reflexivity. }
  exists html, source. split_and!; auto. apply G. lia.
Defined.

(** ** The snapshot without controls *)

(** C8, as the code has it: in the snapshot [captureTableHTML] returns, no
    element below the root of the cloned table is a control (a button, an
    input, a [.drag-cell], a [.sharpie] or an [.actions-cell]) and none has a
    [draggable] attribute: the two [querySelectorAll] of the source find
    nothing in it. The root is the element of the first [.schedule] of the
    document as it is, with its tag, classes, style and attributes. The
    style sheet is the constant one. *)
Theorem captured_without_controls w html w' :
  captureTableHTML w = (Normal (Some html), w') ->
  Forall (fun e => control e = false /\ getAttribute (js "draggable") e = None)
    (descendants (table html))
  /\ (exists e kids kids',
        document_querySelector [compound_sel (class_sel (js "schedule"))] (document w)
        = Some (Element e kids)
        /\ table html = Element e kids')
  /\ querySelectorAll interactive (table html) = []
  /\ querySelectorAll draggable (table html) = []
  /\ styles html = captureStyles.
Proof.
  unfold captureTableHTML. run.
  destruct (document_querySelector _ (document w)) as [source|] eqn:Hs; [|discriminate].
  destruct (prepare (readState w) source) as [c|e] eqn:Hp; [|discriminate].
  intros [= <- <-]. simpl.
  destruct (prepared_without_controls _ _ _ Hp) as [Hi Hd].
  split_and!; auto.
  - pose proof Hi as Hi'. pose proof Hd as Hd'.
    rewrite querySelectorAll_below in Hi', Hd'.
    apply (below_nil_descendants interactive _ interactive_shallow) in Hi'.
    apply (below_nil_descendants draggable _ draggable_shallow) in Hd'.
    rewrite Forall_forall in *. intros e He. split.
    + rewrite <- (matches_interactive [] e). now apply Hi'.
    + specialize (Hd' e He). unfold matches, draggable in Hd'. simpl in Hd'.
      rewrite orb_false_r in Hd'. apply bool_decide_eq_false in Hd'.
      destruct (getAttribute (js "draggable") e); [|reflexivity]. destruct Hd'. eauto.
  - destruct (document_querySelector_Element _ _ _ Hs) as (e & kids & ->).
    destruct (prepare_root _ _ _ _ Hp) as [kids' ->]. now exists e, kids, kids'.
Qed.

(** The snapshot of the studio. *)
Lemma captured_without_controls_witness :
  exists html,
    captureTableHTML studio = (Normal (Some html), (captureTableHTML studio).2)
    /\ tagName <$> descendants (table html)
       = js <$> ["colgroup"; "col"; "col"; "col"; "thead"; "tr"; "th"; "th"; "th";
                 "tbody"; "tr"; "td"; "td"]%string
    /\ Forall (fun e => control e = false /\ getAttribute (js "draggable") e = None)
         (descendants (table html))
    /\ (exists e kids kids',
          document_querySelector [compound_sel (class_sel (js "schedule"))] (document studio)
          = Some (Element e kids)
          /\ table html = Element e kids')
    /\ querySelectorAll interactive (table html) = []
    /\ querySelectorAll draggable (table html) = []
    /\ styles html = captureStyles.
Proof.
  eexists. split; [vm_compute; reflexivity|]. split; [vm_compute; reflexivity|].
  apply (captured_without_controls studio _ (captureTableHTML studio).2).
  vm_compute. reflexivity.
Defined.

(** C8 as the spec states it fails at the root of the snapshot, which the
    source never looks at: the table of the studio can be dragged, and so
    can the table in its snapshot; a [button.schedule] is captured as the
    button it is. *)
Lemma captured_root_kept :
  (exists html e kids,
     (captureTableHTML studio).1 = Normal (Some html)
     /\ table html = Element e kids
     /\ getAttribute (js "draggable") e = Some (js "true"))
  /\ (exists html e kids,
        (captureTableHTML
           (a_world (Some signed_in)
              (page [an_element "button" ["schedule"%string] [] [Text (js "Schedule")]])
              (Some editor) false)).1
        = Normal (Some html)
        /\ table html = Element e kids
        /\ tagName e = js "button"
        /\ control e = true).
Proof.
  split; eexists _, _, _; (split; [vm_compute; reflexivity|]);
    split_and!; vm_compute; reflexivity.
Qed.
